(** * dcblocker~ : a first-order DC-blocking high-pass filter

    Shallow embedding of [source/projects/dcblocker_tilde/dcblocker_tilde.cpp]
    (class [dcblocker]) and the properties of its per-sample update
    [calculate], its [clear] method and its [bypass] attribute.

    The source computes on [sample], the framework's name for a C++ [double].
    The filter is written once, over an interface of sample arithmetic, and
    run on IEEE 754 double precision (Rocq's primitive floats) in the two
    floating-point environments the code meets:
    - [binary64], the default environment of C++: round to nearest, ties to
      even, subnormal numbers kept;
    - [binary64_ftz], the same with subnormal results flushed to zero, which
      is what the comment above [calculate] says the host sets.
    A third instance, [exact], runs the same code on the real numbers; it
    serves as a yardstick only.

    Doubles are measured in the reals by [val], the number a finite double
    stands for. Distances between doubles are stated with it; the doubles
    themselves are always computed by the code.

    Contents: the embedding; facts about the object in any arithmetic; facts
    about double-precision arithmetic: rounding never carries a result past
    a representable bound, and it is off by at most 2^-53 of the result or
    half the spacing of the subnormals; the filter in both environments;
    the claims of the specification; further properties. *)

From Stdlib Require Import Floats ZArith Bool List Lia Reals Lra.
Import ListNotations.

(** ** Sample arithmetic *)

(** What [calculate] and [clear] need of the type [sample]: the two literals
    of the source and its three operators. *)
Class SampleArith (sample : Type) : Type := {
  lit_0_0 : sample;                       (* the literal 0.0 *)
  lit_0_9997 : sample;                    (* the literal 0.9997 *)
  s_add : sample -> sample -> sample;     (* +  *)
  s_sub : sample -> sample -> sample;     (* binary - *)
  s_mul : sample -> sample -> sample      (* *  *)
}.

Declare Scope sample_scope.
Delimit Scope sample_scope with sample.
Infix "+" := s_add : sample_scope.
Infix "-" := s_sub : sample_scope.
Infix "*" := s_mul : sample_scope.

(** The double nearest to the decimal 0.9997, which is what a C++ compiler
    stores for the literal: 9004497094964570 * 2^-53. *)
Definition coeff64 : float := 0x1.ffd8adab9f55ap-1%float.

(** Modelled from the spec: the typedef [sample] comes from [c74_min.h],
    which is not among the sources; the spec gives it as a 64-bit float. *)
#[export] Instance binary64 : SampleArith float := {|
  lit_0_0 := 0%float;
  lit_0_9997 := coeff64;
  s_add := PrimFloat.add;
  s_sub := PrimFloat.sub;
  s_mul := PrimFloat.mul
|}.

(** The same operators over the reals. *)
#[export] Instance exact : SampleArith R := {|
  lit_0_0 := 0%R;
  lit_0_9997 := (9997 / 10000)%R;
  s_add := Rplus;
  s_sub := Rminus;
  s_mul := Rmult
|}.

(** ** The filter object *)

Section Filter.

Context {sample : Type} {arith : SampleArith sample}.

Local Open Scope sample_scope.

(** The data members of [class dcblocker] that the filter reads and writes.
    [bypass] is the value of the attribute declared by
    [ATTRIBUTE (bypass, bool, false)]. *)
Record dcblocker : Type := Dcblocker {
  x_1 : sample;      (* Input history *)
  y_1 : sample;      (* Output history *)
  bypass : bool
}.

(** [dcblocker(atoms args) {}]: the body is empty and neither [x_1] nor [y_1]
    has an initialiser, so both keep what the storage of the object held
    before construction, [raw_x] and [raw_y]. Only the attribute gets a value,
    its declared default [false]. The arguments are not used. *)
Definition dcblocker_new (raw_x raw_y : sample) : dcblocker :=
  {| x_1 := raw_x; y_1 := raw_y; bypass := false |}.

(** [METHOD (clear) { x_1 = y_1 = 0.0; } END] *)
Definition clear (d : dcblocker) : dcblocker :=
  {| x_1 := lit_0_0; y_1 := lit_0_0; bypass := bypass d |}.

(** Modelled from the spec: the setter of the attribute is built by the
    [ATTRIBUTE] macro of [c74_min.h], which is not among the sources; the
    spec has it store the flag and leave the history alone. The body given in
    the source, [{}], adds nothing. *)
Definition set_bypass (flag : bool) (d : dcblocker) : dcblocker :=
  {| x_1 := x_1 d; y_1 := y_1 d; bypass := flag |}.

(** [sample calculate(sample x)]: the returned sample and the object after
    the call. *)
Definition calculate (x : sample) (d : dcblocker) : sample * dcblocker :=
  if bypass d then
    (x, d)
  else
    let y := x - x_1 d + y_1 d * lit_0_9997 in
    (y, {| x_1 := x; y_1 := y; bypass := bypass d |}).

(** *** Driving the object *)

(** A block of samples, one [calculate] per sample in time order. *)
Fixpoint perform (xs : list sample) (d : dcblocker) : list sample * dcblocker :=
  match xs with
  | [] => ([], d)
  | x :: xs' =>
      let (y, d') := calculate x d in
      let (ys, d'') := perform xs' d' in
      (y :: ys, d'')
  end.

(** An endless input [xs 0, xs 1, ...]: the object after the first [n]
    samples, and the [n]-th output. *)
Fixpoint after (xs : nat -> sample) (n : nat) (d : dcblocker) : dcblocker :=
  match n with
  | O => d
  | S k => snd (calculate (xs k) (after xs k d))
  end.

Definition output (xs : nat -> sample) (n : nat) (d : dcblocker) : sample :=
  fst (calculate (xs n) (after xs n d)).

(** What a host can do with the object. *)
Inductive call : Type :=
  | Signal (x : sample)        (* calculate(x) *)
  | Bypass (flag : bool)       (* set the attribute *)
  | Clear.                     (* the clear method *)

(** A sequence of calls: the samples returned by the [Signal] calls, and the
    object at the end. *)
Fixpoint drive (cs : list call) (d : dcblocker) : list sample * dcblocker :=
  match cs with
  | [] => ([], d)
  | Signal x :: cs' =>
      let (y, d') := calculate x d in
      let (ys, d'') := drive cs' d' in
      (y :: ys, d'')
  | Bypass flag :: cs' => drive cs' (set_bypass flag d)
  | Clear :: cs' => drive cs' (clear d)
  end.

Definition is_clear (c : call) : bool :=
  match c with Clear => true | _ => false end.

(** The input [a*A + b*B], sample by sample. *)
Definition superpose (a b : sample) (A B : list sample) : list sample :=
  map (fun uv => a * fst uv + b * snd uv) (combine A B).

End Filter.

Arguments dcblocker sample : clear implicits.
Arguments call sample : clear implicits.

(** ** Statements about double-precision samples *)

Module Double.

(** The largest finite double, the smallest positive one, and the smallest
    positive normal one. *)
Definition DBL_MAX : float := 0x1.fffffffffffffp1023%float.
Definition DBL_TRUE_MIN : float := 0x1p-1074%float.
Definition DBL_MIN : float := 0x1p-1022%float.

(** An object with both histories at 0.0 and the filter switched on: built
    over storage that held anything, then cleared. *)
Definition zeroed : dcblocker float :=
  clear (dcblocker_new DBL_MAX DBL_TRUE_MIN).

(** The answer to the endless input [c, c, c, ...]. *)
Definition step_response (c : float) (n : nat) : float :=
  output (fun _ => c) n zeroed.

(** "The magnitude decreasing with limit 0", read on doubles: never
    growing, and below every positive threshold from some sample on. *)
Definition decays (y : nat -> float) : Prop :=
  (forall n, (abs (y (S n)) <=? abs (y n))%float = true) /\
  (forall eps : float, (0 <? eps)%float = true ->
     exists N, forall n, (N <= n)%nat -> (abs (y n) <? eps)%float = true).

(** "y(0) = c and y(n) = 0.9997 * y(n-1) for n >= 1, the magnitude
    decreasing with limit 0", of a sequence [y] of doubles; [times] is the
    multiplication by the coefficient as the arithmetic does it, and the
    equalities are those of [==], the weakest reading. *)
Definition follows_step (times : float -> float) (c : float)
    (y : nat -> float) : Prop :=
  (y 0%nat =? c)%float = true /\
  (forall n, (y (S n) =? times (y n))%float = true) /\
  decays y.

Definition step_response_as_stated (c : float) : Prop :=
  follows_step (fun y => y * coeff64)%float c (step_response c).

(** Two doubles agree within the tolerance [tol]: they compare equal, or
    their difference is at most [tol] in magnitude. *)
Definition agree (tol l r : float) : bool :=
  ((l =? r) || (abs (l - r) <=? tol))%float.

(** Superposition of two blocks "within floating-point tolerance", read in
    the weakest way: sample by sample, within some tolerance, however
    large. *)
Definition superposition_as_stated (a b : float) (A B : list float) : Prop :=
  exists tol : float,
    Forall2 (fun l r => agree tol l r = true)
      (fst (perform (superpose a b A B) zeroed))
      (superpose a b (fst (perform A zeroed)) (fst (perform B zeroed))).

(** "After reset(), all outputs are finite again provided all subsequent
    inputs are finite." *)
Definition recovery_as_stated : Prop :=
  forall (d : dcblocker float) (xs : list float),
    bypass d = false ->
    forallb is_finite xs = true ->
    forallb is_finite (fst (perform xs (clear d))) = true.




End Double.

(** ** Magnitudes of doubles *)

Module Magnitude.

Local Open Scope Z_scope.

(** [m * 2^e] in units of [2^-2148]: an integer at every exponent that the
    operations on doubles meet (at least -1074 in a double, at least -2148
    in the exact product of two). *)
Definition grid (m e : Z) : Z := m * 2 ^ (e + 2148).

(** The magnitude of a finite double on that grid; 0 for the zeros, and for
    the infinities and NaN, which have none. *)
Definition mag_sf (x : spec_float) : Z :=
  match x with S754_finite _ m e => grid (Zpos m) e | _ => 0 end.

Definition finite_sf (x : spec_float) : bool :=
  match x with S754_zero _ | S754_finite _ _ _ => true | _ => false end.

Definition mag (x : float) : Z := mag_sf (Prim2SF x).

(** [mrs] is the mantissa [M0] shifted right by [k] bits; the round and
    sticky flags are both off when no bit was lost. *)
Definition shifted (M0 k : Z) (mrs : shr_record) : Prop :=
  exists rem,
    M0 = shr_m mrs * 2 ^ k + rem /\ 0 <= rem < 2 ^ k /\ 0 <= shr_m mrs /\
    (rem = 0 -> shr_r mrs = false /\ shr_s mrs = false).

(** Samples of magnitude up to 2^1010 keep the output history within
    2^1023, below the overflow threshold. *)
Definition input_bound : float := 0x1p1010%float.
Definition history_bound : float := 0x1p1023%float.

Definition in_range (x : float) : bool := (abs x <=? input_bound)%float.

Definition call_in_range (c : call float) : bool :=
  match c with Signal x => in_range x | _ => true end.

Definition tame (d : dcblocker float) : Prop :=
  is_finite (x_1 d) = true /\ mag (x_1 d) <= mag input_bound /\
  is_finite (y_1 d) = true /\ mag (y_1 d) <= mag history_bound.

(** The same with the rounding position: the round bit and the sticky bit
    of [mrs] say where the lost bits [rem] lie against half of [2^k]. *)
Definition located (M0 k : Z) (mrs : shr_record) : Prop :=
  exists rem,
    M0 = shr_m mrs * 2 ^ k + rem /\ 0 <= rem < 2 ^ k /\ 0 <= shr_m mrs /\
    match shr_r mrs, shr_s mrs with
    | false, false => rem = 0
    | false, true => 0 < 2 * rem < 2 ^ k
    | true, false => 2 * rem = 2 ^ k
    | true, true => 2 ^ k < 2 * rem
    end.

(** The signed value of a finite double on the grid; 0 for the zeros, and
    for the infinities and NaN. *)
Definition sgrid_sf (x : spec_float) : Z :=
  match x with
  | S754_finite s m e => cond_Zopp s (grid (Zpos m) e)
  | _ => 0
  end.

Definition sgrid (x : float) : Z := sgrid_sf (Prim2SF x).

End Magnitude.

(** ** Subnormals flushed to zero *)

Module Flushed.

Import Double.

Local Open Scope float_scope.

(** Modelled from the spec: the floating-point environment is set by the
    host, which is not among the sources. The comment above [calculate]
    says the host sets the FTZ bit of the CPU, and the spec (section 7)
    names flush-to-zero. With that bit set, a result that would be
    subnormal is replaced by a zero of the same sign; operands are taken as
    they are. *)
Definition flush (r : float) : float :=
  if abs r <? DBL_MIN then r * 0 else r.

(** The operators of [binary64], each followed by [flush]. *)
Definition binary64_ftz : SampleArith float := {|
  lit_0_0 := 0;
  lit_0_9997 := coeff64;
  s_add := fun x y => flush (x + y);
  s_sub := fun x y => flush (x - y);
  s_mul := fun x y => flush (x * y)
|}.

(** The code of the filter, run in that environment. *)
Definition calculate : float -> dcblocker float -> float * dcblocker float :=
  @calculate float binary64_ftz.

Definition perform :
    list float -> dcblocker float -> list float * dcblocker float :=
  @perform float binary64_ftz.

Definition output : (nat -> float) -> nat -> dcblocker float -> float :=
  @output float binary64_ftz.

Definition superpose : float -> float -> list float -> list float -> list float :=
  @superpose float binary64_ftz.

Definition step_response (c : float) (n : nat) : float :=
  output (fun _ => c) n zeroed.

(** One more sample of a constant: the input cancels its history, and what
    is left is the flushed product. *)
Definition next (z : float) : float := flush (0 + flush (z * coeff64)).

Definition step_response_as_stated (c : float) : Prop :=
  follows_step (fun y => flush (y * coeff64)) c (step_response c).

Definition superposition_as_stated (a b : float) (A B : list float) : Prop :=
  exists tol : float,
    Forall2 (fun l r => agree tol l r = true)
      (fst (perform (superpose a b A B) zeroed))
      (superpose a b (fst (perform A zeroed)) (fst (perform B zeroed))).

End Flushed.

(** ** Doubles as real numbers *)

Module Value.

Import Magnitude.

Local Open Scope R_scope.

(** The grid unit: [2^2148] grid steps make 1. *)
Definition G : R := IZR (2 ^ 2148).

(** The real number a finite double stands for: its signed mantissa times
    2 to its exponent. (0 for an infinity or NaN; statements that use [val]
    say that their doubles are finite.) *)
Definition val (x : float) : R := IZR (sgrid x) / G.

Definition finite (x : float) : Prop := is_finite x = true.

(** The unit roundoff 2^-53; the coefficient as a double has it,
    9004497094964570 * 2^-53; half the spacing of the subnormals, 2^-1075;
    and 2^1023, below which nothing overflows. *)
Definition u : R := / 9007199254740992.
Definition kappa : R := 9004497094964570 / 9007199254740992.
Definition eta : R := IZR (2 ^ 1073) / G.
Definition Omega : R := IZR (2 ^ 3171) / G.

(** The largest magnitude in a block. *)
Definition peak (xs : list float) : R :=
  fold_right Rmax 0 (map (fun x => Rabs (val x)) xs).

(** Two doubles are finite and at most [tol] apart. *)
Definition near (tol : R) (l r : float) : Prop :=
  finite l /\ finite r /\ Rabs (val l - val r) <= tol.

(** The tolerance of superposition for the factors [a], [b] and the blocks
    [A], [B]: 2^-35 of the size of the mixed input, and 2^-1000 for each of
    the two factors and once more, for results that underflow. *)
Definition superposition_tolerance (a b : float) (A B : list float) : R :=
  (Rabs (val a) * peak A + Rabs (val b) * peak B) / 34359738368 +
  (1 + Rabs (val a) + Rabs (val b)) * val 0x1p-1000%float.

(** The headroom of a block: how far an output can be from its input. *)
Definition headroom (xs : list float) : R :=
  (1 + / 68719476736) * peak xs + val 0x1p-1000%float.

End Value.

(** ** Rounded arithmetic *)

Module Tolerance.

Import Value.

Local Open Scope R_scope.

(** The constants of the error analysis: the slack allowed on the bound of
    the history, 2^-36; the factor of accumulated underflow; the error of
    two and of three operations in a row. *)
Definition theta : R := / 68719476736.
Definition K : R := 16384.
Definition cu : R := 2 * u + u * u.
Definition ch : R := 3 + 2 * u.

(** The error of one run of the expression of [calculate], for inputs of
    magnitude at most [B] and absolute error [h] per operation. *)
Definition local_error (B h : R) : R :=
  cu * (2 * B + kappa * ((2 + theta) * B + K * h)) + ch * h.

(** What the error analysis needs of an arithmetic: [fin] tells the finite
    samples and [v] gives their values; finite operands whose exact result
    stays within [Omega] give a finite result; a finite result is the exact
    one up to the relative error [u] and the absolute error [h]. *)
Record rounded {sample : Type} (arith : SampleArith sample)
    (fin : sample -> Prop) (v : sample -> R) (h : R) : Prop := {
  r_unit : 0 <= h <= / 1099511627776;
  r_zero : fin lit_0_0 /\ v lit_0_0 = 0;
  r_coeff : fin lit_0_9997 /\ v lit_0_9997 = kappa;
  r_max : forall x, fin x -> Rabs (v x) <= 2 * Omega;
  r_add : forall x y, fin x -> fin y ->
            Rabs (v x) + Rabs (v y) <= Omega -> fin (x + y)%sample;
  r_sub : forall x y, fin x -> fin y ->
            Rabs (v x) + Rabs (v y) <= Omega -> fin (x - y)%sample;
  r_mul : forall x y, fin x -> fin y ->
            Rabs (v x) * Rabs (v y) <= Omega -> fin (x * y)%sample;
  e_add : forall x y, fin x -> fin y -> fin (x + y)%sample ->
            Rabs (v (x + y)%sample - (v x + v y)) <= u * Rabs (v x + v y) + h;
  e_sub : forall x y, fin x -> fin y -> fin (x - y)%sample ->
            Rabs (v (x - y)%sample - (v x - v y)) <= u * Rabs (v x - v y) + h;
  e_mul : forall x y, fin x -> fin y -> fin (x * y)%sample ->
            Rabs (v (x * y)%sample - v x * v y) <= u * Rabs (v x * v y) + h
}.

End Tolerance.

(** The invariants of the error analysis. *)

Module Track.

Import Value Tolerance.

Local Open Scope R_scope.

Section Invariants.

Context {sample : Type}.
Variables (fin : sample -> Prop) (v : sample -> R) (h : R).

(** A filtering object fed inputs of magnitude at most [B]: its histories
    are finite and the output history is within [(1 + theta) * B + K * h]
    of the input history. *)
Definition steady (B : R) (d : dcblocker sample) : Prop :=
  bypass d = false /\ fin (x_1 d) /\ fin (y_1 d) /\
  Rabs (v (x_1 d)) <= B /\
  Rabs (v (y_1 d) - v (x_1 d)) <= (1 + theta) * B + K * h.

Definition near (tol : R) (l r : sample) : Prop :=
  fin l /\ fin r /\ Rabs (v l - v r) <= tol.

Definition within (B : R) (x : sample) : Prop := fin x /\ Rabs (v x) <= B.

Variables (a b : sample) (Am Bm : R).

(** For the factors [a], [b] and blocks within [Am], [Bm]: the size of the
    mixed input [a*A + b*B], the weight of underflow, the rounding error of
    mixing, the largest mixed input, the drift allowed between the filter
    run on the mixed input and the mix of the two filters, and the
    tolerance between the two sides of the superposition. *)
Definition scale : R := Rabs (v a) * Am + Rabs (v b) * Bm.
Definition weight : R := (1 + Rabs (v a) + Rabs (v b)) * h.
Definition mix_error : R := cu * scale + ch * h.
Definition mix_peak : R := scale + mix_error.
Definition drift : R := scale / 68719476736 + 32768 * weight.
Definition tolerance : R := scale / 34359738368 + 65536 * weight.

(** Three objects run side by side: [dL] on the mixed input, [dA] and [dB]
    on the two blocks. *)
Definition tracking (dL dA dB : dcblocker sample) : Prop :=
  steady mix_peak dL /\ steady Am dA /\ steady Bm dB /\
  Rabs (v (x_1 dL) - (v a * v (x_1 dA) + v b * v (x_1 dB))) <= mix_error /\
  Rabs (v (y_1 dL) - (v a * v (y_1 dA) + v b * v (y_1 dB))) <= drift.

End Invariants.

End Track.

(** ** Statements about exact samples *)

Module Ideal.

Local Open Scope R_scope.

Definition zeroed : dcblocker R := {| x_1 := 0; y_1 := 0; bypass := false |}.

End Ideal.

(** * Properties *)

(** ** The object, whatever the arithmetic *)

Section FilterFacts.

Context {sample : Type} {arith : SampleArith sample}.

Local Open Scope sample_scope.

(** The two branches of [calculate]. *)
Lemma calculate_bypassed (x : sample) (d : dcblocker sample) :
  bypass d = true -> calculate x d = (x, d).
Proof. intros Hb. unfold calculate. now rewrite Hb. Qed.

Lemma calculate_filtering (x : sample) (d : dcblocker sample) :
  bypass d = false ->
  calculate x d =
  (x - x_1 d + y_1 d * lit_0_9997,
   {| x_1 := x; y_1 := x - x_1 d + y_1 d * lit_0_9997; bypass := false |}).
Proof. intros Hb. unfold calculate. rewrite Hb. reflexivity. Qed.

Lemma calculate_keeps_flag (x : sample) (d : dcblocker sample) :
  bypass (snd (calculate x d)) = bypass d.
Proof. unfold calculate. destruct (bypass d) eqn:E; simpl; [exact E | reflexivity]. Qed.

Lemma perform_bypassed (xs : list sample) (d : dcblocker sample) :
  bypass d = true -> perform xs d = (xs, d).
Proof.
  intros Hb. induction xs as [|x xs IH]; simpl.
  - reflexivity.
  - now rewrite (calculate_bypassed x d Hb), IH.
Qed.

Lemma perform_length (xs : list sample) :
  forall d : dcblocker sample, length (fst (perform xs d)) = length xs.
Proof.
  induction xs as [|x xs IH]; intros d; simpl.
  - reflexivity.
  - destruct (calculate x d) as [y d'].
    specialize (IH d'). destruct (perform xs d') as [ys d''].
    simpl in *. now rewrite IH.
Qed.

(** [perform] and [output] describe the same run. *)
Lemma perform_nth (xs : nat -> sample) (n : nat) :
  forall (k : nat) (d : dcblocker sample) (dflt : sample),
    (k < n)%nat ->
    nth k (fst (perform (map xs (seq 0 n)) d)) dflt = output xs k d.
Proof.
  intros k d dflt Hk.
  assert (G : forall m s d0, (k < m)%nat ->
            nth k (fst (perform (map xs (seq s m)) d0)) dflt =
            output (fun i => xs (s + i)%nat) k d0).
  { clear. induction k as [|k IH]; intros m s d0 Hm.
    - destruct m as [|m]; [lia|]. simpl. unfold output. simpl.
      rewrite Nat.add_0_r.
      destruct (calculate (xs s) d0) as [y d'].
      now destruct (perform (map xs (seq (S s) m)) d').
    - destruct m as [|m]; [lia|]. simpl.
      destruct (calculate (xs s) d0) as [y d'] eqn:E.
      specialize (IH m (S s) d' ltac:(lia)).
      destruct (perform (map xs (seq (S s) m)) d') as [ys d''].
      simpl in *. rewrite IH. unfold output.
      assert (A : forall j, after (fun i => xs (S s + i)%nat) j d' =
                            after (fun i => xs (s + i)%nat) (S j) d0).
      { induction j as [|j IHj]; simpl.
        - now rewrite Nat.add_0_r, E.
        - simpl in IHj. rewrite IHj. now rewrite <- plus_n_Sm. }
      rewrite A. simpl. now rewrite <- plus_n_Sm. }
  now apply (G n 0%nat d).
Qed.

Lemma clear_forgets (d1 d2 : dcblocker sample) :
  bypass d1 = bypass d2 -> clear d1 = clear d2.
Proof. intros H. unfold clear. now rewrite H. Qed.

(** A block is the blocks it is cut into, one after the other. *)
Lemma perform_app (xs ys : list sample) :
  forall d : dcblocker sample,
    perform (xs ++ ys) d =
    (fst (perform xs d) ++ fst (perform ys (snd (perform xs d))),
     snd (perform ys (snd (perform xs d)))).
Proof.
  induction xs as [|x xs IH]; intros d; cbn [app perform].
  - cbn [fst snd app]. now destruct (perform ys d).
  - destruct (calculate x d) as [y d']. rewrite (IH d').
    destruct (perform xs d') as [os d'']. reflexivity.
Qed.

Lemma perform_flag (xs : list sample) :
  forall d : dcblocker sample, bypass (snd (perform xs d)) = bypass d.
Proof.
  induction xs as [|x xs IH]; intros d; cbn [perform].
  - reflexivity.
  - pose proof (calculate_keeps_flag x d) as H.
    destruct (calculate x d) as [y d']. cbn [snd] in H.
    specialize (IH d'). destruct (perform xs d') as [os d''].
    cbn [snd] in *. congruence.
Qed.

(** Samples fed while bypassed come back as they are and leave no trace. *)
Lemma drive_bypassed (xs : list sample) (cs : list (call sample)) :
  forall d : dcblocker sample,
    bypass d = true ->
    drive (map Signal xs ++ cs) d = (xs ++ fst (drive cs d), snd (drive cs d)).
Proof.
  induction xs as [|x xs IH]; intros d Hb; cbn [map app drive].
  - now destruct (drive cs d).
  - rewrite (calculate_bypassed x d Hb), (IH d Hb). reflexivity.
Qed.

(** After a filtered block the histories are its last sample and its last
    output. *)
Lemma perform_history (xs : list sample) (x : sample) (d : dcblocker sample) :
  bypass d = false ->
  x_1 (snd (perform (xs ++ [x]) d)) = x /\
  y_1 (snd (perform (xs ++ [x]) d)) = last (fst (perform (xs ++ [x]) d)) x.
Proof.
  intros Hb. rewrite perform_app. cbn [fst snd perform].
  pose proof (perform_flag xs d) as Hf. rewrite Hb in Hf.
  rewrite (calculate_filtering x _ Hf). cbn [fst snd x_1 y_1].
  now rewrite last_last.
Qed.

Lemma after_flag (xs : nat -> sample) (n : nat) (d : dcblocker sample) :
  bypass (after xs n d) = bypass d.
Proof.
  induction n as [|n IH]; cbn [after]; [reflexivity|].
  now rewrite calculate_keeps_flag.
Qed.

(** The outputs obey the difference equation of the header comment,
    [y(n) = x(n) - x(n-1) + 0.9997 * y(n-1)], from the histories on. *)
Lemma output_step (xs : nat -> sample) (n : nat) (d : dcblocker sample) :
  bypass d = false ->
  output xs (S n) d = xs (S n) - xs n + output xs n d * lit_0_9997.
Proof.
  intros Hb. unfold output. cbn [after].
  pose proof (after_flag xs n d) as Hn. rewrite Hb in Hn.
  rewrite (calculate_filtering (xs n) _ Hn). cbn [fst snd].
  now rewrite calculate_filtering by reflexivity.
Qed.

End FilterFacts.

(** ** Double-precision arithmetic *)

Module DoubleFacts.

Import Double.

Local Open Scope float_scope.

(** The literal: [coeff64] is within half a unit in the last place of
    9997/10000, so it is the double a compiler rounds the decimal to. *)
Lemma coeff64_nearest :
  Prim2SF coeff64 = S754_finite false 9004497094964570 (-53) /\
  (Z.abs (9004497094964570 * 10000 - 9997 * 2 ^ 53) * 2 < 10000)%Z.
Proof. split; [reflexivity | vm_compute; reflexivity]. Qed.

(** There is one NaN and one negative zero. *)
Lemma nan_unique (x : float) : Prim2SF x = S754_nan -> x = nan.
Proof. intros H. apply Prim2SF_inj. now rewrite H. Qed.

Lemma neg_zero_unique (x : float) : Prim2SF x = S754_zero true -> x = neg_zero.
Proof. intros H. apply Prim2SF_inj. now rewrite H. Qed.

(** Adding or subtracting +0.0 changes nothing but the sign of -0.0; NaN
    absorbs. *)
Lemma sub_zero_r (x : float) : x - 0 = x.
Proof.
  apply Prim2SF_inj. rewrite sub_spec.
  change (Prim2SF 0) with (S754_zero false).
  destruct (Prim2SF x) as [[|]|[|]| |s m e]; reflexivity.
Qed.

Lemma add_zero_r (x : float) : x <> neg_zero -> x + 0 = x.
Proof.
  intros Hx. apply Prim2SF_inj. rewrite add_spec.
  change (Prim2SF 0) with (S754_zero false).
  destruct (Prim2SF x) as [[|]|[|]| |s m e] eqn:E; try reflexivity.
  now apply neg_zero_unique in E.
Qed.

Lemma add_zero_l (x : float) : x <> neg_zero -> 0 + x = x.
Proof.
  intros Hx. apply Prim2SF_inj. rewrite add_spec.
  change (Prim2SF 0) with (S754_zero false).
  destruct (Prim2SF x) as [[|]|[|]| |s m e] eqn:E; try reflexivity.
  now apply neg_zero_unique in E.
Qed.

Lemma add_nan_r (x : float) : x + nan = nan.
Proof.
  apply Prim2SF_inj. rewrite add_spec.
  change (Prim2SF nan) with S754_nan.
  destruct (Prim2SF x) as [[|]|[|]| |s m e]; reflexivity.
Qed.

Lemma add_nan_l (x : float) : nan + x = nan.
Proof.
  apply Prim2SF_inj. rewrite add_spec.
  change (Prim2SF nan) with S754_nan. reflexivity.
Qed.

Lemma sub_nan_l (x : float) : nan - x = nan.
Proof.
  apply Prim2SF_inj. rewrite sub_spec.
  change (Prim2SF nan) with S754_nan. reflexivity.
Qed.

(** [is_finite] and [is_nan], read on the specification of doubles. *)
Lemma is_finite_spec (x : float) :
  is_finite x =
  match Prim2SF x with
  | S754_zero _ | S754_finite _ _ _ => true
  | S754_infinity _ | S754_nan => false
  end.
Proof.
  unfold is_finite, is_nan, is_infinity.
  rewrite !FloatAxioms.eqb_spec, abs_spec.
  change (Prim2SF infinity) with (S754_infinity false).
  destruct (Prim2SF x) as [[|]|[|]| |s m e]; try reflexivity.
  unfold SFeqb, SFabs, SFcompare.
  rewrite Z.compare_refl, Pos.compare_cont_refl.
  now destruct s.
Qed.

Lemma is_nan_spec (x : float) : is_nan x = true <-> x = nan.
Proof.
  split.
  - intros H. apply nan_unique. unfold is_nan in H. rewrite FloatAxioms.eqb_spec in H.
    destruct (Prim2SF x) as [[|]|[|]| |s m e]; try reflexivity; try discriminate H.
    exfalso. unfold SFeqb, SFcompare in H.
    rewrite Z.compare_refl, Pos.compare_cont_refl in H. now destruct s.
  - intros ->. reflexivity.
Qed.

(** A finite double minus itself is +0.0. *)
Lemma sub_diag (x : float) : is_finite x = true -> x - x = 0.
Proof.
  rewrite is_finite_spec. intros Hx.
  apply Prim2SF_inj. rewrite sub_spec.
  change (Prim2SF 0) with (S754_zero false).
  destruct (Prim2SF x) as [[|]|[|]| |s m e]; try reflexivity; try discriminate Hx.
  unfold SF64sub, SFsub. rewrite Z.sub_diag. reflexivity.
Qed.

End DoubleFacts.

(** ** Rounding against a representable bound

    The operations on doubles round to nearest. What the filter needs of
    them is one fact: when the exact result of an operation is at most, in
    magnitude, some finite double [F], so is the rounded result, and it is
    finite. The proofs follow [binary_round_aux] of the standard library's
    specification of IEEE 754 arithmetic. *)

Module Rounding.

Import Magnitude.

Local Open Scope Z_scope.

(** The number of binary digits of a mantissa. *)
Lemma digits2_bounds (m : positive) :
  2 ^ (Zpos (digits2_pos m) - 1) <= Zpos m < 2 ^ Zpos (digits2_pos m).
Proof.
  induction m as [p IH|p IH|]; cbn [digits2_pos].
  - rewrite Pos2Z.inj_succ.
    replace (Z.succ (Zpos (digits2_pos p)) - 1) with (Z.succ (Zpos (digits2_pos p) - 1)) by lia.
    rewrite !Z.pow_succ_r by lia. lia.
  - rewrite Pos2Z.inj_succ.
    replace (Z.succ (Zpos (digits2_pos p)) - 1) with (Z.succ (Zpos (digits2_pos p) - 1)) by lia.
    rewrite !Z.pow_succ_r by lia. lia.
  - simpl. lia.
Qed.

(** Shifting right by one bit, and by any number of bits. *)
Lemma shr_1_shifted (M0 k : Z) (mrs : shr_record) :
  0 <= k -> shifted M0 k mrs -> shifted M0 (k + 1) (shr_1 mrs).
Proof.
  intros Hk (rem & HM & Hrem & Hm & Hex).
  destruct mrs as [m r s]. unfold shifted. cbn [shr_m shr_r shr_s] in *.
  rewrite Z.pow_add_r, Z.pow_1_r by lia.
  assert (Hp : 0 < 2 ^ k) by (apply Z.pow_pos_nonneg; lia).
  destruct m as [|[p|p|]|p]; cbn [shr_1 shr_m shr_r shr_s]; try lia.
  - exists rem. split; [lia|]. split; [lia|]. split; [lia|].
    intros H0. destruct (Hex H0) as [-> ->]. now split.
  - exists (2 ^ k + rem). split; [lia|]. split; [lia|]. split; [lia|].
    intros H0. lia.
  - exists rem. split; [lia|]. split; [lia|]. split; [lia|].
    intros H0. destruct (Hex H0) as [-> ->]. now split.
  - exists (2 ^ k + rem). split; [lia|]. split; [lia|]. split; [lia|].
    intros H0. lia.
Qed.

Lemma iter_shr_1_shifted (M0 : Z) (p : positive) :
  forall (k : Z) (mrs : shr_record),
    0 <= k -> shifted M0 k mrs -> shifted M0 (k + Zpos p) (SpecFloat.iter_pos shr_1 p mrs).
Proof.
  induction p as [p IH|p IH|]; intros k mrs Hk H; cbn [SpecFloat.iter_pos].
  - replace (k + Zpos p~1) with (k + 1 + Zpos p + Zpos p) by lia.
    apply IH; [lia|]. apply IH; [lia|]. now apply shr_1_shifted.
  - replace (k + Zpos p~0) with (k + Zpos p + Zpos p) by lia.
    apply IH; [lia|]. now apply IH.
  - now apply shr_1_shifted.
Qed.

Lemma fexp64 (z : Z) : fexp 53 1024 z = Z.max (z - 53) (-1074).
Proof. reflexivity. Qed.

Lemma pow2_pos (k : Z) : 0 <= k -> 0 < 2 ^ k.
Proof. intros. apply Z.pow_pos_nonneg; lia. Qed.

Lemma pow2_split (a b : Z) : 0 <= a -> 0 <= b -> 2 ^ (a + b) = 2 ^ a * 2 ^ b.
Proof. intros. now apply Z.pow_add_r. Qed.

(** What validity of a finite double says about its mantissa and exponent. *)
Lemma bounded_inv (m : positive) (e : Z) :
  SpecFloat.bounded 53 1024 m e = true ->
  -1074 <= e <= 971 /\ Zpos m < 2 ^ 53 /\ (e = -1074 \/ 2 ^ 52 <= Zpos m).
Proof.
  unfold SpecFloat.bounded, canonical_mantissa. rewrite fexp64.
  intros H. apply andb_prop in H. destruct H as [Hc He].
  apply Z.eqb_eq in Hc. apply Z.leb_le in He. change (1024 - 53) with 971 in He.
  pose proof (digits2_bounds m) as [Hlo Hhi].
  set (d := Zpos (digits2_pos m)) in *.
  assert (Hd : d <= 53) by lia.
  split; [lia|]. split.
  - apply Z.lt_le_trans with (1 := Hhi). apply Z.pow_le_mono_r; lia.
  - destruct (Z.eq_dec e (-1074)) as [->|Hne]; [now left|right].
    assert (d = 53) by lia. subst d. rewrite H in Hlo. exact Hlo.
Qed.

(** The first shift of [binary_round_aux] on an aligned mantissa. *)
Lemma shr_fexp_first (m : positive) (e : Z) :
  e <= fexp 53 1024 (Zpos (digits2_pos m) + e) ->
  exists mrs e1,
    shr_fexp 53 1024 (Zpos m) e loc_Exact = (mrs, e1) /\
    e1 = fexp 53 1024 (Zpos (digits2_pos m) + e) /\
    e <= e1 /\ -1074 <= e1 /\
    shifted (Zpos m) (e1 - e) mrs /\
    shr_m mrs < 2 ^ 53 /\
    (e1 = -1074 \/ 2 ^ 52 <= shr_m mrs).
Proof.
  intros Hal. unfold shr_fexp. cbn [Zdigits2 shr_record_of_loc].
  rewrite fexp64 in *.
  pose proof (digits2_bounds m) as [Hlo Hhi].
  set (d := Zpos (digits2_pos m)) in *.
  set (e1 := Z.max (d + e - 53) (-1074)) in *.
  assert (Hsh : shifted (Zpos m) (e1 - e)
                  (fst (shr {| shr_m := Zpos m; shr_r := false; shr_s := false |} e (e1 - e))) /\
                snd (shr {| shr_m := Zpos m; shr_r := false; shr_s := false |} e (e1 - e)) = e1).
  { assert (H0 : shifted (Zpos m) 0 {| shr_m := Zpos m; shr_r := false; shr_s := false |}).
    { exists 0. cbn. repeat split; lia. }
    unfold shr. destruct (e1 - e) as [|p|p] eqn:E; cbn [fst snd].
    - split; [exact H0 | lia].
    - split; [|lia]. now apply (iter_shr_1_shifted (Zpos m) p 0 _ (Z.le_refl 0)).
    - lia. }
  destruct (shr _ e (e1 - e)) as [mrs e1'] eqn:Es. cbn [fst snd] in Hsh.
  destruct Hsh as [Hsh ->].
  exists mrs, e1. split; [reflexivity|]. split; [reflexivity|].
  split; [lia|]. split; [lia|].
  split; [exact Hsh|].
  destruct Hsh as (rem & HM & Hrem & Hm & _).
  assert (Hk : 0 <= e1 - e) by lia.
  pose proof (pow2_pos (e1 - e) Hk) as HK.
  set (K := 2 ^ (e1 - e)) in *.
  split.
  - (* M < 2^d <= 2^(53 + k) *)
    assert (Hd : 2 ^ d <= 2 ^ 53 * K).
    { unfold K. rewrite <- pow2_split by lia. apply Z.pow_le_mono_r; lia. }
    nia.
  - destruct (Z.eq_dec e1 (-1074)) as [|Hne]; [now left|right].
    assert (Ek : e1 - e = d - 53) by lia.
    assert (Hd : 2 ^ (d - 1) = 2 ^ 52 * K).
    { unfold K. rewrite Ek, <- pow2_split by lia. f_equal. lia. }
    nia.
Qed.

(** Rounding to nearest adds at most one to the shifted mantissa, and
    nothing when the shift lost no bit. *)
Lemma round_nearest_even_shifted (M0 k : Z) (mrs : shr_record) :
  shifted M0 k mrs ->
  let m2 := round_nearest_even (shr_m mrs) (loc_of_shr_record mrs) in
  shr_m mrs <= m2 <= shr_m mrs + 1 /\
  (M0 <= shr_m mrs * 2 ^ k -> m2 = shr_m mrs).
Proof.
  intros (rem & HM & Hrem & Hm & Hex). destruct mrs as [m r s].
  cbn [shr_m shr_r shr_s loc_of_shr_record] in *.
  split.
  - destruct r, s; cbn [round_nearest_even]; try lia.
    destruct (Z.even m); lia.
  - intros Hle. assert (rem = 0) by lia.
    destruct (Hex H) as [-> ->]. reflexivity.
Qed.

(** The second shift of [binary_round_aux]: it only renormalises 2^53. *)
Lemma shr_fexp_second (m2 e1 : Z) :
  0 <= m2 <= 2 ^ 53 -> -1074 <= e1 ->
  exists m3 r3 s3 e3,
    shr_fexp 53 1024 m2 e1 loc_Exact =
      ({| shr_m := m3; shr_r := r3; shr_s := s3 |}, e3) /\
    0 <= m3 < 2 ^ 53 /\ e1 <= e3 /\
    grid m3 e3 = grid m2 e1 /\
    (2 ^ 52 <= m2 -> 2 ^ 52 <= m3) /\
    (e3 = e1 \/ 2 ^ 52 <= m3).
Proof.
  intros Hm He.
  destruct (Z.eq_dec m2 (2 ^ 53)) as [->|Hne].
  - exists (2 ^ 52), false, false, (e1 + 1).
    split.
    + unfold shr_fexp. rewrite fexp64.
      change (Zdigits2 (2 ^ 53)) with 54.
      replace (Z.max (54 + e1 - 53) (-1074) - e1) with 1 by lia.
      reflexivity.
    + split; [lia|]. split; [lia|]. split.
      * unfold grid. replace (e1 + 1 + 2148) with (1 + (e1 + 2148)) by lia.
        rewrite (pow2_split 1) by lia. change (2 ^ 53) with (2 ^ 52 * 2 ^ 1). ring.
      * split; [lia | right; lia].
  - exists m2, false, false, e1.
    split.
    + unfold shr_fexp. rewrite fexp64.
      destruct m2 as [|p|p]; [| |lia].
      * cbn [Zdigits2 shr_record_of_loc]. unfold shr.
        destruct (Z.max (0 + e1 - 53) (-1074) - e1) eqn:E; try reflexivity. lia.
      * cbn [Zdigits2 shr_record_of_loc].
        pose proof (digits2_bounds p) as [Hlo Hhi].
        set (d := Zpos (digits2_pos p)) in *.
        assert (Hd : d <= 53).
        { assert (d - 1 < 53); [|lia].
          apply (Z.pow_lt_mono_r_iff 2); lia. }
        unfold shr.
        destruct (Z.max (d + e1 - 53) (-1074) - e1) eqn:E; try reflexivity. lia.
    + repeat split; lia.
Qed.

(** Rounding is monotone against a representable bound: an aligned mantissa
    whose value is at most that of a valid finite double rounds to zero or to
    a finite double that is still at most that bound. It never overflows. *)
Lemma binary_round_aux_below (s : bool) (m : positive) (e : Z) (mF : positive) (eF : Z) :
  -2148 <= e ->
  e <= fexp 53 1024 (Zpos (digits2_pos m) + e) ->
  SpecFloat.bounded 53 1024 mF eF = true ->
  grid (Zpos m) e <= grid (Zpos mF) eF ->
  match binary_round_aux 53 1024 s (Zpos m) e loc_Exact with
  | S754_zero s' => s' = s
  | S754_finite s' m' e' => s' = s /\ grid (Zpos m') e' <= grid (Zpos mF) eF
  | _ => False
  end.
Proof.
  intros He Hal HF Hle.
  destruct (bounded_inv mF eF HF) as (HeF & HmF & HnF).
  destruct (shr_fexp_first m e Hal)
    as (mrs & e1 & E1 & _ & Hee1 & He1 & Hsh & Hlt & Hnorm).
  pose proof (round_nearest_even_shifted _ _ _ Hsh) as [Hm2 Hexact].
  set (m2 := round_nearest_even (shr_m mrs) (loc_of_shr_record mrs)) in *.
  destruct Hsh as (rem & HM & Hrem & Hm1 & _).
  set (m1 := shr_m mrs) in *.
  pose proof (pow2_pos (e + 2148) ltac:(lia)) as HA.
  pose proof (pow2_pos (e1 - e) ltac:(lia)) as HK.
  assert (HKA : 2 ^ (e1 + 2148) = 2 ^ (e1 - e) * 2 ^ (e + 2148)).
  { rewrite <- pow2_split by lia. f_equal. lia. }
  assert (Hmono : grid m2 e1 <= grid (Zpos mF) eF).
  { unfold grid in *. rewrite HKA.
    set (A := 2 ^ (e + 2148)) in *. set (K := 2 ^ (e1 - e)) in *.
    destruct (Z_le_gt_dec e1 eF) as [Hc|Hc].
    - pose proof (pow2_pos (eF - e1) ltac:(lia)) as HE.
      assert (HB : 2 ^ (eF + 2148) = 2 ^ (eF - e1) * (K * A)).
      { unfold K, A. rewrite <- !pow2_split by lia. f_equal. lia. }
      rewrite HB in *. set (E := 2 ^ (eF - e1)) in *.
      assert (HMG : Zpos m <= Zpos mF * E * K).
      { apply (Z.mul_le_mono_pos_r _ _ A HA). lia. }
      assert (Hm2G : m2 <= Zpos mF * E).
      { destruct (Z_lt_le_dec m1 (Zpos mF * E)) as [Hlt1|Hge1]; [lia|].
        assert (HmK : Zpos m <= m1 * K) by nia.
        rewrite (Hexact HmK). nia. }
      replace (Zpos mF * (E * (K * A))) with (Zpos mF * E * (K * A)) by ring.
      apply Z.mul_le_mono_nonneg_r; [nia | exact Hm2G].
    - exfalso.
      assert (Hn : 2 ^ 52 <= m1) by (destruct Hnorm; lia).
      pose proof (pow2_pos (eF + 2148) ltac:(lia)) as HB.
      assert (HD : K * A = 2 ^ (e1 - eF - 1) * (2 * 2 ^ (eF + 2148))).
      { rewrite <- HKA. replace (e1 + 2148) with ((e1 - eF - 1) + (1 + (eF + 2148))) by lia.
        rewrite pow2_split by lia. rewrite (pow2_split 1) by lia. reflexivity. }
      pose proof (pow2_pos (e1 - eF - 1) ltac:(lia)) as HD'.
      set (B := 2 ^ (eF + 2148)) in *. set (D := 2 ^ (e1 - eF - 1)) in *.
      assert (H1 : m1 * (K * A) <= Zpos m * A) by nia.
      assert (H2 : 2 ^ 52 * (2 * B) <= m1 * (K * A)).
      { rewrite HD. nia. }
      change (2 ^ 53) with (2 ^ 52 * 2) in HmF. nia. }
  assert (Hb2 : 0 <= m2 <= 2 ^ 53) by lia.
  destruct (shr_fexp_second m2 e1 Hb2 He1)
    as (m3 & r3 & s3 & e3 & E2 & Hm3 & He3 & Hg & Hn3 & Hor).
  unfold binary_round_aux. rewrite E1. fold m1. fold m2. rewrite E2.
  cbn [shr_m].
  destruct m3 as [|p|p]; [reflexivity | | lia].
  assert (He3' : e3 <= 971).
  { destruct (Z.eq_dec e3 (-1074)) as [|Hne]; [lia|].
    assert (Hn : 2 ^ 52 <= Zpos p).
    { destruct Hor as [->|]; [|assumption].
      apply Hn3. destruct Hnorm; lia. }
    rewrite <- Hg in Hmono. unfold grid in Hmono.
    assert (Hlt3 : 2 ^ (e3 + 2148) < 2 ^ (972 + 2148)).
    { pose proof (pow2_pos (e3 + 2148) ltac:(lia)) as H3.
      pose proof (pow2_pos (eF + 2148) ltac:(lia)) as HB.
      assert (HF' : 2 ^ (eF + 2148) <= 2 ^ (971 + 2148))
        by (apply Z.pow_le_mono_r; lia).
      change (2 ^ (972 + 2148)) with (2 * 2 ^ (971 + 2148)).
      change (2 ^ 53) with (2 ^ 52 * 2) in HmF.
      set (X := 2 ^ (971 + 2148)) in *. nia. }
    apply Z.pow_lt_mono_r_iff in Hlt3; lia. }
  change (1024 - 53) with 971.
  destruct (Z.leb_spec e3 971) as [_|]; [|lia].
  split; [reflexivity|]. now rewrite Hg.
Qed.

(** Rounding does not lose a mantissa that survives the shift. *)
Lemma binary_round_aux_nonzero (s : bool) (m : positive) (e : Z) :
  e <= fexp 53 1024 (Zpos (digits2_pos m) + e) ->
  2 ^ (fexp 53 1024 (Zpos (digits2_pos m) + e) - e) <= Zpos m ->
  match binary_round_aux 53 1024 s (Zpos m) e loc_Exact with
  | S754_zero _ => False
  | _ => True
  end.
Proof.
  intros Hal Hbig.
  destruct (shr_fexp_first m e Hal)
    as (mrs & e1 & E1 & Ee1 & Hee1 & He1 & Hsh & Hlt & Hnorm).
  rewrite <- Ee1 in Hbig.
  pose proof (round_nearest_even_shifted _ _ _ Hsh) as [Hm2 _].
  set (m2 := round_nearest_even (shr_m mrs) (loc_of_shr_record mrs)) in *.
  destruct Hsh as (rem & HM & Hrem & Hm1 & _).
  set (m1 := shr_m mrs) in *.
  assert (H1 : 1 <= m1).
  { pose proof (pow2_pos (e1 - e) ltac:(lia)) as HK.
    set (K := 2 ^ (e1 - e)) in *. nia. }
  assert (Hb2 : 0 <= m2 <= 2 ^ 53) by lia.
  destruct (shr_fexp_second m2 e1 Hb2 He1)
    as (m3 & r3 & s3 & e3 & E2 & Hm3 & He3 & Hg & Hn3 & Hor).
  unfold binary_round_aux. rewrite E1. fold m1. fold m2. rewrite E2.
  cbn [shr_m].
  destruct m3 as [|p|p].
  - exfalso. unfold grid in Hg. rewrite Z.mul_0_l in Hg.
    pose proof (pow2_pos (e1 + 2148) ltac:(lia)). nia.
  - now destruct (Z.leb e3 (1024 - 53)).
  - exact I.
Qed.

Lemma iter_xO_spec (m d : positive) :
  Zpos (Pos.iter xO m d) = Zpos m * 2 ^ Zpos d /\
  Zpos (digits2_pos (Pos.iter xO m d)) = Zpos (digits2_pos m) + Zpos d.
Proof.
  induction d as [|d [IH1 IH2]] using Pos.peano_ind.
  - cbn [Pos.iter digits2_pos]. rewrite Pos2Z.inj_succ. split; lia.
  - rewrite Pos.iter_succ. cbn [digits2_pos].
    rewrite !Pos2Z.inj_succ, Z.pow_succ_r by lia. split; lia.
Qed.

(** Aligning to a smaller exponent keeps the value. *)
Lemma shl_align_spec (m : positive) (e e' : Z) :
  e' <= e ->
  Zpos (fst (shl_align m e e')) = Zpos m * 2 ^ (e - e') /\
  snd (shl_align m e e') = e' /\
  Zpos (digits2_pos (fst (shl_align m e e'))) = Zpos (digits2_pos m) + (e - e').
Proof.
  intros H. unfold shl_align.
  destruct (e' - e) as [|p|p] eqn:E; cbn [fst snd]; try lia.
  - replace (e - e') with 0 by lia. rewrite Z.pow_0_r. repeat split; lia.
  - destruct (iter_xO_spec m p) as [H1 H2].
    replace (e - e') with (Zpos p) by lia. repeat split; assumption.
Qed.

(** [binary_round] against a representable bound. *)
Lemma binary_round_below (s : bool) (m : positive) (e : Z) (mF : positive) (eF : Z) :
  -1074 <= e ->
  SpecFloat.bounded 53 1024 mF eF = true ->
  grid (Zpos m) e <= grid (Zpos mF) eF ->
  match binary_round 53 1024 s m e with
  | S754_zero s' => s' = s
  | S754_finite s' m' e' => s' = s /\ grid (Zpos m') e' <= grid (Zpos mF) eF
  | _ => False
  end.
Proof.
  intros He HF Hle. unfold binary_round.
  set (t := fexp 53 1024 (Zpos (digits2_pos m) + e)).
  assert (Ht : -1074 <= t) by (unfold t; rewrite fexp64; lia).
  destruct (Z_le_gt_dec e t) as [Hc|Hc].
  - (* already aligned *)
    assert (Es : shl_align m e t = (m, e)).
    { unfold shl_align. destruct (t - e) eqn:E; try reflexivity. lia. }
    rewrite Es. apply binary_round_aux_below; try assumption; lia.
  - destruct (shl_align_spec m e t ltac:(lia)) as (H1 & H2 & H3).
    destruct (shl_align m e t) as [mz ez]. cbn [fst snd] in *. subst ez.
    apply binary_round_aux_below; try assumption; try lia.
    + rewrite H3. replace (Zpos (digits2_pos m) + (e - t) + t)
        with (Zpos (digits2_pos m) + e) by lia. fold t. lia.
    + unfold grid in *. rewrite H1.
      replace (e + 2148) with ((e - t) + (t + 2148)) in Hle by lia.
      rewrite pow2_split in Hle by lia. lia.
Qed.

(** [binary_normalize] against a representable bound. *)
Lemma binary_normalize_below (M e : Z) (mF : positive) (eF : Z) :
  -1074 <= e ->
  SpecFloat.bounded 53 1024 mF eF = true ->
  grid (Z.abs M) e <= grid (Zpos mF) eF ->
  match binary_normalize 53 1024 M e false with
  | S754_zero _ => True
  | S754_finite _ m' e' => grid (Zpos m') e' <= grid (Zpos mF) eF
  | _ => False
  end.
Proof.
  intros He HF Hle. unfold binary_normalize.
  destruct M as [|p|p]; [exact I| |].
  - pose proof (binary_round_below false p e mF eF He HF Hle) as H.
    destruct (binary_round 53 1024 false p e); tauto.
  - pose proof (binary_round_below true p e mF eF He HF Hle) as H.
    destruct (binary_round 53 1024 true p e); tauto.
Qed.

Lemma grid_pos (m : positive) (e : Z) : -2148 <= e -> 0 < grid (Zpos m) e.
Proof.
  intros He. unfold grid. pose proof (pow2_pos (e + 2148) ltac:(lia)). nia.
Qed.

Lemma mag_sf_nonneg (x : spec_float) : valid_binary x = true -> 0 <= mag_sf x.
Proof.
  destruct x as [s|s| |s m e]; cbn [mag_sf valid_binary]; try lia.
  intros H. destruct (bounded_inv m e H) as (He & _).
  pose proof (grid_pos m e ltac:(lia)). lia.
Qed.

Lemma grid_align (m : positive) (e e' : Z) :
  -1074 <= e' <= e ->
  grid (Zpos (fst (shl_align m e e'))) e' = grid (Zpos m) e.
Proof.
  intros H. destruct (shl_align_spec m e e' ltac:(lia)) as (H1 & _).
  unfold grid. rewrite H1.
  replace (e + 2148) with ((e - e') + (e' + 2148)) by lia.
  rewrite (pow2_split (e - e') (e' + 2148)) by lia. ring.
Qed.

(** The sum or difference of two aligned mantissas, whatever the signs, is
    at most the sum of the magnitudes. *)
Lemma grid_combine (sx sy : bool) (mx my : positive) (ex ey : Z) (minus : bool) :
  -1074 <= ex -> -1074 <= ey ->
  let ez := Z.min ex ey in
  let M := if minus
           then cond_Zopp sx (Zpos (fst (shl_align mx ex ez))) -
                cond_Zopp sy (Zpos (fst (shl_align my ey ez)))
           else cond_Zopp sx (Zpos (fst (shl_align mx ex ez))) +
                cond_Zopp sy (Zpos (fst (shl_align my ey ez))) in
  grid (Z.abs M) ez <= grid (Zpos mx) ex + grid (Zpos my) ey.
Proof.
  intros Hx Hy ez M.
  rewrite <- (grid_align mx ex ez), <- (grid_align my ey ez) by (unfold ez; lia).
  unfold grid.
  pose proof (pow2_pos (ez + 2148) ltac:(unfold ez; lia)) as HA.
  set (A := 2 ^ (ez + 2148)) in *.
  set (a := Zpos (fst (shl_align mx ex ez))) in *.
  set (b := Zpos (fst (shl_align my ey ez))) in *.
  assert (Ha : 0 < a) by (unfold a; lia).
  assert (Hb : 0 < b) by (unfold b; lia).
  assert (HM : Z.abs M <= a + b).
  { unfold M. destruct minus, sx, sy; cbn [cond_Zopp]; lia. }
  nia.
Qed.

(** The three operators against a representable bound [F]: finite operands
    whose exact result is at most [F] in magnitude give a finite result that
    is at most [F] in magnitude. *)
Lemma SFadd_below (x y F : spec_float) :
  valid_binary x = true -> valid_binary y = true -> valid_binary F = true ->
  finite_sf x = true -> finite_sf y = true ->
  mag_sf x + mag_sf y <= mag_sf F ->
  finite_sf (SF64add x y) = true /\ mag_sf (SF64add x y) <= mag_sf F.
Proof.
  intros Vx Vy VF Fx Fy Hle.
  pose proof (mag_sf_nonneg x Vx) as Nx.
  pose proof (mag_sf_nonneg y Vy) as Ny.
  destruct x as [sx|sx| |sx mx ex]; try discriminate Fx;
  destruct y as [sy|sy| |sy my ey]; try discriminate Fy.
  - destruct sx, sy; cbn in *; split; (reflexivity || lia).
  - cbn in *. split; [reflexivity | lia].
  - cbn in *. split; [reflexivity | lia].
  - cbn [valid_binary] in Vx, Vy.
    destruct (bounded_inv mx ex Vx) as (Hex & _).
    destruct (bounded_inv my ey Vy) as (Hey & _).
    cbn [mag_sf] in Hle, Nx, Ny.
    pose proof (grid_pos mx ex ltac:(lia)).
    pose proof (grid_pos my ey ltac:(lia)).
    destruct F as [sF|sF| |sF mF eF]; cbn [mag_sf] in Hle; try lia.
    cbn [valid_binary] in VF.
    pose proof (grid_combine sx sy mx my ex ey false ltac:(lia) ltac:(lia)) as HM.
    cbv beta iota zeta in HM.
    unfold SF64add, SFadd.
    match goal with
    | |- context [binary_normalize _ _ ?M ?e _] =>
        pose proof (binary_normalize_below M e mF eF ltac:(lia) VF ltac:(lia)) as HR
    end.
    destruct (binary_normalize _ _ _ _ _); cbn [finite_sf mag_sf]; try tauto.
    split; [reflexivity | lia].
Qed.

Lemma SFsub_below (x y F : spec_float) :
  valid_binary x = true -> valid_binary y = true -> valid_binary F = true ->
  finite_sf x = true -> finite_sf y = true ->
  mag_sf x + mag_sf y <= mag_sf F ->
  finite_sf (SF64sub x y) = true /\ mag_sf (SF64sub x y) <= mag_sf F.
Proof.
  intros Vx Vy VF Fx Fy Hle.
  pose proof (mag_sf_nonneg x Vx) as Nx.
  pose proof (mag_sf_nonneg y Vy) as Ny.
  destruct x as [sx|sx| |sx mx ex]; try discriminate Fx;
  destruct y as [sy|sy| |sy my ey]; try discriminate Fy.
  - destruct sx, sy; cbn in *; split; (reflexivity || lia).
  - cbn in *. split; [reflexivity | lia].
  - cbn in *. split; [reflexivity | lia].
  - cbn [valid_binary] in Vx, Vy.
    destruct (bounded_inv mx ex Vx) as (Hex & _).
    destruct (bounded_inv my ey Vy) as (Hey & _).
    cbn [mag_sf] in Hle, Nx, Ny.
    pose proof (grid_pos mx ex ltac:(lia)).
    pose proof (grid_pos my ey ltac:(lia)).
    destruct F as [sF|sF| |sF mF eF]; cbn [mag_sf] in Hle; try lia.
    cbn [valid_binary] in VF.
    pose proof (grid_combine sx sy mx my ex ey true ltac:(lia) ltac:(lia)) as HM.
    cbv beta iota zeta in HM.
    unfold SF64sub, SFsub.
    match goal with
    | |- context [binary_normalize _ _ ?M ?e _] =>
        pose proof (binary_normalize_below M e mF eF ltac:(lia) VF ltac:(lia)) as HR
    end.
    destruct (binary_normalize _ _ _ _ _); cbn [finite_sf mag_sf]; try tauto.
    split; [reflexivity | lia].
Qed.

Lemma SFmul_below (x y F : spec_float) :
  valid_binary x = true -> valid_binary y = true -> valid_binary F = true ->
  finite_sf x = true -> finite_sf y = true ->
  mag_sf x * mag_sf y <= mag_sf F * 2 ^ 2148 ->
  finite_sf (SF64mul x y) = true /\ mag_sf (SF64mul x y) <= mag_sf F.
Proof.
  intros Vx Vy VF Fx Fy Hle.
  pose proof (mag_sf_nonneg F VF) as NF.
  destruct x as [sx|sx| |sx mx ex]; try discriminate Fx;
  destruct y as [sy|sy| |sy my ey]; try discriminate Fy;
  try (cbn; split; [reflexivity | lia]).
  cbn [valid_binary] in Vx, Vy.
  destruct (bounded_inv mx ex Vx) as (Hex & Hmx & Hnx).
  destruct (bounded_inv my ey Vy) as (Hey & Hmy & Hny).
  cbn [mag_sf] in Hle.
  pose proof (grid_pos mx ex ltac:(lia)) as Px.
  pose proof (grid_pos my ey ltac:(lia)) as Py.
  assert (Hprod : grid (Zpos mx) ex * grid (Zpos my) ey =
                  grid (Zpos (mx * my)) (ex + ey) * 2 ^ 2148).
  { unfold grid. rewrite Pos2Z.inj_mul.
    replace (ex + ey + 2148) with ((ex + 1074) + (ey + 1074)) by lia.
    replace (ex + 2148) with ((ex + 1074) + 1074) by lia.
    replace (ey + 2148) with ((ey + 1074) + 1074) by lia.
    rewrite (pow2_split (ex + 1074) (ey + 1074)), (pow2_split (ex + 1074) 1074),
      (pow2_split (ey + 1074) 1074) by lia.
    change (2 ^ 2148) with (2 ^ 1074 * 2 ^ 1074). ring. }
  destruct F as [sF|sF| |sF mF eF]; cbn [mag_sf] in Hle; try nia.
  cbn [valid_binary] in VF.
  assert (Hg : grid (Zpos (mx * my)) (ex + ey) <= grid (Zpos mF) eF).
  { rewrite Hprod in Hle. apply (Z.mul_le_mono_pos_r _ _ (2 ^ 2148)); [|exact Hle].
    apply pow2_pos; lia. }
  unfold SF64mul, SFmul.
  assert (Hal : ex + ey <= fexp 53 1024 (Zpos (digits2_pos (mx * my)) + (ex + ey))).
  { rewrite fexp64.
    destruct (Z_le_gt_dec (ex + ey) (-1074)) as [|Hc]; [lia|].
    assert (Hn : 2 ^ 52 <= Zpos (mx * my)).
    { rewrite Pos2Z.inj_mul. destruct Hnx as [->|Hnx], Hny as [->|Hny]; try lia; nia. }
    pose proof (digits2_bounds (mx * my)) as [_ Hhi].
    assert (52 < Zpos (digits2_pos (mx * my))); [|lia].
    apply (Z.pow_lt_mono_r_iff 2); lia. }
  pose proof (binary_round_aux_below (xorb sx sy) (mx * my) (ex + ey) mF eF
                ltac:(lia) Hal VF Hg) as HR.
  destruct (binary_round_aux _ _ _ _ _ _); cbn [finite_sf mag_sf]; tauto.
Qed.

(** The bound, for the three operators of the filter. *)
Lemma is_finite_sf (x : float) : is_finite x = finite_sf (Prim2SF x).
Proof. rewrite DoubleFacts.is_finite_spec. now destruct (Prim2SF x). Qed.

Lemma add_below (a b F : float) :
  is_finite a = true -> is_finite b = true ->
  mag a + mag b <= mag F ->
  is_finite (a + b) = true /\ mag (a + b) <= mag F.
Proof.
  rewrite !is_finite_sf. unfold mag. rewrite add_spec.
  intros Ha Hb. apply SFadd_below; auto using Prim2SF_valid.
Qed.

Lemma sub_below (a b F : float) :
  is_finite a = true -> is_finite b = true ->
  mag a + mag b <= mag F ->
  is_finite (a - b) = true /\ mag (a - b) <= mag F.
Proof.
  rewrite !is_finite_sf. unfold mag. rewrite sub_spec.
  intros Ha Hb. apply SFsub_below; auto using Prim2SF_valid.
Qed.

Lemma mul_below (a b F : float) :
  is_finite a = true -> is_finite b = true ->
  mag a * mag b <= mag F * 2 ^ 2148 ->
  is_finite (a * b) = true /\ mag (a * b) <= mag F.
Proof.
  rewrite !is_finite_sf. unfold mag. rewrite mul_spec.
  intros Ha Hb. apply SFmul_below; auto using Prim2SF_valid.
Qed.

(** Comparing two valid positive doubles compares their magnitudes. *)
Lemma SFcompare_grid (m1 m2 : positive) (e1 e2 : Z) :
  SpecFloat.bounded 53 1024 m1 e1 = true -> SpecFloat.bounded 53 1024 m2 e2 = true ->
  SFcompare (S754_finite false m1 e1) (S754_finite false m2 e2) =
  Some (grid (Zpos m1) e1 ?= grid (Zpos m2) e2).
Proof.
  intros H1 H2.
  destruct (bounded_inv m1 e1 H1) as (He1 & Hm1 & Hn1).
  destruct (bounded_inv m2 e2 H2) as (He2 & Hm2 & Hn2).
  assert (Hlt : forall (ma mb : positive) ea eb,
             -1074 <= ea -> ea < eb -> Zpos ma < 2 ^ 53 -> 2 ^ 52 <= Zpos mb ->
             grid (Zpos ma) ea < grid (Zpos mb) eb).
  { intros ma mb ea eb Hea Hab Hma Hmb. unfold grid.
    replace (eb + 2148) with ((eb - ea - 1) + (1 + (ea + 2148))) by lia.
    rewrite (pow2_split (eb - ea - 1)), (pow2_split 1) by lia.
    pose proof (pow2_pos (eb - ea - 1) ltac:(lia)).
    pose proof (pow2_pos (ea + 2148) ltac:(lia)).
    change (2 ^ 53) with (2 ^ 52 * 2) in Hma. change (2 ^ 1) with 2.
    set (A := 2 ^ (ea + 2148)) in *. set (D := 2 ^ (eb - ea - 1)) in *.
    assert (HC : 0 < 2 ^ 52) by reflexivity.
    set (C := 2 ^ 52) in *.
    assert (Zpos ma * A < C * 2 * A) by (apply Z.mul_lt_mono_pos_r; lia).
    assert (C * 1 <= Zpos mb * D) by (apply Z.mul_le_mono_nonneg; lia).
    assert (C * 1 * (2 * A) <= Zpos mb * D * (2 * A))
      by (apply Z.mul_le_mono_nonneg_r; lia).
    lia. }
  cbn [SFcompare]. f_equal.
  destruct (Z.compare_spec e1 e2) as [->|Hc|Hc].
  - unfold grid.
    rewrite <- Zmult_compare_compat_r by (apply Z.lt_gt, pow2_pos; lia).
    reflexivity.
  - symmetry. apply Z.compare_lt_iff. apply Hlt; lia.
  - symmetry. apply Z.compare_gt_iff. apply Hlt; lia.
Qed.

(** [abs x <=? F] on doubles and [<=] on magnitudes. *)
Lemma abs_leb_bound (x F : float) :
  is_finite F = true ->
  (abs x <=? F)%float = true ->
  is_finite x = true /\ mag x <= mag F.
Proof.
  rewrite leb_spec, abs_spec, !is_finite_sf. unfold mag.
  pose proof (Prim2SF_valid x) as Vx. pose proof (Prim2SF_valid F) as VF.
  pose proof (mag_sf_nonneg _ VF) as NF.
  intros HF H.
  destruct (Prim2SF F) as [sF|sF| |sF mF eF]; try discriminate HF;
  destruct (Prim2SF x) as [sx|sx| |sx mx ex]; try discriminate H;
    cbn [SFabs finite_sf mag_sf valid_binary] in *;
    try (split; [reflexivity | lia]).
  destruct sF; [discriminate H|].
  unfold SFleb in H. rewrite (SFcompare_grid mx mF ex eF Vx VF) in H.
  split; [reflexivity|].
  destruct (Z.compare_spec (grid (Zpos mx) ex) (grid (Zpos mF) eF));
    [lia | lia | discriminate H].
Qed.

Lemma mag_leb_abs (x y : float) :
  is_finite x = true -> is_finite y = true -> mag x <= mag y ->
  (abs x <=? abs y)%float = true.
Proof.
  rewrite leb_spec, !abs_spec, !is_finite_sf. unfold mag.
  pose proof (Prim2SF_valid x) as Vx. pose proof (Prim2SF_valid y) as Vy.
  intros Hx Hy H.
  destruct (Prim2SF x) as [sx|sx| |sx mx ex]; try discriminate Hx;
  destruct (Prim2SF y) as [sy|sy| |sy my ey]; try discriminate Hy;
    cbn [SFabs mag_sf valid_binary] in *; try reflexivity.
  - destruct (bounded_inv mx ex Vx) as (He & _).
    pose proof (grid_pos mx ex ltac:(lia)). lia.
  - unfold SFleb. rewrite (SFcompare_grid mx my ex ey Vx Vy).
    destruct (Z.compare_spec (grid (Zpos mx) ex) (grid (Zpos my) ey)); try reflexivity.
    lia.
Qed.

(** Rounding overflows to the infinity of its sign once the exact value
    reaches 2^1024. *)
Lemma binary_round_aux_overflow (s : bool) (m : positive) (e : Z) :
  -2148 <= e ->
  e <= fexp 53 1024 (Zpos (digits2_pos m) + e) ->
  2 ^ (1024 + 2148) <= grid (Zpos m) e ->
  binary_round_aux 53 1024 s (Zpos m) e loc_Exact = S754_infinity s.
Proof.
  intros He Hal Hbig.
  destruct (shr_fexp_first m e Hal)
    as (mrs & e1 & E1 & Ee1 & Hee1 & He1 & Hsh & Hlt & Hnorm).
  pose proof (digits2_bounds m) as [_ Hhi].
  set (d := Zpos (digits2_pos m)) in *.
  assert (Hde : 1024 < d + e).
  { assert (H : 2 ^ (1024 + 2148) < 2 ^ (d + e + 2148)).
    { apply Z.le_lt_trans with (1 := Hbig). unfold grid.
      replace (d + e + 2148) with (d + (e + 2148)) by lia.
      rewrite (pow2_split d (e + 2148)) by lia.
      apply Z.mul_lt_mono_pos_r; [apply pow2_pos; lia | exact Hhi]. }
    apply Z.pow_lt_mono_r_iff in H; lia. }
  rewrite fexp64 in Ee1.
  assert (He1' : 972 <= e1) by lia.
  pose proof (round_nearest_even_shifted _ _ _ Hsh) as [Hm2 _].
  set (m2 := round_nearest_even (shr_m mrs) (loc_of_shr_record mrs)) in *.
  destruct Hsh as (rem & HM & Hrem & Hm1 & _).
  set (m1 := shr_m mrs) in *.
  assert (Hn : 2 ^ 52 <= m1) by (destruct Hnorm; lia).
  assert (Hb2 : 0 <= m2 <= 2 ^ 53) by lia.
  destruct (shr_fexp_second m2 e1 Hb2 He1)
    as (m3 & r3 & s3 & e3 & E2 & Hm3 & He3 & Hg & Hn3 & Hor).
  unfold binary_round_aux. rewrite E1. fold m1. fold m2. rewrite E2.
  cbn [shr_m].
  assert (H3 : 2 ^ 52 <= m3) by (apply Hn3; lia).
  destruct m3 as [|p|p]; try lia.
  change (1024 - 53) with 971.
  destruct (Z.leb_spec e3 971); [lia | reflexivity].
Qed.

Lemma binary_round_overflow (s : bool) (m : positive) (e : Z) :
  -1074 <= e ->
  2 ^ (1024 + 2148) <= grid (Zpos m) e ->
  binary_round 53 1024 s m e = S754_infinity s.
Proof.
  intros He Hbig. unfold binary_round.
  set (t := fexp 53 1024 (Zpos (digits2_pos m) + e)).
  assert (Ht : -1074 <= t) by (unfold t; rewrite fexp64; lia).
  destruct (Z_le_gt_dec e t) as [Hc|Hc].
  - assert (Es : shl_align m e t = (m, e)).
    { unfold shl_align. destruct (t - e) eqn:E; try reflexivity. lia. }
    rewrite Es. apply binary_round_aux_overflow; try assumption; lia.
  - destruct (shl_align_spec m e t ltac:(lia)) as (H1 & H2 & H3).
    destruct (shl_align m e t) as [mz ez]. cbn [fst snd] in *. subst ez.
    apply binary_round_aux_overflow; try lia.
    + rewrite H3. replace (Zpos (digits2_pos m) + (e - t) + t)
        with (Zpos (digits2_pos m) + e) by lia. fold t. lia.
    + unfold grid in *. rewrite H1.
      replace (e + 2148) with ((e - t) + (t + 2148)) in Hbig by lia.
      rewrite (pow2_split (e - t) (t + 2148)) in Hbig by lia. lia.
Qed.

(** A finite double of magnitude at least 2^1023, subtracted from its
    opposite, overflows. *)
Lemma SFsub_opp_overflow (s : bool) (m : positive) (e : Z) :
  SpecFloat.bounded 53 1024 m e = true ->
  2 ^ (1023 + 2148) <= grid (Zpos m) e ->
  SF64sub (S754_finite (negb s) m e) (S754_finite s m e) =
  S754_infinity (negb s).
Proof.
  intros V Hbig. destruct (bounded_inv m e V) as (He & _).
  assert (H2 : 2 ^ (1024 + 2148) <= grid (Zpos (m + m)) e).
  { unfold grid in *. rewrite Pos2Z.inj_add.
    change (2 ^ (1024 + 2148)) with (2 * 2 ^ (1023 + 2148)). lia. }
  unfold SF64sub, SFsub. rewrite Z.min_id.
  assert (Es : shl_align m e e = (m, e)).
  { unfold shl_align. now rewrite Z.sub_diag. }
  rewrite Es. cbn [fst].
  destruct s; cbn [negb cond_Zopp Z.opp Z.sub Z.add Z.pos_sub binary_normalize].
  - now apply binary_round_overflow.
  - now apply binary_round_overflow.
Qed.








Lemma is_infinity_sf (x : float) :
  is_infinity x = match Prim2SF x with S754_infinity _ => true | _ => false end.
Proof.
  unfold is_infinity. rewrite FloatAxioms.eqb_spec, abs_spec.
  change (Prim2SF infinity) with (S754_infinity false).
  now destruct (Prim2SF x) as [[|]|[|]| |[|] m e].
Qed.

Lemma is_zero_sf (x : float) :
  is_zero x = match Prim2SF x with S754_zero _ => true | _ => false end.
Proof.
  unfold is_zero. rewrite FloatAxioms.eqb_spec.
  change (Prim2SF zero) with (S754_zero false).
  now destruct (Prim2SF x) as [[|]|[|]| |[|] m e].
Qed.

(** Multiplying a finite nonzero double by the coefficient never rounds to
    zero: the smallest product, for the smallest subnormal, rounds back to
    that subnormal. *)
Lemma mul_coeff64_nonzero (y : float) :
  is_finite y = true -> is_zero y = false ->
  is_zero (y * coeff64)%float = false.
Proof.
  rewrite is_finite_sf, !is_zero_sf, mul_spec.
  pose proof (Prim2SF_valid y) as Vy.
  destruct (Prim2SF y) as [sy|sy| |sy my ey]; try discriminate.
  intros _ _. cbn [valid_binary] in Vy.
  destruct (bounded_inv my ey Vy) as (Hey & Hmy & Hny).
  change (Prim2SF coeff64) with (S754_finite false 9004497094964570 (-53)).
  unfold SF64mul, SFmul.
  destruct (Pos.eq_dec my 1) as [->|Hne1].
  - destruct Hny as [->|Hny].
    + now destruct sy.
    + exfalso. lia.
  - set (mc := 9004497094964570%positive).
    assert (Hmc : 2 ^ 52 <= Zpos mc < 2 ^ 53) by (unfold mc; lia).
    assert (Hmy2 : 2 <= Zpos my) by lia.
    pose proof (digits2_bounds (my * mc)) as [Hlo Hhi].
    rewrite Pos2Z.inj_mul in Hlo, Hhi.
    set (d := Zpos (digits2_pos (my * mc))) in *.
    assert (Hd : 53 < d).
    { apply (Z.pow_lt_mono_r_iff 2); [lia | lia |].
      apply Z.le_lt_trans with (2 := Hhi).
      change (2 ^ 53) with (2 * 2 ^ 52). apply Z.mul_le_mono_nonneg; lia. }
    pose proof (binary_round_aux_nonzero (xorb sy false) (my * mc) (ey + -53)) as HR.
    fold d in HR. rewrite fexp64 in HR.
    assert (Hbig : 2 ^ (Z.max (d + (ey + -53) - 53) (-1074) - (ey + -53))
                   <= Zpos (my * mc)).
    { rewrite Pos2Z.inj_mul.
      destruct (Z.max_spec (d + (ey + -53) - 53) (-1074)) as [[_ ->]|[_ ->]].
      - (* subnormal result: the shift is at most 53 bits *)
        apply Z.le_trans with (2 ^ 53).
        + apply Z.pow_le_mono_r; lia.
        + change (2 ^ 53) with (2 * 2 ^ 52). apply Z.mul_le_mono_nonneg; lia.
      - apply Z.le_trans with (2 := Hlo). apply Z.pow_le_mono_r; lia. }
    specialize (HR ltac:(lia) Hbig).
    change (binary_round_aux prec emax) with (binary_round_aux 53 1024).
    set (r := binary_round_aux 53 1024 (xorb sy false) (Zpos (my * mc))
                (ey + -53) loc_Exact) in *.
    clearbody r. destruct r; [contradiction | reflexivity | reflexivity | reflexivity].
Qed.

End Rounding.

(** ** The filter on doubles *)

Module DoubleFilter.

Import Double DoubleFacts Magnitude.

Local Open Scope float_scope.

(** The filtering branch, with the operators of doubles. *)
Lemma calculate_double (x : float) (d : dcblocker float) :
  bypass d = false ->
  calculate x d =
  (x - x_1 d + y_1 d * coeff64,
   {| x_1 := x; y_1 := x - x_1 d + y_1 d * coeff64; bypass := false |}).
Proof. intros Hb. now rewrite (calculate_filtering x d Hb). Qed.

(** The first filtered sample after [clear]. *)
Lemma first_after_clear (x : float) (d : dcblocker float) :
  bypass d = false ->
  fst (calculate x (clear d)) = if Leibniz.eqb x neg_zero then 0 else x.
Proof.
  intros Hb. rewrite calculate_double by exact Hb.
  cbn [fst x_1 y_1 clear lit_0_0 binary64].
  change (0 * coeff64) with 0. rewrite sub_zero_r.
  destruct (Leibniz.eqb x neg_zero) eqn:E.
  - apply Leibniz.eqb_spec in E. subst x. reflexivity.
  - apply add_zero_r. intros ->. discriminate E.
Qed.

(** Once the output history is NaN it stays NaN, and so does every filtered
    output. *)
Lemma poisoned_output (x : float) (d : dcblocker float) :
  y_1 d = nan -> bypass d = false -> fst (calculate x d) = nan.
Proof.
  intros Hy Hb. rewrite calculate_double by exact Hb. cbn [fst].
  rewrite Hy. change (nan * coeff64) with nan. apply add_nan_r.
Qed.

Lemma poisoned_calculate (x : float) (d : dcblocker float) :
  y_1 d = nan -> y_1 (snd (calculate x d)) = nan.
Proof.
  intros Hy. destruct (bypass d) eqn:Hb.
  - now rewrite calculate_bypassed.
  - rewrite calculate_double by exact Hb. cbn [snd y_1].
    rewrite Hy. change (nan * coeff64) with nan. apply add_nan_r.
Qed.

Lemma poisoned_drive (cs : list (call float)) :
  forall d : dcblocker float,
    forallb (fun c => negb (is_clear c)) cs = true ->
    y_1 d = nan -> y_1 (snd (drive cs d)) = nan.
Proof.
  induction cs as [|c cs IH]; intros d Hcs Hy; simpl in *.
  - exact Hy.
  - apply andb_prop in Hcs. destruct Hcs as [Hc Hcs].
    destruct c as [x|flag|]; simpl in Hc.
    + pose proof (poisoned_calculate x d Hy) as Hy'.
      destruct (calculate x d) as [y d']. simpl in Hy'.
      specialize (IH d' Hcs Hy').
      now destruct (drive cs d').
    + now apply IH.
    + discriminate Hc.
Qed.

Lemma nan_poisons (d : dcblocker float) :
  bypass d = false ->
  fst (calculate nan d) = nan /\ y_1 (snd (calculate nan d)) = nan.
Proof.
  intros Hb. rewrite calculate_double by exact Hb. cbn [fst snd y_1].
  rewrite sub_nan_l, add_nan_l. now split.
Qed.

(** The answer to a constant: the object after the first sample and after
    each further one. *)
Lemma step_state (c : float) (n : nat) :
  x_1 (after (fun _ => c) (S n) zeroed) = c /\
  y_1 (after (fun _ => c) (S n) zeroed) = step_response c n /\
  bypass (after (fun _ => c) (S n) zeroed) = false.
Proof.
  unfold step_response, output.
  assert (Hb : forall k, bypass (after (fun _ => c) k zeroed) = false).
  { induction k as [|k IH]; [reflexivity|].
    simpl. now rewrite calculate_keeps_flag. }
  cbn [after]. rewrite (calculate_double c _ (Hb n)). cbn [fst snd x_1 y_1 bypass].
  repeat split.
Qed.

Lemma stuck_at_DBL_TRUE_MIN (n : nat) : step_response DBL_TRUE_MIN n = DBL_TRUE_MIN.
Proof.
  induction n as [|n IH].
  - reflexivity.
  - unfold step_response, output.
    destruct (step_state DBL_TRUE_MIN n) as (Hx & Hy & Hb).
    rewrite (calculate_double _ _ Hb). cbn [fst].
    rewrite Hx, Hy, IH. reflexivity.
Qed.

(** The answer to a constant obeys the recurrence of the code: the input
    history cancels the input. *)
Lemma step_recurrence (c : float) (n : nat) :
  is_finite c = true ->
  step_response c (S n) = 0 + step_response c n * coeff64.
Proof.
  intros Hc.
  destruct (step_state c n) as (Hx & Hy & Hb).
  unfold step_response at 1. unfold output.
  rewrite (calculate_double _ _ Hb). cbn [fst].
  rewrite Hx, Hy. now rewrite sub_diag.
Qed.

(** The constants of the bound fit together: [2 * 2^1010], added to
    [0.9997 * 2^1023], stays within [2^1023]. *)
Lemma bounds_fit :
  (mag input_bound + mag input_bound <= mag (input_bound + input_bound) /\
   mag history_bound * mag coeff64 = mag (history_bound * coeff64) * 2 ^ 2148 /\
   mag (input_bound + input_bound) + mag (history_bound * coeff64)
     <= mag history_bound /\
   0 <= mag coeff64 <= 2 ^ 2148 /\
   mag 0 = 0)%Z.
Proof.
  split; [|split; [|split; [|split; [split|]]]].
  - apply Z.leb_le. vm_compute. reflexivity.
  - apply Z.eqb_eq. vm_compute. reflexivity.
  - apply Z.leb_le. vm_compute. reflexivity.
  - apply Z.leb_le. vm_compute. reflexivity.
  - apply Z.leb_le. vm_compute. reflexivity.
  - reflexivity.
Qed.

Lemma tame_clear (d : dcblocker float) : tame (clear d).
Proof.
  unfold tame, clear. cbn [x_1 y_1 lit_0_0 binary64].
  destruct bounds_fit as (_ & _ & _ & _ & ->).
  repeat split; try reflexivity; apply Z.leb_le; vm_compute; reflexivity.
Qed.

(** One call on an object within the bounds, with a sample in range: the
    output is finite and the object stays within the bounds. *)
Lemma calculate_tame (x : float) (d : dcblocker float) :
  tame d -> in_range x = true ->
  is_finite (fst (calculate x d)) = true /\ tame (snd (calculate x d)).
Proof.
  intros (Fx & Mx & Fy & My) Hx.
  destruct (Rounding.abs_leb_bound x input_bound eq_refl Hx) as [Fin Min].
  destruct bounds_fit as (H2 & Hc & Hsum & [Hc0 Hc1] & _).
  destruct (bypass d) eqn:Hb.
  - rewrite calculate_bypassed by exact Hb. cbn [fst snd].
    split; [exact Fin | repeat split; assumption].
  - rewrite calculate_double by exact Hb. cbn [fst snd].
    destruct (Rounding.sub_below x (x_1 d) (input_bound + input_bound) Fin Fx)
      as [F1 M1]; [lia|].
    destruct (Rounding.mul_below (y_1 d) coeff64 (history_bound * coeff64) Fy eq_refl)
      as [F2 M2].
    { rewrite <- Hc. now apply Z.mul_le_mono_nonneg_r. }
    destruct (Rounding.add_below (x - x_1 d) (y_1 d * coeff64) history_bound F1 F2)
      as [F3 M3]; [lia|].
    split; [exact F3|]. unfold tame. cbn [x_1 y_1]. repeat split; assumption.
Qed.

Lemma perform_tame (xs : list float) :
  forall d : dcblocker float,
    tame d -> forallb in_range xs = true ->
    forallb is_finite (fst (perform xs d)) = true.
Proof.
  induction xs as [|x xs IH]; intros d Hd Hxs; simpl in *.
  - reflexivity.
  - apply andb_prop in Hxs. destruct Hxs as [Hx Hxs].
    destruct (calculate_tame x d Hd Hx) as [Fy Hd'].
    destruct (calculate x d) as [y d']. cbn [fst snd] in *.
    specialize (IH d' Hd' Hxs).
    destruct (perform xs d') as [ys d'']. cbn [fst forallb] in *.
    now rewrite Fy, IH.
Qed.

Lemma drive_tame (cs : list (call float)) :
  forall d : dcblocker float,
    tame d -> forallb call_in_range cs = true ->
    forallb is_finite (fst (drive cs d)) = true.
Proof.
  induction cs as [|c cs IH]; intros d Hd Hcs; simpl in *.
  - reflexivity.
  - apply andb_prop in Hcs. destruct Hcs as [Hc Hcs].
    destruct c as [x|flag|]; cbn [call_in_range] in Hc.
    + destruct (calculate_tame x d Hd Hc) as [Fy Hd'].
      destruct (calculate x d) as [y d']. cbn [fst snd] in *.
      specialize (IH d' Hd' Hcs).
      destruct (drive cs d') as [ys d'']. cbn [fst forallb] in *.
      now rewrite Fy, IH.
    + apply IH; [exact Hd | exact Hcs].
    + apply IH; [apply tame_clear | exact Hcs].
Qed.

(** The answer to a finite constant never grows in magnitude. *)
Lemma step_shrinks (c : float) :
  is_finite c = true ->
  forall n,
    is_finite (step_response c n) = true /\
    (abs (step_response c (S n)) <=? abs (step_response c n)) = true.
Proof.
  intros Hc.
  destruct bounds_fit as (_ & _ & _ & [Hc0 Hc1] & H0).
  assert (Hstep : forall n, is_finite (step_response c n) = true ->
            is_finite (step_response c (S n)) = true /\
            (mag (step_response c (S n)) <= mag (step_response c n))%Z).
  { intros n Hn. rewrite (step_recurrence c n Hc).
    pose proof (Rounding.mag_sf_nonneg _ (Prim2SF_valid (step_response c n))) as Hpos.
    fold (mag (step_response c n)) in Hpos.
    destruct (Rounding.mul_below (step_response c n) coeff64 (step_response c n)
                Hn eq_refl) as [F2 M2].
    { now apply Z.mul_le_mono_nonneg_l. }
    apply Rounding.add_below; [reflexivity | exact F2 | lia]. }
  assert (Hfin : forall n, is_finite (step_response c n) = true).
  { induction n as [|n IH].
    - unfold step_response, output, zeroed. cbn [after].
      rewrite first_after_clear by reflexivity.
      now destruct (Leibniz.eqb c neg_zero).
    - now apply Hstep. }
  intros n. split; [apply Hfin|].
  destruct (Hstep n (Hfin n)) as [F M].
  now apply Rounding.mag_leb_abs.
Qed.

(** The answer to a finite nonzero constant is the plain recurrence, and it
    never reaches zero. *)
Lemma step_never_zero (c : float) :
  is_finite c = true -> is_zero c = false ->
  forall n,
    is_zero (step_response c n) = false /\
    step_response c (S n) = step_response c n * coeff64.
Proof.
  intros Hc Hnz.
  assert (Hmul : forall n, is_zero (step_response c n) = false ->
            step_response c (S n) = step_response c n * coeff64 /\
            is_zero (step_response c (S n)) = false).
  { intros n Hn.
    destruct (step_shrinks c Hc n) as [Hfin _].
    pose proof (Rounding.mul_coeff64_nonzero _ Hfin Hn) as Hp.
    rewrite (step_recurrence c n Hc), add_zero_l.
    - now split.
    - intros E. rewrite E in Hp. discriminate Hp. }
  assert (Hall : forall n, is_zero (step_response c n) = false).
  { induction n as [|n IH].
    - unfold step_response, output, zeroed. cbn [after].
      rewrite first_after_clear by reflexivity.
      destruct (Leibniz.eqb c neg_zero) eqn:E; [|exact Hnz].
      apply Leibniz.eqb_spec in E. subst c. discriminate Hnz.
    - now apply Hmul. }
  intros n. split; [apply Hall | now apply Hmul].
Qed.

(** While the input is held at a finite constant, each output is the
    previous one times the coefficient, added to the +0.0 that the input
    difference leaves; its magnitude never grows. *)
Lemma hold_recurrence (c : float) (d : dcblocker float) (n : nat) :
  bypass d = false -> is_finite c = true ->
  output (fun _ => c) (S n) d = 0 + output (fun _ => c) n d * coeff64.
Proof.
  intros Hb Hc. rewrite (output_step (fun _ => c) n d Hb).
  cbn [s_add s_sub s_mul lit_0_9997 binary64]. now rewrite sub_diag.
Qed.

Lemma hold_shrinks (c : float) (d : dcblocker float) :
  bypass d = false -> is_finite c = true ->
  is_finite (output (fun _ => c) 0 d) = true ->
  forall n,
    is_finite (output (fun _ => c) n d) = true /\
    (abs (output (fun _ => c) (S n) d) <=? abs (output (fun _ => c) n d)) = true.
Proof.
  intros Hb Hc H0.
  destruct bounds_fit as (_ & _ & _ & [Hc0 Hc1] & Hz).
  assert (Hstep : forall n, is_finite (output (fun _ => c) n d) = true ->
            is_finite (output (fun _ => c) (S n) d) = true /\
            (mag (output (fun _ => c) (S n) d) <= mag (output (fun _ => c) n d))%Z).
  { intros n Hn. rewrite (hold_recurrence c d n Hb Hc).
    pose proof (Rounding.mag_sf_nonneg _
                  (Prim2SF_valid (output (fun _ => c) n d))) as Hpos.
    fold (mag (output (fun _ => c) n d)) in Hpos.
    destruct (Rounding.mul_below (output (fun _ => c) n d) coeff64
                (output (fun _ => c) n d) Hn eq_refl) as [F2 M2].
    { now apply Z.mul_le_mono_nonneg_l. }
    apply Rounding.add_below; [reflexivity | exact F2 | lia]. }
  assert (Hfin : forall n, is_finite (output (fun _ => c) n d) = true).
  { induction n as [|n IH]; [exact H0 | now apply Hstep]. }
  intros n. split; [apply Hfin|].
  destruct (Hstep n (Hfin n)) as [F M].
  now apply Rounding.mag_leb_abs.
Qed.

(** Silence through a zeroed filter leaves it zeroed. *)
Lemma perform_silence (m : nat) :
  perform (repeat 0 m) zeroed = (repeat 0 m, zeroed).
Proof.
  induction m as [|m IH]; [reflexivity|].
  cbn [repeat perform].
  change (calculate 0 zeroed) with (0, zeroed). cbv beta iota.
  now rewrite IH.
Qed.


(** Two opposite samples of magnitude 2^1023 or more overflow, and a third
    turns the infinity into NaN. *)
Lemma opposite_peaks (x : float) (d : dcblocker float) :
  bypass d = false ->
  is_finite x = true ->
  (history_bound <=? abs x) = true ->
  fst (perform [x; - x; x] (clear d)) =
    [x; if x <? 0 then infinity else neg_infinity; nan].
Proof.
  intros Hb Hfin Hbig.
  (* the magnitude, on the grid *)
  assert (Hmag : (mag history_bound <= mag x)%Z).
  { change history_bound with (abs history_bound) in Hbig.
    assert (Hfa : is_finite (abs x) = true).
    { rewrite Rounding.is_finite_sf, abs_spec.
      rewrite Rounding.is_finite_sf in Hfin.
      now destruct (Prim2SF x). }
    destruct (Rounding.abs_leb_bound history_bound (abs x) Hfa Hbig) as [_ H].
    unfold mag in H. rewrite abs_spec in H. unfold mag.
    now destruct (Prim2SF x). }
  pose proof (Prim2SF_valid x) as V.
  rewrite Rounding.is_finite_sf in Hfin.
  unfold mag in Hmag.
  destruct (Prim2SF x) as [sx|sx| |s m e] eqn:E; try discriminate Hfin.
  { exfalso. revert Hmag. cbn [mag_sf]. apply Z.lt_nge. reflexivity. }
  cbn [valid_binary mag_sf] in V, Hmag.
  change (mag_sf (Prim2SF history_bound)) with (2 ^ (1023 + 2148))%Z in Hmag.
  (* the three calls *)
  cbn [perform].
  rewrite (calculate_double x (clear d)) by exact Hb.
  rewrite calculate_double by reflexivity.
  rewrite calculate_double by reflexivity.
  cbn [fst snd x_1 y_1 clear lit_0_0 binary64].
  change (0 * coeff64) with 0. rewrite sub_zero_r, add_zero_r.
  2:{ intros ->. discriminate E. }
  assert (Hprod : finite_sf (SF64mul (S754_finite s m e) (Prim2SF coeff64)) = true).
  { apply (Rounding.SFmul_below (S754_finite s m e) (Prim2SF coeff64)
             (S754_finite s m e)); try exact V; try reflexivity.
    cbn [mag_sf]. apply Z.mul_le_mono_nonneg_l.
    - pose proof (Rounding.grid_pos m e) as Hp.
      destruct (Rounding.bounded_inv m e V) as (He & _). lia.
    - apply Z.leb_le. vm_compute. reflexivity. }
  assert (E2 : Prim2SF (- x - x + x * coeff64) = S754_infinity (negb s)).
  { rewrite add_spec, sub_spec, mul_spec, opp_spec, E. cbn [SFopp].
    rewrite (Rounding.SFsub_opp_overflow s m e V Hmag).
    now destruct (SF64mul (S754_finite s m e) (Prim2SF coeff64)), s. }
  assert (Hlt : (x <? 0) = s).
  { rewrite ltb_spec, E. now destruct s. }
  f_equal. f_equal.
  - apply Prim2SF_inj. rewrite E2, Hlt. now destruct s.
  - f_equal. apply Prim2SF_inj.
    rewrite add_spec, sub_spec, mul_spec, opp_spec, E2, E. cbn [SFopp].
    pose proof (Rounding.SFsub_opp_overflow (negb s) m e V Hmag) as H.
    rewrite negb_involutive in H. rewrite H. now destruct s.
Qed.

(** An infinite sample into a cleared filter comes out as it is; the next
    filtered output is NaN whatever finite sample follows. *)
Lemma infinite_then_nan (i x : float) (d : dcblocker float) :
  bypass d = false ->
  is_infinity i = true ->
  is_finite x = true ->
  fst (perform [i; x] (clear d)) = [i; nan].
Proof.
  intros Hb Hi Hx.
  rewrite Rounding.is_infinity_sf in Hi. rewrite Rounding.is_finite_sf in Hx.
  cbn [perform].
  rewrite (calculate_double i (clear d)) by exact Hb.
  rewrite calculate_double by reflexivity.
  cbn [fst snd x_1 y_1 clear lit_0_0 binary64].
  change (0 * coeff64) with 0. rewrite sub_zero_r, add_zero_r.
  2:{ intros ->. discriminate Hi. }
  f_equal. f_equal. apply Prim2SF_inj.
  rewrite add_spec, sub_spec, mul_spec.
  change (Prim2SF coeff64) with (S754_finite false 9004497094964570 (-53)).
  destruct (Prim2SF i) as [si|si| |si mi ei]; try discriminate Hi.
  destruct (Prim2SF x) as [sx|sx| |sx mx ex]; try discriminate Hx;
    now destruct si.
Qed.

End DoubleFilter.

(** ** The error of rounding

    Rounding to nearest is off by at most half the spacing of the doubles
    around the result: 2^-53 of the exact value, or half the spacing of the
    subnormals. *)

Module RoundingError.

Import Magnitude Rounding.

Local Open Scope Z_scope.

Lemma shr_1_located (M0 k : Z) (mrs : shr_record) :
  0 <= k -> located M0 k mrs -> located M0 (k + 1) (shr_1 mrs).
Proof.
  intros Hk (rem & HM & Hrem & Hm & Hloc).
  destruct mrs as [m r s]. unfold located. cbn [shr_m shr_r shr_s] in *.
  rewrite Z.pow_add_r, Z.pow_1_r by lia.
  assert (Hp : 0 < 2 ^ k) by (apply Z.pow_pos_nonneg; lia).
  destruct m as [|[p|p|]|p]; cbn [shr_1 shr_m shr_r shr_s]; try lia.
  - exists rem. split; [lia|]. split; [lia|]. split; [lia|].
    destruct r, s; cbn [orb]; lia.
  - exists (2 ^ k + rem). split; [lia|]. split; [lia|]. split; [lia|].
    destruct r, s; cbn [orb]; lia.
  - exists rem. split; [lia|]. split; [lia|]. split; [lia|].
    destruct r, s; cbn [orb]; lia.
  - exists (2 ^ k + rem). split; [lia|]. split; [lia|]. split; [lia|].
    destruct r, s; cbn [orb]; lia.
Qed.

Lemma iter_shr_1_located (M0 : Z) (p : positive) :
  forall (k : Z) (mrs : shr_record),
    0 <= k -> located M0 k mrs ->
    located M0 (k + Zpos p) (SpecFloat.iter_pos shr_1 p mrs).
Proof.
  induction p as [p IH|p IH|]; intros k mrs Hk H; cbn [SpecFloat.iter_pos].
  - replace (k + Zpos p~1) with (k + 1 + Zpos p + Zpos p) by lia.
    apply IH; [lia|]. apply IH; [lia|]. now apply shr_1_located.
  - replace (k + Zpos p~0) with (k + Zpos p + Zpos p) by lia.
    apply IH; [lia|]. now apply IH.
  - now apply shr_1_located.
Qed.

Lemma shr_fexp_located (m : positive) (e : Z) (mrs : shr_record) (e1 : Z) :
  shr_fexp 53 1024 (Zpos m) e loc_Exact = (mrs, e1) ->
  e <= e1 ->
  located (Zpos m) (e1 - e) mrs.
Proof.
  unfold shr_fexp. cbn [Zdigits2 shr_record_of_loc].
  set (t := fexp 53 1024 (Zpos (digits2_pos m) + e)).
  assert (H0 : located (Zpos m) 0 {| shr_m := Zpos m; shr_r := false; shr_s := false |}).
  { exists 0. cbn. repeat split; lia. }
  unfold shr. destruct (t - e) as [|p|p] eqn:E; intros H He; inversion H; subst.
  - now rewrite Z.sub_diag.
  - replace (e + Zpos p - e) with (0 + Zpos p) by lia.
    now apply iter_shr_1_located.
  - now rewrite Z.sub_diag.
Qed.

Lemma round_nearest_even_located (M0 k : Z) (mrs : shr_record) :
  located M0 k mrs ->
  2 * Z.abs (round_nearest_even (shr_m mrs) (loc_of_shr_record mrs) * 2 ^ k - M0)
    <= 2 ^ k.
Proof.
  intros (rem & HM & Hrem & Hm & Hloc). destruct mrs as [m r s].
  cbn [shr_m shr_r shr_s loc_of_shr_record] in *.
  destruct r, s; cbn [round_nearest_even]; try lia.
  destruct (Z.even m); lia.
Qed.

(** The error of rounding to nearest: at most 2^-53 of the exact value, or
    half the spacing of the subnormal numbers. *)
Lemma binary_round_aux_error (s : bool) (m : positive) (e : Z) :
  -2148 <= e ->
  e <= fexp 53 1024 (Zpos (digits2_pos m) + e) ->
  match binary_round_aux 53 1024 s (Zpos m) e loc_Exact with
  | S754_zero _ => 2 * grid (Zpos m) e <= 2 ^ 1074
  | S754_finite s' m' e' =>
      s' = s /\
      2 ^ 53 * Z.abs (grid (Zpos m') e' - grid (Zpos m) e) <=
      grid (Zpos m) e + 2 ^ 1126
  | _ => True
  end.
Proof.
  intros He Hal.
  destruct (shr_fexp_first m e Hal)
    as (mrs & e1 & E1 & _ & Hee1 & He1 & Hsh & Hlt & Hnorm).
  pose proof (shr_fexp_located m e mrs e1 E1 Hee1) as Hloc.
  pose proof (round_nearest_even_located _ _ _ Hloc) as Herr.
  pose proof (round_nearest_even_shifted _ _ _ Hsh) as [Hm2 _].
  set (m2 := round_nearest_even (shr_m mrs) (loc_of_shr_record mrs)) in *.
  destruct Hsh as (rem & HM & Hrem & Hm1 & _).
  set (m1 := shr_m mrs) in *.
  pose proof (pow2_pos (e + 2148) ltac:(lia)) as HA.
  pose proof (pow2_pos (e1 - e) ltac:(lia)) as HK.
  assert (HKA : 2 ^ (e1 + 2148) = 2 ^ (e1 - e) * 2 ^ (e + 2148)).
  { rewrite <- pow2_split by lia. f_equal. lia. }
  (* the error of the rounded mantissa, on the grid *)
  assert (Hg2 : 2 * Z.abs (grid m2 e1 - grid (Zpos m) e) <= 2 ^ (e1 + 2148)).
  { unfold grid. rewrite HKA.
    set (A := 2 ^ (e + 2148)) in *. set (K := 2 ^ (e1 - e)) in *.
    replace (m2 * (K * A) - Zpos m * A) with ((m2 * K - Zpos m) * A) by ring.
    rewrite Z.abs_mul, (Z.abs_eq A) by lia. nia. }
  assert (Hrel : 2 ^ 53 * Z.abs (grid m2 e1 - grid (Zpos m) e) <=
                 grid (Zpos m) e + 2 ^ 1126).
  { destruct Hnorm as [->|Hn].
    - change (2 ^ (-1074 + 2148)) with (2 ^ 1074) in Hg2.
      change (2 ^ 1126) with (2 ^ 52 * 2 ^ 1074).
      change (2 ^ 53) with (2 ^ 52 * 2).
      pose proof (grid_pos m e He).
      assert (0 < 2 ^ 52) by reflexivity.
      set (C := 2 ^ 52) in *. set (T := 2 ^ 1074) in *.
      set (X := Z.abs _) in *. nia.
    - assert (Hv : 2 ^ 52 * 2 ^ (e1 + 2148) <= grid (Zpos m) e).
      { unfold grid. rewrite HKA.
        set (A := 2 ^ (e + 2148)) in *. set (K := 2 ^ (e1 - e)) in *.
        assert (0 < 2 ^ 52) by reflexivity.
        set (C := 2 ^ 52) in *.
        assert (C * K <= Zpos m) by nia.
        replace (C * (K * A)) with (C * K * A) by ring.
        apply Z.mul_le_mono_nonneg_r; lia. }
      change (2 ^ 53) with (2 ^ 52 * 2).
      assert (0 < 2 ^ 52) by reflexivity.
      assert (0 < 2 ^ 1126) by reflexivity.
      set (C := 2 ^ 52) in *. set (T := 2 ^ (e1 + 2148)) in *.
      set (X := Z.abs _) in *. set (Q := 2 ^ 1126) in *. nia. }
  assert (Hb2 : 0 <= m2 <= 2 ^ 53) by lia.
  destruct (shr_fexp_second m2 e1 Hb2 He1)
    as (m3 & r3 & s3 & e3 & E2 & Hm3 & He3 & Hg & Hn3 & Hor).
  unfold binary_round_aux. rewrite E1. fold m1. fold m2. rewrite E2.
  cbn [shr_m].
  destruct m3 as [|p|p]; [| |lia].
  - (* rounded to zero *)
    assert (Hz : grid m2 e1 = 0) by (rewrite <- Hg; unfold grid; lia).
    rewrite Hz in Hg2. rewrite Z.sub_0_l, Z.abs_opp in Hg2.
    pose proof (grid_pos m e He).
    rewrite Z.abs_eq in Hg2 by lia.
    assert (m2 = 0).
    { unfold grid in Hz. pose proof (pow2_pos (e1 + 2148) ltac:(lia)). nia. }
    destruct Hnorm as [->|Hn]; [exact Hg2 | lia].
  - destruct (Z.leb e3 (1024 - 53)); [|exact I].
    split; [reflexivity|]. now rewrite Hg.
Qed.

Lemma binary_round_error (s : bool) (m : positive) (e : Z) :
  -1074 <= e ->
  match binary_round 53 1024 s m e with
  | S754_zero _ => 2 * grid (Zpos m) e <= 2 ^ 1074
  | S754_finite s' m' e' =>
      s' = s /\
      2 ^ 53 * Z.abs (grid (Zpos m') e' - grid (Zpos m) e) <=
      grid (Zpos m) e + 2 ^ 1126
  | _ => True
  end.
Proof.
  intros He. unfold binary_round.
  set (t := fexp 53 1024 (Zpos (digits2_pos m) + e)).
  assert (Ht : -1074 <= t) by (unfold t; rewrite fexp64; lia).
  destruct (Z_le_gt_dec e t) as [Hc|Hc].
  - assert (Es : shl_align m e t = (m, e)).
    { unfold shl_align. destruct (t - e) eqn:E; try reflexivity. lia. }
    rewrite Es. apply binary_round_aux_error; [lia | assumption].
  - destruct (shl_align_spec m e t ltac:(lia)) as (H1 & H2 & H3).
    pose proof (grid_align m e t ltac:(lia)) as Hg.
    destruct (shl_align m e t) as [mz ez]. cbn [fst snd] in *. subst ez.
    rewrite <- Hg.
    apply binary_round_aux_error; [lia|].
    rewrite H3. replace (Zpos (digits2_pos m) + (e - t) + t)
      with (Zpos (digits2_pos m) + e) by lia. fold t. lia.
Qed.

(** [binary_normalize]: the signed value of the result against the exact
    signed value [M * 2^e]. *)
Lemma binary_normalize_error (M e : Z) :
  -1074 <= e ->
  match binary_normalize 53 1024 M e false with
  | S754_infinity _ | S754_nan => True
  | r => 2 ^ 53 * Z.abs (sgrid_sf r - grid M e) <= Z.abs (grid M e) + 2 ^ 1126
  end.
Proof.
  intros He. unfold binary_normalize.
  destruct M as [|p|p].
  - cbn. lia.
  - pose proof (binary_round_error false p e He) as H.
    pose proof (grid_pos p e ltac:(lia)) as Hp.
    destruct (binary_round 53 1024 false p e) as [s'|s'| |s' m' e'];
      try exact I; cbn [sgrid_sf].
    + rewrite Z.sub_0_l, Z.abs_opp. rewrite !Z.abs_eq by lia.
      change (2 ^ 1126) with (2 ^ 52 * 2 ^ 1074).
      change (2 ^ 53) with (2 ^ 52 * 2). lia.
    + destruct H as [-> H]. cbn [cond_Zopp]. rewrite (Z.abs_eq (grid _ e)) by lia.
      exact H.
  - pose proof (binary_round_error true p e He) as H.
    pose proof (grid_pos p e ltac:(lia)) as Hp.
    assert (Hneg : grid (Z.neg p) e = - grid (Zpos p) e).
    { unfold grid. lia. }
    rewrite Hneg.
    destruct (binary_round 53 1024 true p e) as [s'|s'| |s' m' e'];
      try exact I; cbn [sgrid_sf].
    + change (2 ^ 1126) with (2 ^ 52 * 2 ^ 1074).
      change (2 ^ 53) with (2 ^ 52 * 2). lia.
    + destruct H as [-> H]. cbn [cond_Zopp].
      rewrite Z.abs_opp, (Z.abs_eq (grid _ e)) by lia.
      replace (- grid (Z.pos m') e' - - grid (Z.pos p) e)
        with (- (grid (Z.pos m') e' - grid (Z.pos p) e)) by lia.
      rewrite Z.abs_opp. exact H.
Qed.

Lemma sgrid_align (s : bool) (m : positive) (e e' : Z) :
  -1074 <= e' <= e ->
  grid (cond_Zopp s (Zpos (fst (shl_align m e e')))) e' =
  cond_Zopp s (grid (Zpos m) e).
Proof.
  intros H. rewrite <- (grid_align m e e' H).
  unfold grid. destruct s; cbn [cond_Zopp]; lia.
Qed.

Lemma grid_plus (a b e : Z) : grid (a + b) e = grid a e + grid b e.
Proof. unfold grid. ring. Qed.

Lemma grid_minus (a b e : Z) : grid (a - b) e = grid a e - grid b e.
Proof. unfold grid. ring. Qed.

(** The three operators: when the operands are finite and the result is
    finite, it is the exact result up to 2^-53 of its magnitude, or half the
    spacing of the subnormals. *)
Lemma SFadd_error (x y : spec_float) :
  valid_binary x = true -> valid_binary y = true ->
  finite_sf x = true -> finite_sf y = true ->
  finite_sf (SF64add x y) = true ->
  2 ^ 53 * Z.abs (sgrid_sf (SF64add x y) - (sgrid_sf x + sgrid_sf y)) <=
  Z.abs (sgrid_sf x + sgrid_sf y) + 2 ^ 1126.
Proof.
  intros Vx Vy Fx Fy.
  destruct x as [sx|sx| |sx mx ex]; try discriminate Fx;
  destruct y as [sy|sy| |sy my ey]; try discriminate Fy.
  - intros _. destruct sx, sy; cbn; lia.
  - intros _. cbn [SF64add SFadd sgrid_sf]. unfold SF64add, SFadd. cbn [sgrid_sf].
    replace (_ - _) with 0 by lia. cbn. lia.
  - intros _. unfold SF64add, SFadd. cbn [sgrid_sf].
    replace (_ - _) with 0 by lia. cbn. lia.
  - cbn [valid_binary] in Vx, Vy.
    destruct (bounded_inv mx ex Vx) as (Hex & _).
    destruct (bounded_inv my ey Vy) as (Hey & _).
    unfold SF64add, SFadd. cbn [sgrid_sf].
    set (ez := Z.min ex ey).
    rewrite <- (sgrid_align sx mx ex ez), <- (sgrid_align sy my ey ez)
      by (unfold ez; lia).
    rewrite <- grid_plus.
    match goal with
    | |- context [binary_normalize _ _ ?M ?e _] =>
        pose proof (binary_normalize_error M e ltac:(unfold ez; lia)) as HR;
        change (binary_normalize prec emax M e false)
          with (binary_normalize 53 1024 M e false);
        destruct (binary_normalize 53 1024 M e false)
    end; try discriminate; intros _; exact HR.
Qed.

Lemma SFsub_error (x y : spec_float) :
  valid_binary x = true -> valid_binary y = true ->
  finite_sf x = true -> finite_sf y = true ->
  finite_sf (SF64sub x y) = true ->
  2 ^ 53 * Z.abs (sgrid_sf (SF64sub x y) - (sgrid_sf x - sgrid_sf y)) <=
  Z.abs (sgrid_sf x - sgrid_sf y) + 2 ^ 1126.
Proof.
  intros Vx Vy Fx Fy.
  destruct x as [sx|sx| |sx mx ex]; try discriminate Fx;
  destruct y as [sy|sy| |sy my ey]; try discriminate Fy.
  - intros _. destruct sx, sy; cbn; lia.
  - intros _. unfold SF64sub, SFsub. cbn [sgrid_sf].
    replace (cond_Zopp (negb sy) (grid (Z.pos my) ey) - (0 - cond_Zopp sy (grid (Z.pos my) ey)))
      with 0 by (destruct sy; cbn [negb cond_Zopp]; lia).
    cbn. lia.
  - intros _. unfold SF64sub, SFsub. cbn [sgrid_sf].
    replace (_ - _) with 0 by lia. cbn. lia.
  - cbn [valid_binary] in Vx, Vy.
    destruct (bounded_inv mx ex Vx) as (Hex & _).
    destruct (bounded_inv my ey Vy) as (Hey & _).
    unfold SF64sub, SFsub. cbn [sgrid_sf].
    set (ez := Z.min ex ey).
    rewrite <- (sgrid_align sx mx ex ez), <- (sgrid_align sy my ey ez)
      by (unfold ez; lia).
    rewrite <- grid_minus.
    match goal with
    | |- context [binary_normalize _ _ ?M ?e _] =>
        pose proof (binary_normalize_error M e ltac:(unfold ez; lia)) as HR;
        change (binary_normalize prec emax M e false)
          with (binary_normalize 53 1024 M e false);
        destruct (binary_normalize 53 1024 M e false)
    end; try discriminate; intros _; exact HR.
Qed.

Lemma SFmul_error (x y : spec_float) :
  valid_binary x = true -> valid_binary y = true ->
  finite_sf x = true -> finite_sf y = true ->
  finite_sf (SF64mul x y) = true ->
  2 ^ 53 * Z.abs (sgrid_sf (SF64mul x y) * 2 ^ 2148 - sgrid_sf x * sgrid_sf y) <=
  Z.abs (sgrid_sf x * sgrid_sf y) + 2 ^ 1126 * 2 ^ 2148.
Proof.
  intros Vx Vy Fx Fy.
  destruct x as [sx|sx| |sx mx ex]; try discriminate Fx;
  destruct y as [sy|sy| |sy my ey]; try discriminate Fy;
    try (intros _; cbn [SF64mul SFmul sgrid_sf]; unfold SF64mul, SFmul;
         cbn [sgrid_sf]; rewrite ?Z.mul_0_l, ?Z.mul_0_r; cbn; lia).
  cbn [valid_binary] in Vx, Vy.
  destruct (bounded_inv mx ex Vx) as (Hex & Hmx & Hnx).
  destruct (bounded_inv my ey Vy) as (Hey & Hmy & Hny).
  assert (Hprod : grid (Zpos mx) ex * grid (Zpos my) ey =
                  grid (Zpos (mx * my)) (ex + ey) * 2 ^ 2148).
  { unfold grid. rewrite Pos2Z.inj_mul.
    replace (ex + ey + 2148) with ((ex + 1074) + (ey + 1074)) by lia.
    replace (ex + 2148) with ((ex + 1074) + 1074) by lia.
    replace (ey + 2148) with ((ey + 1074) + 1074) by lia.
    rewrite (pow2_split (ex + 1074) (ey + 1074)), (pow2_split (ex + 1074) 1074),
      (pow2_split (ey + 1074) 1074) by lia.
    change (2 ^ 2148) with (2 ^ 1074 * 2 ^ 1074). ring. }
  assert (Hal : ex + ey <= fexp 53 1024 (Zpos (digits2_pos (mx * my)) + (ex + ey))).
  { rewrite fexp64.
    destruct (Z_le_gt_dec (ex + ey) (-1074)) as [|Hc]; [lia|].
    assert (Hn : 2 ^ 52 <= Zpos (mx * my)).
    { rewrite Pos2Z.inj_mul. destruct Hnx as [->|Hnx], Hny as [->|Hny]; try lia; nia. }
    pose proof (digits2_bounds (mx * my)) as [_ Hhi].
    assert (52 < Zpos (digits2_pos (mx * my))); [|lia].
    apply (Z.pow_lt_mono_r_iff 2); lia. }
  pose proof (binary_round_aux_error (xorb sx sy) (mx * my) (ex + ey)
                ltac:(lia) Hal) as HR.
  pose proof (grid_pos (mx * my) (ex + ey) ltac:(lia)) as Hp.
  assert (HG : 0 < 2 ^ 2148) by reflexivity.
  assert (Hs : sgrid_sf (S754_finite sx mx ex) * sgrid_sf (S754_finite sy my ey) =
               cond_Zopp (xorb sx sy) (grid (Zpos (mx * my)) (ex + ey)) * 2 ^ 2148).
  { cbn [sgrid_sf]. destruct sx, sy; cbn [xorb cond_Zopp]; lia. }
  rewrite Hs.
  unfold SF64mul, SFmul.
  change (binary_round_aux prec emax) with (binary_round_aux 53 1024).
  set (r := binary_round_aux 53 1024 _ _ _ _) in *. clearbody r.
  set (V := grid (Zpos (mx * my)) (ex + ey)) in *.
  set (Gc := 2 ^ 2148) in *.
  destruct r as [s'|s'| |s' m' e']; try discriminate; intros _; cbn [sgrid_sf].
  - rewrite Z.mul_0_l, Z.sub_0_l, Z.abs_opp.
    assert (Ha : Z.abs (cond_Zopp (xorb sx sy) V * Gc) = V * Gc).
    { destruct (xorb sx sy); cbn [cond_Zopp]; rewrite ?Z.mul_opp_l, ?Z.abs_opp;
        apply Z.abs_eq; nia. }
    rewrite Ha.
    change (2 ^ 1126) with (2 ^ 52 * 2 ^ 1074).
    change (2 ^ 53) with (2 ^ 52 * 2).
    assert (0 < 2 ^ 52) by reflexivity. set (C := 2 ^ 52) in *.
    set (T := 2 ^ 1074) in *. nia.
  - destruct HR as [-> HR].
    assert (Ha : Z.abs (cond_Zopp (xorb sx sy) V * Gc) = V * Gc).
    { destruct (xorb sx sy); cbn [cond_Zopp]; rewrite ?Z.mul_opp_l, ?Z.abs_opp;
        apply Z.abs_eq; nia. }
    rewrite Ha.
    assert (Hb : Z.abs (cond_Zopp (xorb sx sy) (grid (Z.pos m') e') * Gc -
                        cond_Zopp (xorb sx sy) V * Gc) =
                 Z.abs (grid (Z.pos m') e' - V) * Gc).
    { destruct (xorb sx sy); cbn [cond_Zopp].
      - replace (- grid (Z.pos m') e' * Gc - - V * Gc)
          with (- ((grid (Z.pos m') e' - V) * Gc)) by ring.
        rewrite Z.abs_opp, Z.abs_mul, (Z.abs_eq Gc) by lia. reflexivity.
      - rewrite <- Z.mul_sub_distr_r, Z.abs_mul, (Z.abs_eq Gc) by lia. reflexivity. }
    rewrite Hb.
    set (X := Z.abs _) in *. set (Q := 2 ^ 1126) in *.
    assert (0 < 2 ^ 53) by reflexivity. set (C := 2 ^ 53) in *.
    nia.
Qed.

End RoundingError.

(** ** Doubles as real numbers *)

Module ValueFacts.

Import Magnitude Rounding RoundingError Value.

Local Open Scope R_scope.

Lemma G_pos : 0 < G.
Proof. unfold G. apply IZR_lt. reflexivity. Qed.

Lemma Rabs_bounds (a b : R) : Rabs a <= b -> - b <= a <= b.
Proof. unfold Rabs. destruct (Rcase_abs a); lra. Qed.

Lemma Rabs_div_G (z : Z) : Rabs (IZR z / G) = IZR (Z.abs z) / G.
Proof.
  pose proof G_pos. unfold Rdiv.
  rewrite Rabs_mult, (Rabs_pos_eq (/ G)), abs_IZR; [reflexivity|].
  left. now apply Rinv_0_lt_compat.
Qed.

Lemma abs_sgrid (x : spec_float) :
  valid_binary x = true -> Z.abs (sgrid_sf x) = mag_sf x.
Proof.
  intros V. pose proof (mag_sf_nonneg x V) as H.
  destruct x as [s|s| |s m e]; cbn [sgrid_sf mag_sf] in *; try reflexivity.
  destruct s; cbn [cond_Zopp]; lia.
Qed.

Lemma Rabs_val (x : float) : Rabs (val x) = IZR (mag x) / G.
Proof.
  unfold val, sgrid, mag. rewrite Rabs_div_G.
  now rewrite (abs_sgrid _ (Prim2SF_valid x)).
Qed.

(** From the integers of the grid to the reals. *)
Lemma sum_error_R (r s : Z) :
  (2 ^ 53 * Z.abs (r - s) <= Z.abs s + 2 ^ 1126)%Z ->
  Rabs (IZR r / G - IZR s / G) <= u * Rabs (IZR s / G) + eta.
Proof.
  intros H. pose proof G_pos as HG.
  replace (IZR r / G - IZR s / G) with (IZR (r - s) / G)
    by (rewrite minus_IZR; field; lra).
  rewrite !Rabs_div_G. unfold eta, u.
  apply IZR_le in H. rewrite plus_IZR, mult_IZR in H.
  change (2 ^ 53)%Z with 9007199254740992%Z in H.
  change (2 ^ 1126)%Z with (9007199254740992 * 2 ^ 1073)%Z in H.
  rewrite mult_IZR in H.
  set (a := IZR (Z.abs (r - s))) in *. set (b := IZR (Z.abs s)) in *.
  set (t := IZR (2 ^ 1073)) in *.
  apply (Rmult_le_reg_r (9007199254740992 * G)); [lra|].
  replace (a / G * (9007199254740992 * G)) with (9007199254740992 * a)
    by (field; lra).
  replace ((/ 9007199254740992 * (b / G) + t / G) * (9007199254740992 * G))
    with (b + 9007199254740992 * t) by (field; lra).
  exact H.
Qed.

Lemma product_error_R (r x y : Z) :
  (2 ^ 53 * Z.abs (r * 2 ^ 2148 - x * y) <= Z.abs (x * y) + 2 ^ 1126 * 2 ^ 2148)%Z ->
  Rabs (IZR r / G - IZR x / G * (IZR y / G)) <=
  u * Rabs (IZR x / G * (IZR y / G)) + eta.
Proof.
  intros H. pose proof G_pos as HG.
  replace (IZR r / G - IZR x / G * (IZR y / G))
    with (IZR (r * 2 ^ 2148 - x * y) / G / G)
    by (rewrite minus_IZR, !mult_IZR; fold G; field; lra).
  replace (IZR x / G * (IZR y / G)) with (IZR (x * y) / G / G)
    by (rewrite mult_IZR; field; lra).
  assert (HR : forall z, Rabs (IZR z / G / G) = IZR (Z.abs z) / G / G).
  { intros z. unfold Rdiv at 1. rewrite Rabs_mult, Rabs_div_G.
    rewrite (Rabs_pos_eq (/ G)); [reflexivity|].
    left. now apply Rinv_0_lt_compat. }
  rewrite !HR. unfold eta, u.
  apply IZR_le in H. rewrite plus_IZR, !mult_IZR in H. fold G in H.
  change (2 ^ 53)%Z with 9007199254740992%Z in H.
  change (2 ^ 1126)%Z with (9007199254740992 * 2 ^ 1073)%Z in H.
  rewrite mult_IZR in H.
  set (a := IZR (Z.abs _)) in *. set (b := IZR (Z.abs (x * y))) in *.
  set (t := IZR (2 ^ 1073)) in *.
  apply (Rmult_le_reg_r (9007199254740992 * (G * G))); [nra|].
  replace (a / G / G * (9007199254740992 * (G * G))) with (9007199254740992 * a)
    by (field; lra).
  replace ((/ 9007199254740992 * (b / G / G) + t / G) * (9007199254740992 * (G * G)))
    with (b + 9007199254740992 * t * G) by (field; lra).
  exact H.
Qed.

(** The error of the three operators on doubles. *)
Lemma add_error (a b : float) :
  is_finite a = true -> is_finite b = true -> is_finite (a + b)%float = true ->
  Rabs (val (a + b)%float - (val a + val b)) <= u * Rabs (val a + val b) + eta.
Proof.
  rewrite !is_finite_sf. unfold val, sgrid. rewrite add_spec. intros Ha Hb Hr.
  pose proof (SFadd_error _ _ (Prim2SF_valid a) (Prim2SF_valid b) Ha Hb Hr) as H.
  pose proof G_pos.
  replace (IZR (sgrid_sf (Prim2SF a)) / G + IZR (sgrid_sf (Prim2SF b)) / G)
    with (IZR (sgrid_sf (Prim2SF a) + sgrid_sf (Prim2SF b)) / G)
    by (rewrite plus_IZR; field; lra).
  now apply sum_error_R.
Qed.

Lemma sub_error (a b : float) :
  is_finite a = true -> is_finite b = true -> is_finite (a - b)%float = true ->
  Rabs (val (a - b)%float - (val a - val b)) <= u * Rabs (val a - val b) + eta.
Proof.
  rewrite !is_finite_sf. unfold val, sgrid. rewrite sub_spec. intros Ha Hb Hr.
  pose proof (SFsub_error _ _ (Prim2SF_valid a) (Prim2SF_valid b) Ha Hb Hr) as H.
  pose proof G_pos.
  replace (IZR (sgrid_sf (Prim2SF a)) / G - IZR (sgrid_sf (Prim2SF b)) / G)
    with (IZR (sgrid_sf (Prim2SF a) - sgrid_sf (Prim2SF b)) / G)
    by (rewrite minus_IZR; field; lra).
  now apply sum_error_R.
Qed.

Lemma mul_error (a b : float) :
  is_finite a = true -> is_finite b = true -> is_finite (a * b)%float = true ->
  Rabs (val (a * b)%float - val a * val b) <= u * Rabs (val a * val b) + eta.
Proof.
  rewrite !is_finite_sf. unfold val, sgrid. rewrite mul_spec. intros Ha Hb Hr.
  pose proof (SFmul_error _ _ (Prim2SF_valid a) (Prim2SF_valid b) Ha Hb Hr) as H.
  now apply product_error_R.
Qed.

Lemma mag_history_bound : mag history_bound = (2 ^ 3171)%Z.
Proof. reflexivity. Qed.

Lemma is_finite_history_bound : is_finite history_bound = true.
Proof. reflexivity. Qed.

Lemma add_finite (a b : float) :
  is_finite a = true -> is_finite b = true ->
  Rabs (val a) + Rabs (val b) <= Omega ->
  is_finite (a + b)%float = true.
Proof.
  intros Ha Hb H. apply (add_below a b history_bound Ha Hb).
  rewrite mag_history_bound. rewrite !Rabs_val in H. unfold Omega in H.
  pose proof G_pos. apply le_IZR. rewrite plus_IZR.
  apply (Rmult_le_reg_r (/ G)); [now apply Rinv_0_lt_compat|].
  unfold Rdiv in H. lra.
Qed.

Lemma sub_finite (a b : float) :
  is_finite a = true -> is_finite b = true ->
  Rabs (val a) + Rabs (val b) <= Omega ->
  is_finite (a - b)%float = true.
Proof.
  intros Ha Hb H. apply (sub_below a b history_bound Ha Hb).
  rewrite mag_history_bound. rewrite !Rabs_val in H. unfold Omega in H.
  pose proof G_pos. apply le_IZR. rewrite plus_IZR.
  apply (Rmult_le_reg_r (/ G)); [now apply Rinv_0_lt_compat|].
  unfold Rdiv in H. lra.
Qed.

Lemma mul_finite (a b : float) :
  is_finite a = true -> is_finite b = true ->
  Rabs (val a) * Rabs (val b) <= Omega ->
  is_finite (a * b)%float = true.
Proof.
  intros Ha Hb H. apply (mul_below a b history_bound Ha Hb).
  rewrite mag_history_bound. rewrite !Rabs_val in H. unfold Omega in H.
  pose proof G_pos as HG. apply le_IZR. rewrite !mult_IZR. fold G.
  apply (Rmult_le_reg_r (/ G * / G)).
  { apply Rmult_lt_0_compat; now apply Rinv_0_lt_compat. }
  replace (IZR (mag a) * IZR (mag b) * (/ G * / G))
    with (IZR (mag a) / G * (IZR (mag b) / G)) by (field; lra).
  replace (IZR (2 ^ 3171) * G * (/ G * / G)) with (IZR (2 ^ 3171) / G)
    by (field; lra).
  exact H.
Qed.

Lemma val_max (x : float) : is_finite x = true -> Rabs (val x) <= 2 * Omega.
Proof.
  rewrite is_finite_sf, Rabs_val. unfold mag, Omega.
  pose proof (Prim2SF_valid x) as V. pose proof G_pos as HG.
  intros F.
  assert (Hz : (mag_sf (Prim2SF x) <= 2 * 2 ^ 3171)%Z).
  { destruct (Prim2SF x) as [s|s| |s m e]; try discriminate; cbn [mag_sf];
      try lia.
    cbn [valid_binary] in V. destruct (bounded_inv m e V) as (He & Hm & _).
    unfold grid. change (2 * 2 ^ 3171)%Z with (2 ^ 53 * 2 ^ (971 + 2148))%Z.
    apply Z.mul_le_mono_nonneg; try lia.
    apply Z.pow_le_mono_r; lia. }
  apply IZR_le in Hz. rewrite mult_IZR in Hz.
  assert (0 < / G) by now apply Rinv_0_lt_compat.
  unfold Rdiv. nra.
Qed.

Lemma val_zero : val 0%float = 0.
Proof. unfold val, sgrid. cbn. unfold Rdiv. apply Rmult_0_l. Qed.

Lemma val_coeff64 : val coeff64 = kappa.
Proof.
  unfold val, sgrid, kappa.
  change (sgrid_sf (Prim2SF coeff64)) with (9004497094964570 * 2 ^ 2095)%Z.
  unfold G. change (2 ^ 2148)%Z with (9007199254740992 * 2 ^ 2095)%Z.
  rewrite !mult_IZR.
  assert (0 < IZR (2 ^ 2095)) by (apply IZR_lt; reflexivity).
  field. lra.
Qed.

Lemma Omega_big : 16 <= Omega.
Proof.
  unfold Omega, G. change (2 ^ 3171)%Z with (2 ^ 1023 * 2 ^ 2148)%Z.
  rewrite mult_IZR. fold G. pose proof G_pos.
  replace (IZR (2 ^ 1023) * G / G) with (IZR (2 ^ 1023)) by (field; lra).
  apply IZR_le. apply Z.leb_le. reflexivity.
Qed.

Lemma eta_small : 0 < eta <= / 1329227995784915872903807060280344576.
Proof.
  unfold eta. pose proof G_pos. split.
  - apply Rdiv_lt_0_compat; [apply IZR_lt; reflexivity | assumption].
  - apply (Rmult_le_reg_r (G * 1329227995784915872903807060280344576)); [lra|].
    replace (IZR (2 ^ 1073) / G * (G * 1329227995784915872903807060280344576))
      with (IZR (2 ^ 1073) * 1329227995784915872903807060280344576)
      by (field; lra).
    replace (/ 1329227995784915872903807060280344576 *
             (G * 1329227995784915872903807060280344576)) with G
      by (field; lra).
    unfold G. rewrite <- mult_IZR. apply IZR_le. apply Z.leb_le. reflexivity.
Qed.

Lemma peak_nonneg (xs : list float) : 0 <= peak xs.
Proof.
  induction xs as [|x xs IH]; cbn; [lra|].
  apply Rle_trans with (1 := IH). apply Rmax_r.
Qed.

Lemma peak_within (xs : list float) :
  forallb is_finite xs = true -> Forall (Track.within finite val (peak xs)) xs.
Proof.
  induction xs as [|x xs IH]; intros H; [constructor|].
  cbn [forallb] in H. apply andb_prop in H. destruct H as [Hx Hxs].
  constructor.
  - split; [exact Hx|]. cbn. apply Rmax_l.
  - eapply Forall_impl; [|exact (IH Hxs)].
    intros y [Fy By]. split; [exact Fy|].
    apply Rle_trans with (1 := By). cbn. apply Rmax_r.
Qed.

End ValueFacts.

(** ** Flushing to zero *)

Module FlushFacts.

Import Double Magnitude Rounding RoundingError Value ValueFacts.

Local Open Scope Z_scope.

Lemma SFcompare_zero_l (s : bool) (m : positive) (e : Z) :
  SFcompare (S754_zero s) (S754_finite false m e) = Some Lt.
Proof. reflexivity. Qed.

(** What [Flushed.flush] does, on the specification of doubles. *)
Lemma flush_sf (r : float) :
  Prim2SF (Flushed.flush r) =
  match Prim2SF r with
  | S754_finite s m e =>
      if grid (Zpos m) e <? 2 ^ 1126 then S754_zero s else S754_finite s m e
  | x => x
  end.
Proof.
  unfold Flushed.flush. rewrite ltb_spec, abs_spec.
  change (Prim2SF DBL_MIN) with (S754_finite false 4503599627370496 (-1074)).
  pose proof (Prim2SF_valid r) as V.
  destruct (Prim2SF r) as [s|s| |s m e] eqn:E; cbn [SFabs].
  - unfold SFltb. rewrite SFcompare_zero_l.
    rewrite mul_spec, E. now destruct s.
  - unfold SFltb. cbn. exact E.
  - unfold SFltb. cbn. exact E.
  - cbn [valid_binary] in V. unfold SFltb.
    rewrite (SFcompare_grid m 4503599627370496 e (-1074) V eq_refl).
    change (grid 4503599627370496 (-1074)) with (2 ^ 1126).
    destruct (Z.ltb_spec (grid (Zpos m) e) (2 ^ 1126)) as [H|H].
    + apply Z.compare_lt_iff in H. rewrite H.
      rewrite mul_spec, E. now destruct s.
    + destruct (grid (Zpos m) e ?= 2 ^ 1126) eqn:C; try exact E.
      apply Z.compare_lt_iff in C. exfalso.
      exact (Z.lt_irrefl _ (Z.lt_le_trans _ _ _ C H)).
Qed.

Lemma flush_finite (r : float) : is_finite (Flushed.flush r) = is_finite r.
Proof.
  rewrite !is_finite_sf, flush_sf.
  destruct (Prim2SF r) as [s|s| |s m e]; try reflexivity.
  now destruct (grid (Zpos m) e <? 2 ^ 1126).
Qed.

Lemma mag_flush (r : float) :
  mag (Flushed.flush r) = if mag r <? 2 ^ 1126 then 0 else mag r.
Proof.
  unfold mag. rewrite flush_sf.
  destruct (Prim2SF r) as [s|s| |s m e]; try reflexivity.
  cbn [mag_sf]. now destruct (grid (Zpos m) e <? 2 ^ 1126).
Qed.

Lemma sgrid_flush (r : float) :
  sgrid (Flushed.flush r) = if mag r <? 2 ^ 1126 then 0 else sgrid r.
Proof.
  unfold mag, sgrid. rewrite flush_sf.
  destruct (Prim2SF r) as [s|s| |s m e]; try reflexivity.
  cbn [mag_sf sgrid_sf]. now destruct (grid (Zpos m) e <? 2 ^ 1126).
Qed.

Lemma is_zero_mag (x : float) :
  is_finite x = true -> (is_zero x = true <-> mag x = 0).
Proof.
  rewrite is_finite_sf, is_zero_sf. unfold mag.
  pose proof (Prim2SF_valid x) as V.
  destruct (Prim2SF x) as [s|s| |s m e]; try discriminate; intros _;
    cbn [mag_sf]; split; try reflexivity; try discriminate.
  cbn [valid_binary] in V. destruct (bounded_inv m e V) as (He & _).
  pose proof (grid_pos m e ltac:(lia)). lia.
Qed.

(** A flushed zero keeps its sign; a flushed double that is not subnormal is
    itself. *)
Lemma flush_normal (r : float) : 2 ^ 1126 <= mag r -> Flushed.flush r = r.
Proof.
  intros H. apply Prim2SF_inj. rewrite flush_sf. unfold mag in H.
  destruct (Prim2SF r) as [s|s| |s m e]; try reflexivity.
  cbn [mag_sf] in H.
  destruct (Z.ltb_spec (grid (Zpos m) e) (2 ^ 1126)); [lia | reflexivity].
Qed.

Lemma flush_zero (r : float) : is_zero r = true -> Flushed.flush r = r.
Proof.
  rewrite is_zero_sf. intros H. apply Prim2SF_inj. rewrite flush_sf.
  now destruct (Prim2SF r).
Qed.

(** Comparing magnitudes on doubles. *)
Lemma mag_ltb_abs (x y : float) :
  is_finite x = true -> is_finite y = true -> mag x < mag y ->
  (abs x <? abs y)%float = true.
Proof.
  rewrite ltb_spec, !abs_spec, !is_finite_sf. unfold mag.
  pose proof (Prim2SF_valid x) as Vx. pose proof (Prim2SF_valid y) as Vy.
  intros Hx Hy H.
  destruct (Prim2SF x) as [sx|sx| |sx mx ex]; try discriminate Hx;
  destruct (Prim2SF y) as [sy|sy| |sy my ey]; try discriminate Hy;
    cbn [SFabs mag_sf valid_binary] in *; try lia; try reflexivity.
  - destruct (bounded_inv mx ex Vx) as (He & _).
    pose proof (grid_pos mx ex ltac:(lia)). lia.
  - unfold SFltb. rewrite (SFcompare_grid mx my ex ey Vx Vy).
    apply Z.compare_lt_iff in H. now rewrite H.
Qed.

(** A finite double that is at least [DBL_MIN] in magnitude is normal. *)
Lemma normal_mag (x : float) :
  is_finite x = true ->
  (DBL_MIN <=? abs x)%float = true -> 2 ^ 1126 <= mag x.
Proof.
  rewrite leb_spec, abs_spec, is_finite_sf. unfold mag.
  change (Prim2SF DBL_MIN) with (S754_finite false 4503599627370496 (-1074)).
  pose proof (Prim2SF_valid x) as Vx.
  intros Hx H.
  destruct (Prim2SF x) as [sx|sx| |sx mx ex]; try discriminate Hx;
    cbn [SFabs mag_sf valid_binary] in *.
  - discriminate H.
  - unfold SFleb in H.
    rewrite (SFcompare_grid 4503599627370496 mx (-1074) ex eq_refl Vx) in H.
    change (grid 4503599627370496 (-1074)) with (2 ^ 1126) in H.
    destruct (Z.compare_spec (2 ^ 1126) (grid (Zpos mx) ex)) as [C|C|C];
      try discriminate H.
    + rewrite <- C. apply Z.le_refl.
    + now apply Z.lt_le_incl.
Qed.

Lemma below_normal_ltb (x : float) :
  is_finite x = true -> mag x < 2 ^ 1126 ->
  (abs x <? DBL_MIN)%float = true.
Proof.
  intros Hx H.
  change DBL_MIN with (abs DBL_MIN). now apply mag_ltb_abs.
Qed.

Local Open Scope R_scope.

Lemma val_DBL_MIN : val DBL_MIN = 9007199254740992 * eta.
Proof.
  unfold val, sgrid, eta.
  change (sgrid_sf (Prim2SF DBL_MIN)) with (9007199254740992 * 2 ^ 1073)%Z.
  rewrite mult_IZR. pose proof G_pos. field. lra.
Qed.

(** Flushing moves a double by less than [DBL_MIN], towards zero. *)
Lemma val_flush (r : float) :
  val (Flushed.flush r) = if (mag r <? 2 ^ 1126)%Z then 0 else val r.
Proof.
  unfold val. rewrite sgrid_flush.
  destruct (mag r <? 2 ^ 1126)%Z; [|reflexivity].
  unfold Rdiv. apply Rmult_0_l.
Qed.

Lemma flush_error (r : float) :
  Rabs (val (Flushed.flush r) - val r) <= val DBL_MIN /\
  Rabs (val (Flushed.flush r)) <= Rabs (val r).
Proof.
  pose proof G_pos as HG. rewrite val_flush.
  destruct (Z.ltb_spec (mag r) (2 ^ 1126)) as [H|H].
  - replace (0 - val r) with (- val r) by ring.
    rewrite Rabs_Ropp, Rabs_R0, Rabs_val. split.
    + unfold val, sgrid.
      change (sgrid_sf (Prim2SF DBL_MIN)) with (2 ^ 1126)%Z.
      apply IZR_lt in H.
      apply Rmult_le_compat_r; [left; now apply Rinv_0_lt_compat | lra].
    + rewrite <- Rabs_val. apply Rabs_pos.
  - replace (val r - val r) with 0 by ring. rewrite Rabs_R0.
    split; [|lra].
    rewrite val_DBL_MIN. pose proof eta_small. lra.
Qed.

End FlushFacts.

(** ** The filter in rounded arithmetic

    One run of the expression of [calculate] is the exact expression up to
    [local_error]; a filter fed bounded inputs keeps its output within
    [(1 + theta) * B + K * h] of its input; and the filter run on
    [a*A + b*B] stays within [drift] of the mix of the filters run on [A]
    and on [B]. All for any arithmetic that is [rounded]. *)

Module ModelFacts.

Import Value ValueFacts Tolerance.

Local Open Scope R_scope.

Section Model.

Context {sample : Type} {arith : SampleArith sample}.
Variables (fin : sample -> Prop) (v : sample -> R) (h : R).
Hypothesis model : rounded arith fin v h.

Local Abbreviation steady := (Track.steady fin v h).
Local Abbreviation near := (Track.near fin v).
Local Abbreviation within := (Track.within fin v).

Lemma steady_clear (B : R) (d : dcblocker sample) :
  0 <= B -> bypass d = false -> steady B (clear d).
Proof.
  intros HB Hb. destruct (r_zero _ _ _ _ model) as [F0 V0].
  destruct (r_unit _ _ _ _ model) as [Hh _].
  unfold Track.steady, clear. cbn [x_1 y_1 bypass]. rewrite V0.
  replace (0 - 0) with 0 by ring. rewrite Rabs_R0.
  unfold theta, K. repeat split; try assumption; lra.
Qed.

Lemma calculate_steady (B : R) (x : sample) (d : dcblocker sample) :
  0 <= B <= Omega / 8 ->
  steady B d -> fin x -> Rabs (v x) <= B ->
  fin (fst (calculate x d)) /\
  steady B (snd (calculate x d)) /\
  x_1 (snd (calculate x d)) = x /\
  y_1 (snd (calculate x d)) = fst (calculate x d) /\
  Rabs (v (fst (calculate x d)) -
        (v x - v (x_1 d) + kappa * v (y_1 d))) <= local_error B h /\
  Rabs (v (fst (calculate x d)) - v x) <= (1 + theta) * B + K * h.
Proof.
  intros HB (Hb & Fx1 & Fy1 & Bx1 & W) Fx Bx.
  pose proof Omega_big as HO.
  destruct (r_unit _ _ _ _ model) as [Hh0 Hh1].
  destruct (r_coeff _ _ _ _ model) as [Fc Vc].
  rewrite (calculate_filtering x d Hb). cbn [fst snd x_1 y_1 bypass].
  set (t1 := (x - x_1 d)%sample). set (t2 := (y_1 d * lit_0_9997)%sample).
  set (y := (t1 + t2)%sample).
  apply Rabs_bounds in Bx1. apply Rabs_bounds in W. apply Rabs_bounds in Bx.
  assert (By1 : Rabs (v (y_1 d)) <= (2 + theta) * B + K * h)
    by (apply Rabs_le; lra).
  assert (Ft1 : fin t1).
  { apply (r_sub _ _ _ _ model); try assumption.
    assert (Rabs (v x) <= B) by (apply Rabs_le; lra).
    assert (Rabs (v (x_1 d)) <= B) by (apply Rabs_le; lra). lra. }
  pose proof (e_sub _ _ _ _ model x (x_1 d) Fx Fx1 Ft1) as E1. fold t1 in E1.
  assert (D : Rabs (v x - v (x_1 d)) <= 2 * B) by (apply Rabs_le; lra).
  assert (Hk : Rabs kappa = kappa) by (apply Rabs_pos_eq; unfold kappa; lra).
  assert (Ft2 : fin t2).
  { apply (r_mul _ _ _ _ model); try assumption.
    rewrite Vc, Hk. unfold kappa, theta, K in *. lra. }
  pose proof (e_mul _ _ _ _ model (y_1 d) lit_0_9997 Fy1 Fc Ft2) as E2.
  fold t2 in E2. rewrite Vc, Rabs_mult, Hk in E2.
  assert (E1' : Rabs (v t1 - (v x - v (x_1 d))) <= u * (2 * B) + h).
  { unfold u in *. lra. }
  assert (E2' : Rabs (v t2 - v (y_1 d) * kappa) <=
                u * (((2 + theta) * B + K * h) * kappa) + h).
  { unfold u, kappa in *. lra. }
  apply Rabs_bounds in E1'. apply Rabs_bounds in E2'. apply Rabs_bounds in By1.
  assert (T : Rabs (v t1 + v t2) <=
              2 * B + ((2 + theta) * B + K * h) * kappa +
              (u * (2 * B) + h) + (u * (((2 + theta) * B + K * h) * kappa) + h)).
  { apply Rabs_le. unfold u, kappa, theta, K in *. lra. }
  assert (Fy : fin y).
  { apply (r_add _ _ _ _ model); try assumption.
    assert (Rabs (v t1) <= 2 * B + (u * (2 * B) + h)) by (apply Rabs_le; lra).
    assert (Rabs (v t2) <= ((2 + theta) * B + K * h) * kappa +
                           (u * (((2 + theta) * B + K * h) * kappa) + h)).
    { apply Rabs_le. unfold kappa in *. lra. }
    unfold u, kappa, theta, K in *. lra. }
  pose proof (e_add _ _ _ _ model t1 t2 Ft1 Ft2 Fy) as E3. fold y in E3.
  assert (E3' : Rabs (v y - (v t1 + v t2)) <=
                u * (2 * B + ((2 + theta) * B + K * h) * kappa +
                     (u * (2 * B) + h) +
                     (u * (((2 + theta) * B + K * h) * kappa) + h)) + h).
  { unfold u in *. lra. }
  apply Rabs_bounds in E3'.
  assert (EE : Rabs (v y - (v x - v (x_1 d) + kappa * v (y_1 d))) <=
               local_error B h).
  { apply Rabs_le. unfold local_error, cu, ch, u, kappa, theta, K in *. lra. }
  pose proof EE as EE'. apply Rabs_bounds in EE'.
  assert (WW : Rabs (v y - v x) <= (1 + theta) * B + K * h).
  { apply Rabs_le. unfold local_error, cu, ch, u, kappa, theta, K in *. lra. }
  split; [exact Fy|]. split.
  - unfold Track.steady. cbn [x_1 y_1 bypass].
    split; [reflexivity|]. split; [exact Fx|]. split; [exact Fy|].
    split; [apply Rabs_le; lra | exact WW].
  - split; [reflexivity|]. split; [reflexivity|]. split; [exact EE | exact WW].
Qed.

(** *** Superposition *)

Variables (a b : sample) (Am Bm : R).

Local Abbreviation scale := (Track.scale v a b Am Bm).
Local Abbreviation weight := (Track.weight v h a b).
Local Abbreviation mix_error := (Track.mix_error v h a b Am Bm).
Local Abbreviation mix_peak := (Track.mix_peak v h a b Am Bm).
Local Abbreviation drift := (Track.drift v h a b Am Bm).
Local Abbreviation tolerance := (Track.tolerance v h a b Am Bm).
Local Abbreviation tracking := (Track.tracking fin v h a b Am Bm).

Hypothesis fin_a : fin a.
Hypothesis fin_b : fin b.
Hypothesis Am_range : 0 <= Am <= Omega / 16.
Hypothesis Bm_range : 0 <= Bm <= Omega / 16.
Hypothesis scale_range : scale <= Omega / 16.

Lemma scaled_le (c t B : R) : Rabs t <= B -> Rabs (c * t) <= Rabs c * B.
Proof.
  intros H. rewrite Rabs_mult. apply Rmult_le_compat_l; [apply Rabs_pos | exact H].
Qed.

(** Mixing two samples: [a * x + b * y] on samples against the same on
    their values. *)
Lemma mix_near (x y : sample) (X Y : R) :
  fin x -> fin y ->
  Rabs (v a * v x) <= X -> Rabs (v b * v y) <= Y -> X + Y <= Omega / 4 ->
  fin (a * x + b * y)%sample /\
  Rabs (v (a * x + b * y)%sample - (v a * v x + v b * v y)) <=
    cu * (X + Y) + ch * h.
Proof.
  intros Fx Fy HX HY HXY.
  pose proof Omega_big as HO.
  destruct (r_unit _ _ _ _ model) as [Hh0 Hh1].
  pose proof (Rabs_pos (v a * v x)) as PX. pose proof (Rabs_pos (v b * v y)) as PY.
  assert (F1 : fin (a * x)%sample).
  { apply (r_mul _ _ _ _ model); try assumption. rewrite <- Rabs_mult. lra. }
  assert (F2 : fin (b * y)%sample).
  { apply (r_mul _ _ _ _ model); try assumption. rewrite <- Rabs_mult. lra. }
  pose proof (e_mul _ _ _ _ model a x fin_a Fx F1) as E1.
  pose proof (e_mul _ _ _ _ model b y fin_b Fy F2) as E2.
  assert (E1' : Rabs (v (a * x)%sample - v a * v x) <= u * X + h)
    by (unfold u in *; lra).
  assert (E2' : Rabs (v (b * y)%sample - v b * v y) <= u * Y + h)
    by (unfold u in *; lra).
  apply Rabs_bounds in HX. apply Rabs_bounds in HY.
  apply Rabs_bounds in E1'. apply Rabs_bounds in E2'.
  assert (B1 : Rabs (v (a * x)%sample) <= X + (u * X + h)) by (apply Rabs_le; lra).
  assert (B2 : Rabs (v (b * y)%sample) <= Y + (u * Y + h)) by (apply Rabs_le; lra).
  assert (F3 : fin (a * x + b * y)%sample).
  { apply (r_add _ _ _ _ model); try assumption. unfold u in *. lra. }
  pose proof (e_add _ _ _ _ model _ _ F1 F2 F3) as E3.
  assert (S3 : Rabs (v (a * x)%sample + v (b * y)%sample) <=
               X + Y + (u * X + h) + (u * Y + h)) by (apply Rabs_le; lra).
  split; [exact F3|].
  apply Rabs_bounds in E3.
  apply Rabs_le. unfold cu, ch, u in *. lra.
Qed.

Lemma scale_nonneg : 0 <= scale.
Proof.
  unfold Track.scale. pose proof (Rabs_pos (v a)). pose proof (Rabs_pos (v b)).
  destruct Am_range, Bm_range. nra.
Qed.

Lemma weight_bounds :
  0 <= h /\ 0 <= Rabs (v a) * h <= Omega / 549755813888 /\
  0 <= Rabs (v b) * h <= Omega / 549755813888.
Proof.
  destruct (r_unit _ _ _ _ model) as [Hh0 Hh1].
  pose proof (r_max _ _ _ _ model a fin_a) as Ha.
  pose proof (r_max _ _ _ _ model b fin_b) as Hb.
  pose proof (Rabs_pos (v a)). pose proof (Rabs_pos (v b)).
  pose proof Omega_big.
  split; [exact Hh0|]. split; split; try nra.
Qed.

(** One sample through the three filters. *)
Lemma tracking_step (x y : sample) (dL dA dB : dcblocker sample) :
  tracking dL dA dB ->
  fin x -> Rabs (v x) <= Am -> fin y -> Rabs (v y) <= Bm ->
  let l := fst (calculate (a * x + b * y)%sample dL) in
  let ya := fst (calculate x dA) in
  let yb := fst (calculate y dB) in
  tracking (snd (calculate (a * x + b * y)%sample dL))
           (snd (calculate x dA)) (snd (calculate y dB)) /\
  fin l /\ fin (a * ya + b * yb)%sample /\
  Rabs (v l - v (a * ya + b * yb)%sample) <= tolerance.
Proof.
  intros (SL & SA & SB & TX & TY) Fx Bx Fy By l ya yb.
  pose proof Omega_big as HO.
  pose proof scale_nonneg as HS.
  destruct weight_bounds as (Hh0 & Hha & Hhb).
  destruct (r_unit _ _ _ _ model) as [_ Hh1].
  (* the mixed input *)
  pose proof (scaled_le (v a) (v x) Am Bx) as PX.
  pose proof (scaled_le (v b) (v y) Bm By) as PY.
  destruct (mix_near x y _ _ Fx Fy PX PY) as [Fm Em].
  { fold scale. lra. }
  fold scale in Em. fold mix_error in Em.
  set (m := (a * x + b * y)%sample) in *.
  assert (Bm' : Rabs (v m) <= mix_peak).
  { apply Rabs_bounds in Em. apply Rabs_bounds in PX. apply Rabs_bounds in PY.
    apply Rabs_le. unfold Track.mix_peak, Track.scale in *. lra. }
  assert (Hpeak : 0 <= mix_peak <= Omega / 8).
  { unfold Track.mix_peak, Track.mix_error, cu, ch, u in *. lra. }
  (* the three filters *)
  destruct (calculate_steady mix_peak m dL Hpeak SL Fm Bm')
    as (Fl & SL' & Xl & Yl & El & Wl).
  assert (HA8 : 0 <= Am <= Omega / 8) by (destruct Am_range; lra).
  assert (HB8 : 0 <= Bm <= Omega / 8) by (destruct Bm_range; lra).
  destruct (calculate_steady Am x dA HA8 SA Fx Bx)
    as (Fa & SA' & Xa & Ya & Ea & Wa).
  destruct (calculate_steady Bm y dB HB8 SB Fy By)
    as (Fb & SB' & Xb & Yb & Eb & Wb).
  fold l in Fl, Yl, El, Wl. fold ya in Fa, Ya, Ea, Wa. fold yb in Fb, Yb, Eb, Wb.
  (* scaled by the two factors *)
  pose proof (scaled_le (v a) _ _ Ea) as Ea'.
  pose proof (scaled_le (v b) _ _ Eb) as Eb'.
  pose proof (scaled_le (v a) _ _ Wa) as Wa'.
  pose proof (scaled_le (v b) _ _ Wb) as Wb'.
  unfold local_error in Ea', Eb', El.
  apply Rabs_bounds in Ea'. apply Rabs_bounds in Eb'. apply Rabs_bounds in El.
  apply Rabs_bounds in Wa'. apply Rabs_bounds in Wb'.
  apply Rabs_bounds in TX. apply Rabs_bounds in TY.
  pose proof Em as Em0. apply Rabs_bounds in Em.
  apply Rabs_bounds in PX. apply Rabs_bounds in PY.
  unfold Track.tolerance, Track.drift, Track.weight, Track.mix_peak, Track.mix_error, Track.scale in *.
  set (ra := Rabs (v a)) in *. set (rb := Rabs (v b)) in *.
  assert (Pa : 0 <= ra * Am)
    by (apply Rmult_le_pos; [apply Rabs_pos | apply Am_range]).
  assert (Pb : 0 <= rb * Bm)
    by (apply Rmult_le_pos; [apply Rabs_pos | apply Bm_range]).
  assert (TY' : Rabs (v l - (v a * v ya + v b * v yb)) <=
                (ra * Am + rb * Bm) / 68719476736 + 32768 * ((1 + ra + rb) * h)).
  { apply Rabs_le. unfold cu, ch, u, kappa, theta, K in *. lra. }
  split.
  { unfold Track.tracking, Track.drift, Track.weight, Track.mix_error, Track.scale. rewrite Xl, Xa, Xb, Yl, Ya, Yb.
    split; [exact SL'|]. split; [exact SA'|]. split; [exact SB'|].
    split; [exact Em0 | exact TY']. }
  split; [exact Fl|].
  (* the mix of the two outputs *)
  assert (QA : Rabs (v a * v ya) <= (2 + theta) * (ra * Am) + K * (ra * h)).
  { apply Rabs_le. unfold theta, K in *. lra. }
  assert (QB : Rabs (v b * v yb) <= (2 + theta) * (rb * Bm) + K * (rb * h)).
  { apply Rabs_le. unfold theta, K in *. lra. }
  destruct (mix_near ya yb _ _ Fa Fb QA QB) as [Fr Er].
  { unfold theta, K in *. lra. }
  split; [exact Fr|].
  apply Rabs_bounds in Er. apply Rabs_bounds in TY'.
  apply Rabs_le.
  unfold cu, ch, u, theta, K in *. lra.
Qed.

Lemma tracking_clear (dL dA dB : dcblocker sample) :
  bypass dL = false -> bypass dA = false -> bypass dB = false ->
  tracking (clear dL) (clear dA) (clear dB).
Proof.
  intros HL HA HB.
  pose proof scale_nonneg as HS.
  destruct weight_bounds as (Hh0 & Hha & Hhb).
  destruct (r_zero _ _ _ _ model) as [F0 V0].
  assert (Hm : 0 <= mix_error) by (unfold Track.mix_error, cu, ch, u; lra).
  unfold Track.tracking.
  split; [apply steady_clear; [unfold Track.mix_peak; lra | exact HL]|].
  split; [apply steady_clear; [apply Am_range | exact HA]|].
  split; [apply steady_clear; [apply Bm_range | exact HB]|].
  cbn [clear x_1 y_1]. rewrite V0.
  replace (0 - (v a * 0 + v b * 0)) with 0 by ring. rewrite Rabs_R0.
  split; [exact Hm|].
  unfold Track.drift, Track.weight. lra.
Qed.

Lemma perform_tracking (A : list sample) :
  forall (B : list sample) (dL dA dB : dcblocker sample),
    length A = length B ->
    Forall (within Am) A -> Forall (within Bm) B ->
    tracking dL dA dB ->
    Forall2 (near tolerance)
      (fst (perform (superpose a b A B) dL))
      (superpose a b (fst (perform A dA)) (fst (perform B dB))).
Proof.
  induction A as [|x A IH]; intros [|y B] dL dA dB Hlen HA HB Ht;
    try discriminate Hlen.
  - constructor.
  - inversion HA as [|? ? [Fx Bx] HA']; subst.
    inversion HB as [|? ? [Fy By] HB']; subst.
    destruct (tracking_step x y dL dA dB Ht Fx Bx Fy By)
      as (Ht' & Fl & Fr & Hn).
    unfold superpose at 1. cbn [combine map fst snd perform].
    fold (superpose a b A B).
    destruct (calculate (a * x + b * y)%sample dL) as [l dL'].
    destruct (calculate x dA) as [ya dA'].
    destruct (calculate y dB) as [yb dB'].
    cbn [fst snd] in *.
    specialize (IH B dL' dA' dB' ltac:(now injection Hlen) HA' HB' Ht').
    destruct (perform (superpose a b A B) dL') as [ls dL''].
    destruct (perform A dA') as [as' dA''].
    destruct (perform B dB') as [bs dB''].
    cbn [fst snd] in *.
    unfold superpose. cbn [combine map fst snd].
    constructor; [|exact IH].
    unfold Track.near. auto.
Qed.

(** A bounded block through one filter: every output is finite and within
    [(1 + theta) * B + K * h] of its input. *)
Lemma perform_steady (B : R) (xs : list sample) :
  0 <= B <= Omega / 8 ->
  forall d : dcblocker sample,
    Forall (within B) xs -> steady B d ->
    Forall2 (near ((1 + theta) * B + K * h)) (fst (perform xs d)) xs.
Proof.
  intros HB. induction xs as [|x xs IH]; intros d Hxs Hd.
  - constructor.
  - inversion Hxs as [|? ? [Fx Bx] Hxs']; subst.
    destruct (calculate_steady B x d HB Hd Fx Bx) as (Fy & Hd' & _ & _ & _ & W).
    cbn [perform]. destruct (calculate x d) as [y d']. cbn [fst snd] in *.
    specialize (IH d' Hxs' Hd').
    destruct (perform xs d') as [ys d'']. cbn [fst] in *.
    constructor; [|exact IH].
    unfold Track.near. auto.
Qed.

End Model.

End ModelFacts.

(** ** The two environments are rounded arithmetics *)

Module Environments.

Import Double Magnitude Rounding Value ValueFacts FlushFacts Tolerance.

Local Open Scope R_scope.

Lemma binary64_rounded : rounded binary64 finite val eta.
Proof.
  pose proof eta_small as [He0 He1].
  constructor; unfold finite; cbn [lit_0_0 lit_0_9997 s_add s_sub s_mul binary64].
  - lra.
  - split; [reflexivity | exact val_zero].
  - split; [reflexivity | exact val_coeff64].
  - exact val_max.
  - exact add_finite.
  - exact sub_finite.
  - exact mul_finite.
  - exact add_error.
  - exact sub_error.
  - exact mul_error.
Qed.

Lemma ftz_rounded : rounded Flushed.binary64_ftz finite val (val DBL_MIN + eta).
Proof.
  pose proof eta_small as [He0 He1]. pose proof val_DBL_MIN as HD.
  assert (Hflush : forall r t bound,
            is_finite (Flushed.flush r) = true ->
            (is_finite r = true -> Rabs (val r - t) <= bound + eta) ->
            Rabs (val (Flushed.flush r) - t) <= bound + (val DBL_MIN + eta)).
  { intros r t bound Hf H. rewrite flush_finite in Hf. specialize (H Hf).
    destruct (flush_error r) as [E _].
    apply Rabs_bounds in H. apply Rabs_bounds in E. apply Rabs_le. lra. }
  constructor; unfold finite;
    cbn [lit_0_0 lit_0_9997 s_add s_sub s_mul Flushed.binary64_ftz].
  - rewrite HD. lra.
  - split; [reflexivity | exact val_zero].
  - split; [reflexivity | exact val_coeff64].
  - exact val_max.
  - intros x y Hx Hy H. rewrite flush_finite. now apply add_finite.
  - intros x y Hx Hy H. rewrite flush_finite. now apply sub_finite.
  - intros x y Hx Hy H. rewrite flush_finite. now apply mul_finite.
  - intros x y Hx Hy Hf. apply Hflush; [exact Hf|].
    intros Hr. now apply add_error.
  - intros x y Hx Hy Hf. apply Hflush; [exact Hf|].
    intros Hr. now apply sub_error.
  - intros x y Hx Hy Hf. apply Hflush; [exact Hf|].
    intros Hr. now apply mul_error.
Qed.

End Environments.

(** ** The answer to a constant *)

Module StepResponse.

Import Double Magnitude Rounding DoubleFacts DoubleFilter.
Import RoundingError Value ValueFacts FlushFacts.

Local Open Scope Z_scope.

(** Multiplying a normal double by the coefficient makes it strictly
    smaller in magnitude. *)
Lemma mul_coeff64_shrinks (y : float) :
  is_finite y = true ->
  is_finite (y * coeff64)%float = true /\
  mag (y * coeff64)%float <= mag y /\
  (2 ^ 1126 <= mag y -> mag (y * coeff64)%float < mag y).
Proof.
  intros Hy.
  destruct bounds_fit as (_ & _ & _ & [Hc0 Hc1] & _).
  pose proof (mag_sf_nonneg _ (Prim2SF_valid y)) as Hpos. fold (mag y) in Hpos.
  destruct (mul_below y coeff64 y Hy eq_refl) as [Hf Hle].
  { apply Z.mul_le_mono_nonneg_l; assumption. }
  split; [exact Hf|]. split; [exact Hle|].
  intros Hn.
  pose proof (mul_error y coeff64 Hy eq_refl Hf) as E.
  rewrite val_coeff64 in E.
  pose proof (Rabs_val y) as Ry. pose proof (Rabs_val (y * coeff64)%float) as Rq.
  pose proof G_pos as HG. pose proof eta_small as [He _].
  assert (Hbig : (9007199254740992 * eta <= Rabs (val y))%R).
  { rewrite Ry. unfold eta.
    apply IZR_le in Hn.
    change (2 ^ 1126) with (9007199254740992 * 2 ^ 1073) in Hn.
    rewrite mult_IZR in Hn.
    apply (Rmult_le_reg_r G); [exact HG|].
    replace (9007199254740992 * (IZR (2 ^ 1073) / G) * G)%R
      with (9007199254740992 * IZR (2 ^ 1073))%R by (field; lra).
    replace (IZR (mag y) / G * G)%R with (IZR (mag y)) by (field; lra).
    exact Hn. }
  assert (Hlt : (Rabs (val (y * coeff64)%float) < Rabs (val y))%R).
  { rewrite Rabs_mult in E.
    rewrite (Rabs_pos_eq kappa) in E by (unfold kappa; lra).
    apply Rabs_bounds in E.
    set (q := val (y * coeff64)%float) in *. set (t := val y) in *.
    assert (Hq : (Rabs q <= Rabs (t * kappa) + (u * (Rabs t * kappa) + eta))%R).
    { apply Rabs_le. pose proof (Rabs_pos (t * kappa)).
      pose proof (RRle_abs (t * kappa)). pose proof (RRle_abs (- (t * kappa))).
      rewrite Rabs_Ropp in *. lra. }
    rewrite Rabs_mult, (Rabs_pos_eq kappa) in Hq by (unfold kappa; lra).
    unfold u, kappa in *. lra. }
  rewrite Ry, Rq in Hlt.
  apply lt_IZR.
  apply (Rmult_lt_reg_r (/ G)); [now apply Rinv_0_lt_compat|].
  exact Hlt.
Qed.

(** A sequence of magnitudes that never grows, and shrinks as long as it is
    normal, ends up below the normal range. *)
Lemma eventually_small (y : nat -> float) :
  (forall n, mag (y (S n)) <= mag (y n)) ->
  (forall n, 2 ^ 1126 <= mag (y n) -> mag (y (S n)) < mag (y n)) ->
  exists N, forall n, (N <= n)%nat -> mag (y n) < 2 ^ 1126.
Proof.
  intros Hmono Hstrict.
  assert (Hchain : forall k n, (k <= n)%nat -> mag (y n) <= mag (y k)).
  { intros k n H. induction H as [|n H IH]; [lia|].
    specialize (Hmono n). lia. }
  assert (Hpos : forall n, 0 <= mag (y n)).
  { intros n. apply mag_sf_nonneg, Prim2SF_valid. }
  assert (HP : forall z, 0 <= z -> forall k, mag (y k) <= z ->
               exists N, forall n, (N <= n)%nat -> mag (y n) < 2 ^ 1126).
  { intros z Hz. pattern z. apply Z_lt_induction; [|exact Hz].
    clear z Hz. intros z IH k Hk.
    destruct (Z_lt_le_dec (mag (y k)) (2 ^ 1126)) as [Hs|Hb].
    - exists k. intros n Hn.
      apply Z.le_lt_trans with (2 := Hs). now apply Hchain.
    - apply (IH (mag (y (S k)))) with (k := S k).
      + split; [apply Hpos|]. specialize (Hstrict k Hb).
        apply Z.lt_le_trans with (1 := Hstrict). exact Hk.
      + apply Z.le_refl. }
  apply (HP (mag (y 0%nat)) (Hpos 0%nat) 0%nat). apply Z.le_refl.
Qed.

Local Open Scope float_scope.

(** *** The answer to a constant, subnormals kept *)

Lemma normal_nonzero (c : float) :
  is_finite c = true -> (DBL_MIN <=? abs c) = true -> is_zero c = false.
Proof.
  intros Hc Hn. pose proof (normal_mag c Hc Hn) as H.
  destruct (is_zero c) eqn:E; [|reflexivity].
  apply (is_zero_mag c Hc) in E. rewrite E in H.
  exfalso. revert H. apply Z.lt_nge. reflexivity.
Qed.

Lemma step_settles (c : float) :
  is_finite c = true -> (DBL_MIN <=? abs c) = true ->
  Double.step_response c 0 = c /\
  (forall n, Double.step_response c (S n) = Double.step_response c n * coeff64) /\
  (forall n, (abs (Double.step_response c (S n)) <=? abs (Double.step_response c n)) = true) /\
  (forall n, (DBL_MIN <=? abs (Double.step_response c n)) = true ->
             (abs (Double.step_response c (S n)) <? abs (Double.step_response c n)) = true) /\
  (exists N, forall n, (N <= n)%nat ->
             (abs (Double.step_response c n) <? DBL_MIN) = true) /\
  (forall n, is_zero (Double.step_response c n) = false).
Proof.
  intros Hc Hn.
  pose proof (normal_nonzero c Hc Hn) as Hnz.
  pose proof (step_never_zero c Hc Hnz) as Hrec.
  pose proof (step_shrinks c Hc) as Hsh.
  assert (Hmag : forall n,
            (mag (Double.step_response c (S n)) <= mag (Double.step_response c n))%Z /\
            ((2 ^ 1126 <= mag (Double.step_response c n))%Z ->
             (mag (Double.step_response c (S n)) < mag (Double.step_response c n))%Z)).
  { intros n. destruct (Hrec n) as [_ ->]. destruct (Hsh n) as [Hf _].
    destruct (mul_coeff64_shrinks _ Hf) as (_ & H1 & H2). now split. }
  split.
  { unfold Double.step_response, output, zeroed. cbn [after].
    rewrite first_after_clear by reflexivity.
    destruct (Leibniz.eqb c neg_zero) eqn:E; [|reflexivity].
    apply Leibniz.eqb_spec in E. subst c. discriminate Hnz. }
  split; [intros n; apply Hrec|].
  split; [intros n; apply Hsh|].
  split.
  { intros n Hbig. destruct (Hsh n) as [Hf _]. destruct (Hsh (S n)) as [Hf' _].
    apply mag_ltb_abs; try assumption.
    apply (Hmag n). now apply normal_mag. }
  split; [|intros n; apply Hrec].
  destruct (eventually_small (Double.step_response c)) as [N HN].
  - intros n. apply (Hmag n).
  - intros n. apply (Hmag n).
  - exists N. intros n Hle. destruct (Hsh n) as [Hf _].
    apply below_normal_ltb; [exact Hf | now apply HN].
Qed.

(** *** The answer to a constant, subnormals flushed to zero *)

Lemma add_zero_l_sf (p : float) :
  Prim2SF (0 + p) =
  match Prim2SF p with S754_zero _ => S754_zero false | x => x end.
Proof.
  rewrite add_spec. change (Prim2SF 0) with (S754_zero false).
  now destruct (Prim2SF p) as [[|]|[|]| |s m e].
Qed.

Lemma next_sf (z : float) :
  Prim2SF (Flushed.next z) =
  match Prim2SF (Flushed.flush (z * coeff64)) with
  | S754_zero _ => S754_zero false
  | x => x
  end.
Proof.
  unfold Flushed.next. rewrite flush_sf, add_zero_l_sf.
  set (p := Flushed.flush (z * coeff64)).
  pose proof (flush_sf (z * coeff64)) as Hp. fold p in Hp.
  destruct (Prim2SF p) as [s|s| |s m e] eqn:E; try reflexivity.
  (* a flushed finite value is normal *)
  destruct (Prim2SF (z * coeff64)) as [s'|s'| |s' m' e']; try discriminate Hp.
  destruct (Z.ltb_spec (grid (Zpos m') e') (2 ^ 1126)) as [H|H];
    [discriminate Hp|].
  injection Hp as -> -> ->.
  destruct (Z.ltb_spec (grid (Zpos m') e') (2 ^ 1126)) as [H'|H'];
    [|reflexivity].
  exfalso. exact (Z.lt_irrefl _ (Z.lt_le_trans _ _ _ H' H)).
Qed.

Lemma mag_next (z : float) :
  mag (Flushed.next z) = mag (Flushed.flush (z * coeff64)).
Proof.
  unfold mag. rewrite next_sf.
  now destruct (Prim2SF (Flushed.flush (z * coeff64))).
Qed.

Lemma next_finite (z : float) :
  is_finite (Flushed.next z) = is_finite (z * coeff64).
Proof.
  rewrite <- (flush_finite (z * coeff64)), !is_finite_sf, next_sf.
  now destruct (Prim2SF (Flushed.flush (z * coeff64))).
Qed.

Lemma SFcompare_refl (s : bool) (m : positive) (e : Z) :
  SFcompare (S754_finite s m e) (S754_finite s m e) = Some Eq.
Proof.
  unfold SFcompare. rewrite Z.compare_refl, Pos.compare_cont_refl.
  now destruct s.
Qed.

Lemma next_eqb (z : float) :
  is_finite (z * coeff64) = true ->
  (Flushed.next z =? Flushed.flush (z * coeff64)) = true.
Proof.
  rewrite <- flush_finite, is_finite_sf, FloatAxioms.eqb_spec, next_sf.
  destruct (Prim2SF (Flushed.flush (z * coeff64))) as [s|s| |s m e]; try discriminate;
    intros _.
  - now destruct s.
  - unfold SFeqb. now rewrite SFcompare_refl.
Qed.

Lemma step_flushed (c : float) (n : nat) :
  is_finite c = true ->
  Flushed.step_response c (S n) = Flushed.next (Flushed.step_response c n).
Proof.
  intros Hc. unfold Flushed.step_response, Flushed.output.
  rewrite (@output_step float Flushed.binary64_ftz (fun _ => c) n zeroed eq_refl).
  cbn [s_add s_sub s_mul lit_0_9997 Flushed.binary64_ftz].
  rewrite (sub_diag c Hc). reflexivity.
Qed.

Lemma step_flushed_0 (c : float) :
  is_finite c = true -> (DBL_MIN <=? abs c) = true ->
  Flushed.step_response c 0 = c.
Proof.
  intros Hc Hn. pose proof (normal_mag c Hc Hn) as Hm.
  unfold Flushed.step_response, Flushed.output, output.
  cbn [after].
  rewrite (@calculate_filtering float Flushed.binary64_ftz c zeroed eq_refl).
  cbn [fst s_add s_sub s_mul lit_0_9997 Flushed.binary64_ftz].
  change (x_1 zeroed) with 0. change (y_1 zeroed) with 0.
  rewrite sub_zero_r, (flush_normal c Hm).
  change (Flushed.flush (0 * coeff64)) with 0.
  rewrite add_zero_r.
  - now apply flush_normal.
  - intros ->. revert Hm. apply Z.lt_nge. reflexivity.
Qed.

(** A sequence that goes on by [next] from a finite double that is zero or
    normal: it stays so, never grows, and shrinks while it is not zero. *)
Lemma next_chain (z : nat -> float) :
  is_finite (z 0%nat) = true ->
  (mag (z 0%nat) = 0 \/ 2 ^ 1126 <= mag (z 0%nat))%Z ->
  (forall n, z (S n) = Flushed.next (z n)) ->
  forall n,
    is_finite (z n) = true /\
    (mag (z n) = 0 \/ 2 ^ 1126 <= mag (z n))%Z /\
    (mag (z (S n)) <= mag (z n))%Z /\
    ((2 ^ 1126 <= mag (z n))%Z -> (mag (z (S n)) < mag (z n))%Z).
Proof.
  intros H0 M0 Hnext.
  assert (Hstep : forall y, is_finite y = true ->
            is_finite (Flushed.next y) = true /\
            (mag (Flushed.next y) = 0 \/ 2 ^ 1126 <= mag (Flushed.next y))%Z /\
            (mag (Flushed.next y) <= mag y)%Z /\
            ((2 ^ 1126 <= mag y)%Z -> (mag (Flushed.next y) < mag y)%Z)).
  { intros y Hy. destruct (mul_coeff64_shrinks y Hy) as (Hf & Hle & Hlt).
    rewrite next_finite, mag_next, mag_flush.
    pose proof (mag_sf_nonneg _ (Prim2SF_valid (y * coeff64))) as Hpos.
    fold (mag (y * coeff64)) in Hpos.
    split; [exact Hf|].
    destruct (Z.ltb_spec (mag (y * coeff64)) (2 ^ 1126)) as [H|H].
    - split; [now left|]. split.
      + apply Z.le_trans with (2 := Hle). exact Hpos.
      + intros Hb. apply Z.lt_le_trans with (2 := Hb). reflexivity.
    - split; [now right|]. split; [exact Hle | exact Hlt]. }
  assert (Hinv : forall n, is_finite (z n) = true /\
            (mag (z n) = 0 \/ 2 ^ 1126 <= mag (z n))%Z).
  { induction n as [|n [IH1 IH2]]; [now split|].
    rewrite (Hnext n). destruct (Hstep _ IH1) as (H1 & H2 & _). now split. }
  intros n. destruct (Hinv n) as [H1 H2].
  split; [exact H1|]. split; [exact H2|].
  rewrite (Hnext n). destruct (Hstep _ H1) as (_ & _ & H3 & H4).
  now split.
Qed.

Lemma next_chain_zero (z : nat -> float) :
  is_finite (z 0%nat) = true ->
  (mag (z 0%nat) = 0 \/ 2 ^ 1126 <= mag (z 0%nat))%Z ->
  (forall n, z (S n) = Flushed.next (z n)) ->
  exists N, forall n, (N <= n)%nat -> is_zero (z n) = true.
Proof.
  intros H0 M0 Hnext. pose proof (next_chain z H0 M0 Hnext) as Hinv.
  destruct (eventually_small z) as [N HN].
  - intros n. apply (Hinv n).
  - intros n. apply (Hinv n).
  - exists N. intros n Hle. destruct (Hinv n) as (Hf & [Hz|Hb] & _).
    + now apply is_zero_mag.
    + exfalso. specialize (HN n Hle).
      exact (Z.lt_irrefl _ (Z.lt_le_trans _ _ _ HN Hb)).
Qed.

Lemma flushed_invariant (c : float) :
  is_finite c = true -> (DBL_MIN <=? abs c) = true ->
  forall n,
    is_finite (Flushed.step_response c n) = true /\
    (mag (Flushed.step_response c n) = 0 \/
     2 ^ 1126 <= mag (Flushed.step_response c n))%Z /\
    (mag (Flushed.step_response c (S n)) <= mag (Flushed.step_response c n))%Z /\
    ((2 ^ 1126 <= mag (Flushed.step_response c n))%Z ->
     (mag (Flushed.step_response c (S n)) < mag (Flushed.step_response c n))%Z).
Proof.
  intros Hc Hn. apply next_chain.
  - now rewrite (step_flushed_0 c Hc Hn).
  - right. rewrite (step_flushed_0 c Hc Hn). now apply normal_mag.
  - intros n. now apply step_flushed.
Qed.

Lemma flushed_eventually_zero (c : float) :
  is_finite c = true -> (DBL_MIN <=? abs c) = true ->
  exists N, forall n, (N <= n)%nat ->
    is_zero (Flushed.step_response c n) = true.
Proof.
  intros Hc Hn. apply next_chain_zero.
  - now rewrite (step_flushed_0 c Hc Hn).
  - right. rewrite (step_flushed_0 c Hc Hn). now apply normal_mag.
  - intros n. now apply step_flushed.
Qed.

(** While a finite input is held, from any history, the outputs go on by
    [next]; the first one is a flushed double. *)
Lemma hold_flushed (c : float) (d : dcblocker float) :
  bypass d = false -> is_finite c = true ->
  (mag (Flushed.output (fun _ => c) 0 d) = 0 \/
   2 ^ 1126 <= mag (Flushed.output (fun _ => c) 0 d))%Z /\
  forall n, Flushed.output (fun _ => c) (S n) d =
            Flushed.next (Flushed.output (fun _ => c) n d).
Proof.
  intros Hb Hc. split.
  - unfold Flushed.output, output. cbn [after].
    rewrite (@calculate_filtering float Flushed.binary64_ftz c d Hb).
    cbn [fst s_add s_sub s_mul lit_0_9997 Flushed.binary64_ftz].
    rewrite mag_flush.
    match goal with |- context [(?m <? _)%Z] =>
      destruct (Z.ltb_spec m (2 ^ 1126)) as [H|H] end;
      [now left | now right].
  - intros n. unfold Flushed.output.
    rewrite (@output_step float Flushed.binary64_ftz (fun _ => c) n d Hb).
    cbn [s_add s_sub s_mul lit_0_9997 Flushed.binary64_ftz].
    rewrite (sub_diag c Hc). reflexivity.
Qed.

Lemma step_flushes (c : float) :
  is_finite c = true -> (DBL_MIN <=? abs c) = true ->
  Flushed.step_response c 0 = c /\
  (forall n, (Flushed.step_response c (S n) =?
              Flushed.flush (Flushed.step_response c n * coeff64)) = true) /\
  decays (Flushed.step_response c) /\
  (forall n, is_zero (Flushed.step_response c n) = false ->
             (abs (Flushed.step_response c (S n)) <?
              abs (Flushed.step_response c n)) = true) /\
  (exists N, forall n, (N <= n)%nat ->
             is_zero (Flushed.step_response c n) = true).
Proof.
  intros Hc Hn. pose proof (flushed_invariant c Hc Hn) as Hinv.
  pose proof (flushed_eventually_zero c Hc Hn) as Hzero.
  split; [now apply step_flushed_0|].
  split.
  { intros n. rewrite (step_flushed c n Hc). apply next_eqb.
    destruct (Hinv n) as (Hf & _). now destruct (mul_coeff64_shrinks _ Hf). }
  split.
  { split.
    - intros n. destruct (Hinv n) as (Hf & _ & Hle & _).
      destruct (Hinv (S n)) as (Hf' & _).
      now apply mag_leb_abs.
    - intros eps Heps. destruct Hzero as [N HN]. exists N. intros n Hle.
      specialize (HN n Hle). rewrite is_zero_sf in HN.
      rewrite ltb_spec, abs_spec. rewrite ltb_spec in Heps.
      change (Prim2SF 0) with (S754_zero false) in Heps.
      destruct (Prim2SF (Flushed.step_response c n)); try discriminate HN.
      exact Heps. }
  split; [|exact Hzero].
  intros n Hnz. destruct (Hinv n) as (Hf & Hcase & _ & Hlt).
  destruct (Hinv (S n)) as (Hf' & _).
  apply mag_ltb_abs; try assumption. apply Hlt.
  destruct Hcase as [H0|Hb]; [|exact Hb].
  apply (is_zero_mag _ Hf) in H0. congruence.
Qed.

End StepResponse.

(** ** Blocks of doubles, in either environment *)

Module Blocks.

Import Double Magnitude Rounding Value ValueFacts FlushFacts Tolerance.
Import ModelFacts Environments.

Local Open Scope R_scope.

Lemma val_1p1000 : 0 <= val 0x1p1000%float <= Omega / 16.
Proof.
  unfold val, sgrid, Omega.
  change (sgrid_sf (Prim2SF 0x1p1000%float)) with (2 ^ 3148)%Z.
  change (2 ^ 3171)%Z with (2 ^ 3148 * 8388608)%Z.
  rewrite mult_IZR. pose proof G_pos.
  assert (0 < IZR (2 ^ 3148)) by (apply IZR_lt; reflexivity).
  assert (0 < / G) by now apply Rinv_0_lt_compat.
  unfold Rdiv. split; nra.
Qed.

Lemma val_1pm1000 : val 0x1p-1000%float = 37778931862957161709568 * eta.
Proof.
  unfold val, sgrid, eta.
  change (sgrid_sf (Prim2SF 0x1p-1000%float))
    with (37778931862957161709568 * 2 ^ 1073)%Z.
  rewrite mult_IZR. pose proof G_pos. field. lra.
Qed.

(** Both environments have an absolute error that 2^-1000 covers 65536
    times over. *)
Lemma unit_covered (h : R) :
  h = eta \/ h = val DBL_MIN + eta -> 0 <= 65536 * h <= val 0x1p-1000%float.
Proof.
  rewrite val_1pm1000, val_DBL_MIN. pose proof eta_small as [He _].
  intros [->| ->]; lra.
Qed.

Lemma near_weaken (tol tol' : R) (ls rs : list float) :
  tol <= tol' ->
  Forall2 (Track.near finite val tol) ls rs -> Forall2 (near tol') ls rs.
Proof.
  intros Hle H. induction H as [|l r ls rs (Fl & Fr & Hn) _ IH]; constructor.
  - unfold near. repeat split; try assumption. lra.
  - exact IH.
Qed.

(** Superposition within tolerance, in any rounded arithmetic on doubles
    whose absolute error 2^-1000 covers. *)
Lemma superposition_near (arith : SampleArith float) (h : R)
    (a b : float) (A B : list float) (d : dcblocker float) :
  rounded arith finite val h ->
  0 <= 65536 * h <= val 0x1p-1000%float ->
  bypass d = false ->
  length A = length B ->
  is_finite a = true -> is_finite b = true ->
  forallb is_finite A = true -> forallb is_finite B = true ->
  peak A <= val 0x1p1000%float -> peak B <= val 0x1p1000%float ->
  Rabs (val a) * peak A + Rabs (val b) * peak B <= val 0x1p1000%float ->
  Forall2 (near (superposition_tolerance a b A B))
    (fst (@perform float arith (@superpose float arith a b A B)
            (@clear float arith d)))
    (@superpose float arith a b
       (fst (@perform float arith A (@clear float arith d)))
       (fst (@perform float arith B (@clear float arith d)))).
Proof.
  intros Hm Hh Hb Hlen Fa Fb FA FB PA PB PS.
  pose proof val_1p1000 as [_ H1000].
  pose proof (peak_nonneg A) as NA. pose proof (peak_nonneg B) as NB.
  assert (RA : 0 <= peak A <= Omega / 16) by lra.
  assert (RB : 0 <= peak B <= Omega / 16) by lra.
  assert (RS : Track.scale val a b (peak A) (peak B) <= Omega / 16)
    by (unfold Track.scale; lra).
  apply (near_weaken (Track.tolerance val h a b (peak A) (peak B))).
  - unfold Track.tolerance, Track.scale, Track.weight, superposition_tolerance.
    pose proof (Rabs_pos (val a)). pose proof (Rabs_pos (val b)).
    assert ((1 + Rabs (val a) + Rabs (val b)) * (65536 * h) <=
            (1 + Rabs (val a) + Rabs (val b)) * val 0x1p-1000%float)
      by (apply Rmult_le_compat_l; lra).
    lra.
  - apply (perform_tracking finite val h Hm a b (peak A) (peak B) Fa Fb RA RB RS);
      try assumption.
    + now apply peak_within.
    + now apply peak_within.
    + now apply (tracking_clear finite val h Hm a b (peak A) (peak B) Fa Fb RA RB).
Qed.

(** Headroom, in the same arithmetics. *)
Lemma headroom_near (arith : SampleArith float) (h : R)
    (xs : list float) (d : dcblocker float) :
  rounded arith finite val h ->
  0 <= 65536 * h <= val 0x1p-1000%float ->
  bypass d = false ->
  forallb is_finite xs = true ->
  peak xs <= val 0x1p1000%float ->
  Forall2 (near (headroom xs))
    (fst (@perform float arith xs (@clear float arith d))) xs.
Proof.
  intros Hm Hh Hb Fxs Pxs.
  pose proof val_1p1000 as [_ H1000].
  pose proof (peak_nonneg xs) as Nxs.
  assert (RB : 0 <= peak xs <= Omega / 8) by (pose proof Omega_big; lra).
  apply (near_weaken ((1 + theta) * peak xs + K * h)).
  - unfold headroom, theta, K. lra.
  - apply (perform_steady finite val h Hm (peak xs) xs RB).
    + now apply peak_within.
    + apply (steady_clear finite val h Hm); [lra | exact Hb].
Qed.

Lemma val_one : val 1%float = 1.
Proof.
  unfold val, sgrid. change (sgrid_sf (Prim2SF 1%float)) with (2 ^ 2148)%Z.
  fold G. pose proof G_pos. field. lra.
Qed.

(** The blocks [[1; 0]] and [[0; 1]] with the factors 1 and 1 are in
    range. *)
Lemma example_in_range :
  peak [1; 0]%float <= val 0x1p1000%float /\
  peak [0; 1]%float <= val 0x1p1000%float /\
  Rabs (val 1%float) * peak [1; 0]%float +
  Rabs (val 1%float) * peak [0; 1]%float <= val 0x1p1000%float.
Proof.
  assert (Hbig : 2 <= val 0x1p1000%float).
  { unfold val, sgrid.
    change (sgrid_sf (Prim2SF 0x1p1000%float)) with (2 ^ 1000 * 2 ^ 2148)%Z.
    rewrite mult_IZR. fold G. pose proof G_pos.
    replace (IZR (2 ^ 1000) * G / G) with (IZR (2 ^ 1000)) by (field; lra).
    apply IZR_le. apply Z.leb_le. reflexivity. }
  assert (P1 : peak [1; 0]%float = 1).
  { unfold peak. cbn [map fold_right]. rewrite val_one, val_zero.
    rewrite Rabs_R1, Rabs_R0. rewrite (Rmax_left 0 0) by lra.
    apply Rmax_left. lra. }
  assert (P2 : peak [0; 1]%float = 1).
  { unfold peak. cbn [map fold_right]. rewrite val_one, val_zero.
    rewrite Rabs_R1, Rabs_R0. rewrite (Rmax_left 1 0) by lra.
    apply Rmax_right. lra. }
  rewrite P1, P2, val_one, Rabs_R1. repeat split; lra.
Qed.

(** NaN is below nothing. *)
Lemma nan_leb (t : float) : (nan <=? t)%float = false.
Proof. rewrite leb_spec. reflexivity. Qed.

End Blocks.

(** ** The filter in exact arithmetic *)

Module IdealFilter.

Import Ideal.

Local Open Scope R_scope.

(** The filtering branch, with the operators of the reals. *)
Lemma calculate_exact (x : R) (d : dcblocker R) :
  bypass d = false ->
  calculate x d =
  (x - x_1 d + y_1 d * (9997 / 10000),
   {| x_1 := x; y_1 := x - x_1 d + y_1 d * (9997 / 10000); bypass := false |}).
Proof. intros Hb. now rewrite (calculate_filtering x d Hb). Qed.

Lemma perform_silence_exact (m : nat) :
  perform (repeat 0 m) zeroed = (repeat 0 m, zeroed).
Proof.
  induction m as [|m IH]; [reflexivity|].
  cbn [repeat perform]. rewrite calculate_exact by reflexivity.
  cbn [zeroed x_1 y_1].
  replace (0 - 0 + 0 * (9997 / 10000)) with 0 by lra.
  fold zeroed. now rewrite IH.
Qed.

End IdealFilter.

(** * The claims *)

Local Open Scope float_scope.

(** C1: for every state and every input sample [x], if [bypass] is false
    then [calculate x] returns [y = x - x_1 + y_1 * 0.9997], and after the
    call [y_1] is the returned [y] and [x_1] is [x]. *)
Theorem C1_calculate_filters (x : float) (d : dcblocker float) :
  bypass d = false ->
  fst (calculate x d) = x - x_1 d + y_1 d * coeff64 /\
  y_1 (snd (calculate x d)) = fst (calculate x d) /\
  x_1 (snd (calculate x d)) = x.
Proof.
  intros Hb. rewrite (DoubleFilter.calculate_double x d Hb).
  repeat split.
Qed.

Lemma C1_calculate_filters_witness :
  bypass (Dcblocker 0.5 0.25 false) = false /\
  fst (calculate 1 (Dcblocker 0.5 0.25 false)) = 1 - 0.5 + 0.25 * coeff64 /\
  y_1 (snd (calculate 1 (Dcblocker 0.5 0.25 false))) =
    fst (calculate 1 (Dcblocker 0.5 0.25 false)) /\
  x_1 (snd (calculate 1 (Dcblocker 0.5 0.25 false))) = 1.
Proof.
  split; [reflexivity|].
  apply (C1_calculate_filters 1 (Dcblocker 0.5 0.25 false)). reflexivity.
Defined.

(** C2, at the input where the code departs from it: an object built over
    storage that held 1.0 in both history slots has histories 1.0, not 0.0;
    only the attribute has its default. Its first filtered sample for the
    input 1.0 is 0.9997 (rounded), where a zeroed filter returns 1.0. *)
Theorem C2_constructor_leaves_history :
  x_1 (dcblocker_new 1 1) = 1 /\
  y_1 (dcblocker_new 1 1) = 1 /\
  bypass (dcblocker_new 1 1) = false /\
  fst (calculate 1 (dcblocker_new 1 1)) = coeff64 /\
  fst (calculate 1 (clear (dcblocker_new 1 1))) = 1.
Proof. repeat split. Qed.

(** C3: for every finite input [x] and every state, if [bypass] is true then
    [calculate x] returns [x] (the same double, so equal under [==] too) and
    leaves [x_1] and [y_1] as they were. *)
Theorem C3_bypass_identity (x : float) (d : dcblocker float) :
  is_finite x = true ->
  bypass d = true ->
  fst (calculate x d) = x /\
  (fst (calculate x d) =? x) = true /\
  x_1 (snd (calculate x d)) = x_1 d /\
  y_1 (snd (calculate x d)) = y_1 d.
Proof.
  intros Hx Hb. rewrite (calculate_bypassed x d Hb). cbn [fst snd].
  repeat split.
  unfold is_finite, is_nan in Hx.
  destruct (x =? x); [reflexivity | discriminate Hx].
Qed.

Lemma C3_bypass_identity_witness :
  is_finite 0.75 = true /\
  bypass (Dcblocker 0.5 0.25 true) = true /\
  fst (calculate 0.75 (Dcblocker 0.5 0.25 true)) = 0.75 /\
  (fst (calculate 0.75 (Dcblocker 0.5 0.25 true)) =? 0.75) = true /\
  x_1 (snd (calculate 0.75 (Dcblocker 0.5 0.25 true))) = 0.5 /\
  y_1 (snd (calculate 0.75 (Dcblocker 0.5 0.25 true))) = 0.25.
Proof.
  split; [reflexivity|]. split; [reflexivity|].
  apply (C3_bypass_identity 0.75 (Dcblocker 0.5 0.25 true)); reflexivity.
Defined.




(** C5, as stated, fails in both environments, at an infinite constant and
    at a subnormal one. For [c = +infinity] the second output is
    [(inf - inf) + inf * 0.9997 = NaN], which is not [0.9997 * inf] under
    any reading. For the smallest positive double: with subnormals kept
    every output is the constant itself ([c * 0.9997] rounds back to [c]),
    so the outputs do not tend to 0; with subnormals flushed the first
    output is already 0, not [c]. *)
Lemma C5_counterexample :
  ~ Double.step_response_as_stated infinity /\
  ~ Flushed.step_response_as_stated infinity /\
  ~ Double.step_response_as_stated Double.DBL_TRUE_MIN /\
  ~ Flushed.step_response_as_stated Double.DBL_TRUE_MIN.
Proof.
  split; [|split; [|split]].
  - intros (_ & Hrec & _). specialize (Hrec 0%nat).
    vm_compute in Hrec. discriminate Hrec.
  - intros (_ & Hrec & _). specialize (Hrec 0%nat).
    vm_compute in Hrec. discriminate Hrec.
  - intros (_ & _ & _ & Hlim).
    destruct (Hlim Double.DBL_TRUE_MIN eq_refl) as [N HN].
    specialize (HN N (le_n N)).
    rewrite DoubleFilter.stuck_at_DBL_TRUE_MIN in HN.
    vm_compute in HN. discriminate HN.
  - intros (H0 & _). vm_compute in H0. discriminate H0.
Qed.

(** C5, amended: for every finite constant [c] of normal magnitude, at
    least 2^-1022, the answer to [c, c, c, ...] from a zeroed filter starts
    with [c] and goes on by the recurrence of the code, each output the
    previous one times the coefficient, rounded; its magnitude never grows,
    and shrinks at every step while the output is normal. What happens
    below the normal range depends on the environment.

    With subnormals flushed to zero, which the source says the host sets,
    the claim holds as stated: [y 0 = c], [y (n+1) == 0.9997 * y n] with
    the product rounded and flushed, and the magnitude decreases with limit
    0; indeed the outputs are 0 from some sample on. (The recurrence holds
    under [==] and not bit for bit: a negative product flushed to -0.0
    comes out as +0.0, since the cancelled input [c - c = +0.0] is added
    to it.)

    With subnormals kept the outputs fall below 2^-1022 after finitely many
    samples, but none of them is zero. *)
Theorem C5_step_response (c : float) :
  is_finite c = true ->
  (Double.DBL_MIN <=? abs c) = true ->
  (Flushed.step_response_as_stated c /\
   Flushed.step_response c 0 = c /\
   (forall n, is_zero (Flushed.step_response c n) = false ->
              (abs (Flushed.step_response c (S n)) <?
               abs (Flushed.step_response c n)) = true) /\
   (exists N, forall n, (N <= n)%nat ->
              is_zero (Flushed.step_response c n) = true)) /\
  (Double.step_response c 0 = c /\
   (forall n, Double.step_response c (S n) =
              Double.step_response c n * coeff64) /\
   (forall n, (abs (Double.step_response c (S n)) <=?
               abs (Double.step_response c n)) = true) /\
   (forall n, (Double.DBL_MIN <=? abs (Double.step_response c n)) = true ->
              (abs (Double.step_response c (S n)) <?
               abs (Double.step_response c n)) = true) /\
   (exists N, forall n, (N <= n)%nat ->
              (abs (Double.step_response c n) <? Double.DBL_MIN) = true) /\
   (forall n, is_zero (Double.step_response c n) = false)).
Proof.
  intros Hc Hn. split.
  - destruct (StepResponse.step_flushes c Hc Hn) as (H0 & Hrec & Hdec & Hlt & Hz).
    split; [|split; [exact H0 | split; [exact Hlt | exact Hz]]].
    split; [|split; [exact Hrec | exact Hdec]].
    rewrite H0. unfold is_finite, is_nan in Hc.
    destruct (c =? c); [reflexivity | discriminate Hc].
  - now apply StepResponse.step_settles.
Qed.

Lemma C5_step_response_witness :
  is_finite 1 = true /\
  (Double.DBL_MIN <=? abs 1) = true /\
  (Flushed.step_response_as_stated 1 /\
   Flushed.step_response 1 0 = 1 /\
   (forall n, is_zero (Flushed.step_response 1 n) = false ->
              (abs (Flushed.step_response 1 (S n)) <?
               abs (Flushed.step_response 1 n)) = true) /\
   (exists N, forall n, (N <= n)%nat ->
              is_zero (Flushed.step_response 1 n) = true)) /\
  (Double.step_response 1 0 = 1 /\
   (forall n, Double.step_response 1 (S n) =
              Double.step_response 1 n * coeff64) /\
   (forall n, (abs (Double.step_response 1 (S n)) <=?
               abs (Double.step_response 1 n)) = true) /\
   (forall n, (Double.DBL_MIN <=? abs (Double.step_response 1 n)) = true ->
              (abs (Double.step_response 1 (S n)) <?
               abs (Double.step_response 1 n)) = true) /\
   (exists N, forall n, (N <= n)%nat ->
              (abs (Double.step_response 1 n) <? Double.DBL_MIN) = true) /\
   (forall n, is_zero (Double.step_response 1 n) = false)).
Proof.
  split; [reflexivity|]. split; [reflexivity|].
  apply (C5_step_response 1); reflexivity.
Defined.

(** C6, as stated, fails in both environments even within a tolerance,
    however large, once a product overflows. With [a = 2^600], [b = 0],
    [A = [2^600; 2^600]] and [B = [0; 0]], all finite, the mixed input
    [a*A + b*B] is [[inf; inf]] and its second output is
    [(inf - inf) + inf * 0.9997 = NaN], while [a] times the second output
    of [A], [2^600 * (2^600 * 0.9997)], is [inf]. *)
Lemma C6_counterexample :
  ~ Double.superposition_as_stated 0x1p600 0 [0x1p600; 0x1p600] [0; 0] /\
  ~ Flushed.superposition_as_stated 0x1p600 0 [0x1p600; 0x1p600] [0; 0].
Proof.
  split; intros [tol H]; vm_compute in H;
    inversion H as [|? ? ? ? _ H1]; subst;
    inversion H1 as [|? ? ? ? H2 _]; subst;
    unfold Double.agree in H2;
    change (nan - infinity) with nan in H2; change (abs nan) with nan in H2;
    rewrite Blocks.nan_leb in H2; discriminate H2.
Qed.

(** C6, amended: the filter is linear within floating-point tolerance as
    long as nothing overflows. For finite factors [a], [b] and finite
    blocks [A], [B] of equal length, with samples of magnitude at most
    2^1000 and a mixed input [|a| * peak A + |b| * peak B] of at most
    2^1000, the outputs for [a*A + b*B] from a zeroed filter and [a] times
    the outputs for [A] plus [b] times the outputs for [B], each from its
    own zeroed filter, are finite and, sample by sample, at most 2^-35 of
    the mixed input apart (plus 2^-1000 per factor, for underflow); no
    sample is dropped. In both environments. *)
Theorem C6_superposition (a b : float) (A B : list float) :
  length A = length B ->
  is_finite a = true -> is_finite b = true ->
  forallb is_finite A = true -> forallb is_finite B = true ->
  (Value.peak A <= Value.val 0x1p1000)%R ->
  (Value.peak B <= Value.val 0x1p1000)%R ->
  (Rabs (Value.val a) * Value.peak A + Rabs (Value.val b) * Value.peak B <=
   Value.val 0x1p1000)%R ->
  Forall2 (Value.near (Value.superposition_tolerance a b A B))
    (fst (perform (superpose a b A B) Double.zeroed))
    (superpose a b (fst (perform A Double.zeroed))
                   (fst (perform B Double.zeroed))) /\
  Forall2 (Value.near (Value.superposition_tolerance a b A B))
    (fst (Flushed.perform (Flushed.superpose a b A B) Double.zeroed))
    (Flushed.superpose a b (fst (Flushed.perform A Double.zeroed))
                           (fst (Flushed.perform B Double.zeroed))).
Proof.
  intros Hlen Fa Fb FA FB PA PB PS. split.
  - apply (Blocks.superposition_near binary64 Value.eta a b A B
             (dcblocker_new Double.DBL_MAX Double.DBL_TRUE_MIN));
      try assumption; try reflexivity.
    + apply Environments.binary64_rounded.
    + apply Blocks.unit_covered. now left.
  - apply (Blocks.superposition_near Flushed.binary64_ftz
             (Value.val Double.DBL_MIN + Value.eta) a b A B
             (dcblocker_new Double.DBL_MAX Double.DBL_TRUE_MIN));
      try assumption; try reflexivity.
    + apply Environments.ftz_rounded.
    + apply Blocks.unit_covered. now right.
Qed.

Lemma C6_superposition_witness :
  length [1; 0] = length [0; 1] /\
  is_finite 1 = true /\ is_finite 1 = true /\
  forallb is_finite [1; 0] = true /\ forallb is_finite [0; 1] = true /\
  (Value.peak [1; 0]%float <= Value.val 0x1p1000)%R /\
  (Value.peak [0; 1]%float <= Value.val 0x1p1000)%R /\
  (Rabs (Value.val 1) * Value.peak [1; 0]%float +
   Rabs (Value.val 1) * Value.peak [0; 1]%float <= Value.val 0x1p1000)%R /\
  Forall2 (Value.near (Value.superposition_tolerance 1 1 [1; 0] [0; 1]))
    (fst (perform (superpose 1 1 [1; 0] [0; 1]) Double.zeroed))
    (superpose 1 1 (fst (perform [1; 0] Double.zeroed))
                   (fst (perform [0; 1] Double.zeroed))) /\
  Forall2 (Value.near (Value.superposition_tolerance 1 1 [1; 0] [0; 1]))
    (fst (Flushed.perform (Flushed.superpose 1 1 [1; 0] [0; 1]) Double.zeroed))
    (Flushed.superpose 1 1 (fst (Flushed.perform [1; 0] Double.zeroed))
                           (fst (Flushed.perform [0; 1] Double.zeroed))).
Proof.
  destruct Blocks.example_in_range as (H1 & H2 & H3).
  split; [reflexivity|]. split; [reflexivity|]. split; [reflexivity|].
  split; [reflexivity|]. split; [reflexivity|].
  split; [exact H1|]. split; [exact H2|]. split; [exact H3|].
  apply (C6_superposition 1 1 [1; 0] [0; 1]);
    [reflexivity | reflexivity | reflexivity | reflexivity | reflexivity
    | exact H1 | exact H2 | exact H3].
Defined.

(** C7, as stated, fails in its second half: after [clear], the finite
    inputs [DBL_MAX, -DBL_MAX] give the outputs [DBL_MAX, -infinity]; the
    subtraction [-DBL_MAX - DBL_MAX] overflows. *)
Lemma C7_counterexample : ~ Double.recovery_as_stated.
Proof.
  intros H.
  specialize (H Double.zeroed [Double.DBL_MAX; - Double.DBL_MAX] eq_refl eq_refl).
  vm_compute in H. discriminate H.
Qed.

(** C7, amended: once a NaN sample has gone through the filter while it is
    not bypassed, every later filtered output is NaN, whatever samples and
    bypass changes follow, as long as [clear] is not called; after [clear],
    all outputs are finite again provided every later input is at most
    2^1010 in magnitude. (Larger finite inputs can overflow.) *)
Theorem C7_nan_until_clear
  (d : dcblocker float) (cs : list (call float)) (x : float) (xs : list float) :
  bypass d = false ->
  forallb (fun c => negb (is_clear c)) cs = true ->
  bypass (snd (drive cs (snd (calculate nan d)))) = false ->
  forallb Magnitude.in_range xs = true ->
  fst (calculate nan d) = nan /\
  fst (calculate x (snd (drive cs (snd (calculate nan d))))) = nan /\
  forallb is_finite
    (fst (perform xs (clear (snd (drive cs (snd (calculate nan d))))))) = true.
Proof.
  intros Hb Hcs Hb' Hxs.
  destruct (DoubleFilter.nan_poisons d Hb) as [Hout Hy].
  split; [exact Hout|]. split.
  - apply DoubleFilter.poisoned_output; [|exact Hb'].
    now apply DoubleFilter.poisoned_drive.
  - apply DoubleFilter.perform_tame; [apply DoubleFilter.tame_clear | exact Hxs].
Qed.

Lemma C7_nan_until_clear_witness :
  bypass (Dcblocker 0.5 0.25 false) = false /\
  forallb (fun c => negb (is_clear c))
    [Signal 1; Bypass true; Signal 2; Bypass false; Signal 3] = true /\
  forallb Magnitude.in_range [1; -0.5; Magnitude.input_bound] = true /\
  fst (calculate nan (Dcblocker 0.5 0.25 false)) = nan /\
  fst (calculate 4
         (snd (drive [Signal 1; Bypass true; Signal 2; Bypass false; Signal 3]
                 (snd (calculate nan (Dcblocker 0.5 0.25 false)))))) = nan /\
  forallb is_finite
    (fst (perform [1; -0.5; Magnitude.input_bound]
            (clear
               (snd (drive [Signal 1; Bypass true; Signal 2; Bypass false; Signal 3]
                       (snd (calculate nan (Dcblocker 0.5 0.25 false)))))))) = true.
Proof.
  split; [reflexivity|]. split; [reflexivity|]. split; [reflexivity|].
  apply (C7_nan_until_clear (Dcblocker 0.5 0.25 false)
           [Signal 1; Bypass true; Signal 2; Bypass false; Signal 3] 4
           [1; -0.5; Magnitude.input_bound]);
    reflexivity.
Defined.

(** C9: the bypass identity holds for every input, NaN and the infinities
    included: if [bypass] is true, [calculate x] returns [x] and leaves the
    object as it was, and so does a whole block of samples; nothing enters
    the history while bypassed. *)
Theorem C9_bypass_identity_any
  (x : float) (xs : list float) (d : dcblocker float) :
  bypass d = true ->
  calculate x d = (x, d) /\ perform xs d = (xs, d).
Proof.
  intros Hb. split.
  - now apply calculate_bypassed.
  - now apply perform_bypassed.
Qed.

Lemma C9_bypass_identity_any_witness :
  bypass (Dcblocker 0.5 0.25 true) = true /\
  calculate nan (Dcblocker 0.5 0.25 true) = (nan, Dcblocker 0.5 0.25 true) /\
  perform [nan; infinity; neg_infinity] (Dcblocker 0.5 0.25 true) =
    ([nan; infinity; neg_infinity], Dcblocker 0.5 0.25 true).
Proof.
  split; [reflexivity|].
  apply (C9_bypass_identity_any nan [nan; infinity; neg_infinity]
           (Dcblocker 0.5 0.25 true)).
  reflexivity.
Defined.

(** C10: [clear] erases the history. Two objects with the same bypass flag,
    both cleared and then given the same sequence of calls (samples, bypass
    changes, further clears), return the same samples and end in the same
    state, whatever the arithmetic of [sample]. *)
Theorem C10_clear_erases_history
  {sample : Type} {arith : SampleArith sample}
  (d1 d2 : dcblocker sample) (cs : list (call sample)) :
  bypass d1 = bypass d2 ->
  drive cs (clear d1) = drive cs (clear d2).
Proof. intros Hb. now rewrite (clear_forgets d1 d2 Hb). Qed.

Lemma C10_clear_erases_history_witness :
  bypass (Dcblocker nan infinity false) = bypass (Dcblocker 0.5 0.25 false) /\
  drive [Signal 1; Bypass true; Signal 2; Bypass false; Signal 3]
        (clear (Dcblocker nan infinity false)) =
  drive [Signal 1; Bypass true; Signal 2; Bypass false; Signal 3]
        (clear (Dcblocker 0.5 0.25 false)).
Proof.
  split; [reflexivity|].
  apply (C10_clear_erases_history (Dcblocker nan infinity false)
           (Dcblocker 0.5 0.25 false)
           [Signal 1; Bypass true; Signal 2; Bypass false; Signal 3]).
  reflexivity.
Defined.

(** * Further properties *)

(** ** In any arithmetic *)

(** Bypass is transparent: from a filtering object, switching bypass on,
    feeding samples and switching it off again returns those samples as they
    are, and everything after is as if they had never been fed. *)
Theorem bypass_is_transparent
  {sample : Type} {arith : SampleArith sample}
  (xs : list sample) (cs : list (call sample)) (d : dcblocker sample) :
  bypass d = false ->
  drive (Bypass true :: map Signal xs ++ Bypass false :: cs) d =
  (xs ++ fst (drive cs d), snd (drive cs d)).
Proof.
  intros Hb. cbn [drive]. rewrite drive_bypassed by reflexivity.
  cbn [drive].
  replace (set_bypass false (set_bypass true d)) with d; [reflexivity|].
  destruct d as [x y b]. cbn in Hb. subst b. reflexivity.
Qed.

Lemma bypass_is_transparent_witness :
  bypass (Dcblocker 0.5 0.25 false) = false /\
  drive (Bypass true :: map Signal [nan; 2] ++ Bypass false :: [Signal 3])
        (Dcblocker 0.5 0.25 false) =
  ([nan; 2] ++ fst (drive [Signal 3] (Dcblocker 0.5 0.25 false)),
   snd (drive [Signal 3] (Dcblocker 0.5 0.25 false))).
Proof.
  split; [reflexivity|].
  apply (bypass_is_transparent [nan; 2] [Signal 3] (Dcblocker 0.5 0.25 false)).
  reflexivity.
Defined.

(** The histories are the last filtered sample and the last output: after
    any block that ends with [x], fed to a filtering object, [x_1] is [x] and
    [y_1] is the last sample returned. *)
Theorem history_is_last_sample
  {sample : Type} {arith : SampleArith sample}
  (xs : list sample) (x : sample) (d : dcblocker sample) :
  bypass d = false ->
  x_1 (snd (perform (xs ++ [x]) d)) = x /\
  y_1 (snd (perform (xs ++ [x]) d)) = last (fst (perform (xs ++ [x]) d)) x.
Proof. apply perform_history. Qed.

Lemma history_is_last_sample_witness :
  bypass (Dcblocker 0.5 0.25 false) = false /\
  x_1 (snd (perform ([1; 2] ++ [3]) (Dcblocker 0.5 0.25 false))) = 3 /\
  y_1 (snd (perform ([1; 2] ++ [3]) (Dcblocker 0.5 0.25 false))) =
    last (fst (perform ([1; 2] ++ [3]) (Dcblocker 0.5 0.25 false))) 3.
Proof.
  split; [reflexivity|].
  apply (history_is_last_sample [1; 2] 3 (Dcblocker 0.5 0.25 false)).
  reflexivity.
Defined.

(** Silence in, silence out, and a delayed input gives the delayed output:
    [m] zero samples ahead of a block, through a zeroed filter, return [m]
    zeros and then what the block alone returns, and leave the object as the
    block alone leaves it. Exactly so on doubles, as in exact arithmetic. *)
Theorem leading_silence (m : nat) (xs : list float) (rs : list R) :
  perform (repeat 0 m ++ xs) Double.zeroed =
    (repeat 0 m ++ fst (perform xs Double.zeroed),
     snd (perform xs Double.zeroed)) /\
  perform (repeat 0%R m ++ rs) Ideal.zeroed =
    (repeat 0%R m ++ fst (perform rs Ideal.zeroed),
     snd (perform rs Ideal.zeroed)).
Proof.
  split.
  - rewrite perform_app, DoubleFilter.perform_silence. reflexivity.
  - rewrite perform_app, IdealFilter.perform_silence_exact. reflexivity.
Qed.

(** ** On doubles *)



(** While the input is held at a finite constant, from any history, the
    magnitude of the output never grows from one sample to the next, and
    every output is finite if the first one is. *)
Theorem held_input_never_grows (c : float) (d : dcblocker float) (n : nat) :
  bypass d = false ->
  is_finite c = true ->
  is_finite (output (fun _ => c) 0 d) = true ->
  is_finite (output (fun _ => c) n d) = true /\
  (abs (output (fun _ => c) (S n) d) <=? abs (output (fun _ => c) n d)) = true.
Proof. intros Hb Hc H0. now apply DoubleFilter.hold_shrinks. Qed.

Lemma held_input_never_grows_witness :
  bypass (Dcblocker 0.5 0.25 false) = false /\
  is_finite 2 = true /\
  is_finite (output (fun _ => 2) 0 (Dcblocker 0.5 0.25 false)) = true /\
  is_finite (output (fun _ => 2) 5 (Dcblocker 0.5 0.25 false)) = true /\
  (abs (output (fun _ => 2) 6 (Dcblocker 0.5 0.25 false)) <=?
   abs (output (fun _ => 2) 5 (Dcblocker 0.5 0.25 false))) = true.
Proof.
  split; [reflexivity|]. split; [reflexivity|]. split; [reflexivity|].
  apply (held_input_never_grows 2 (Dcblocker 0.5 0.25 false) 5); reflexivity.
Defined.

(** Finite inputs can overflow: after [clear], a finite sample of magnitude
    2^1023 or more, its opposite, and the sample again return the sample,
    the infinity of the opposite sign, and NaN. *)
Theorem opposite_peaks_overflow (x : float) (d : dcblocker float) :
  bypass d = false ->
  is_finite x = true ->
  (Magnitude.history_bound <=? abs x) = true ->
  forallb is_finite [x; - x; x] = true /\
  fst (perform [x; - x; x] (clear d)) =
    [x; if x <? 0 then infinity else neg_infinity; nan].
Proof.
  intros Hb Hx Hbig. split.
  - cbn [forallb]. rewrite Hx.
    assert (Ho : is_finite (- x) = true).
    { rewrite Rounding.is_finite_sf, opp_spec.
      rewrite Rounding.is_finite_sf in Hx. now destruct (Prim2SF x). }
    now rewrite Ho.
  - now apply DoubleFilter.opposite_peaks.
Qed.

Lemma opposite_peaks_overflow_witness :
  bypass (Dcblocker 0.5 0.25 false) = false /\
  is_finite Double.DBL_MAX = true /\
  (Magnitude.history_bound <=? abs Double.DBL_MAX) = true /\
  forallb is_finite [Double.DBL_MAX; - Double.DBL_MAX; Double.DBL_MAX] = true /\
  fst (perform [Double.DBL_MAX; - Double.DBL_MAX; Double.DBL_MAX]
         (clear (Dcblocker 0.5 0.25 false))) =
    [Double.DBL_MAX;
     if Double.DBL_MAX <? 0 then infinity else neg_infinity; nan].
Proof.
  split; [reflexivity|]. split; [reflexivity|]. split; [reflexivity|].
  apply (opposite_peaks_overflow Double.DBL_MAX (Dcblocker 0.5 0.25 false));
    reflexivity.
Defined.

(** An infinite sample poisons the filter as NaN does: fed to a cleared
    filter, an infinity of either sign comes out as it is, and the next
    filtered output is NaN for every finite input. *)
Theorem infinite_sample_poisons (i x : float) (d : dcblocker float) :
  bypass d = false ->
  is_infinity i = true ->
  is_finite x = true ->
  fst (perform [i; x] (clear d)) = [i; nan].
Proof. intros Hb Hi Hx. now apply DoubleFilter.infinite_then_nan. Qed.

Lemma infinite_sample_poisons_witness :
  bypass (Dcblocker 0.5 0.25 false) = false /\
  is_infinity neg_infinity = true /\
  is_finite 0.75 = true /\
  fst (perform [neg_infinity; 0.75] (clear (Dcblocker 0.5 0.25 false))) =
    [neg_infinity; nan].
Proof.
  split; [reflexivity|]. split; [reflexivity|]. split; [reflexivity|].
  apply (infinite_sample_poisons neg_infinity 0.75 (Dcblocker 0.5 0.25 false));
    reflexivity.
Defined.

(** From a cleared object, whatever the host does next (samples, bypass
    changes, further clears), every returned sample is finite as long as
    every sample fed has magnitude at most 2^1010. *)
Theorem bounded_calls_stay_finite
  (d : dcblocker float) (cs : list (call float)) :
  forallb Magnitude.call_in_range cs = true ->
  forallb is_finite (fst (drive cs (clear d))) = true.
Proof.
  intros Hcs. apply DoubleFilter.drive_tame; [|exact Hcs].
  apply DoubleFilter.tame_clear.
Qed.

Lemma bounded_calls_stay_finite_witness :
  forallb Magnitude.call_in_range
    [Signal 1; Bypass true; Signal Magnitude.input_bound; Bypass false;
     Signal (-1); Clear; Signal 0.5] = true /\
  forallb is_finite
    (fst (drive [Signal 1; Bypass true; Signal Magnitude.input_bound;
                 Bypass false; Signal (-1); Clear; Signal 0.5]
            (clear (Dcblocker nan infinity false)))) = true.
Proof.
  split; [reflexivity|].
  apply (bounded_calls_stay_finite (Dcblocker nan infinity false)
           [Signal 1; Bypass true; Signal Magnitude.input_bound; Bypass false;
            Signal (-1); Clear; Signal 0.5]).
  reflexivity.
Defined.

(** ** Within tolerance, in both environments *)

(** Headroom on doubles: a finite block with samples of magnitude at most
    2^1000, fed to a cleared filter, returns finite outputs, each within
    [(1 + 2^-36) * peak + 2^-1000] of its input, where [peak] is the
    largest magnitude in the block; so no output exceeds about twice the
    peak. With subnormals kept and with subnormals flushed. *)
Theorem bounded_block_headroom (xs : list float) (d : dcblocker float) :
  bypass d = false ->
  forallb is_finite xs = true ->
  (Value.peak xs <= Value.val 0x1p1000)%R ->
  Forall2 (Value.near (Value.headroom xs)) (fst (perform xs (clear d))) xs /\
  Forall2 (Value.near (Value.headroom xs))
    (fst (Flushed.perform xs (clear d))) xs.
Proof.
  intros Hb Fxs Pxs. split.
  - apply (Blocks.headroom_near binary64 Value.eta xs d); try assumption.
    + apply Environments.binary64_rounded.
    + apply Blocks.unit_covered. now left.
  - apply (Blocks.headroom_near Flushed.binary64_ftz
             (Value.val Double.DBL_MIN + Value.eta) xs d); try assumption.
    + apply Environments.ftz_rounded.
    + apply Blocks.unit_covered. now right.
Qed.

Lemma bounded_block_headroom_witness :
  bypass (Dcblocker 0.5 0.25 false) = false /\
  forallb is_finite [1; 0] = true /\
  (Value.peak [1; 0]%float <= Value.val 0x1p1000)%R /\
  Forall2 (Value.near (Value.headroom [1; 0]))
    (fst (perform [1; 0] (clear (Dcblocker 0.5 0.25 false)))) [1; 0] /\
  Forall2 (Value.near (Value.headroom [1; 0]))
    (fst (Flushed.perform [1; 0] (clear (Dcblocker 0.5 0.25 false)))) [1; 0].
Proof.
  destruct Blocks.example_in_range as (H1 & _).
  split; [reflexivity|]. split; [reflexivity|]. split; [exact H1|].
  apply (bounded_block_headroom [1; 0] (Dcblocker 0.5 0.25 false));
    [reflexivity | reflexivity | exact H1].
Defined.

(** With subnormals flushed to zero a held input is blocked for good: while
    a finite input is held, from any history, if the first output is
    finite then the magnitude of the output never grows, and the output is
    zero from some sample on. *)
Theorem held_input_is_blocked (c : float) (d : dcblocker float) :
  bypass d = false ->
  is_finite c = true ->
  is_finite (Flushed.output (fun _ => c) 0 d) = true ->
  (forall n, (abs (Flushed.output (fun _ => c) (S n) d) <=?
              abs (Flushed.output (fun _ => c) n d)) = true) /\
  (exists N, forall n, (N <= n)%nat ->
             is_zero (Flushed.output (fun _ => c) n d) = true).
Proof.
  intros Hb Hc H0.
  destruct (StepResponse.hold_flushed c d Hb Hc) as [M0 Hnext].
  split.
  - intros n.
    destruct (StepResponse.next_chain _ H0 M0 Hnext n) as (Hf & _ & Hle & _).
    destruct (StepResponse.next_chain _ H0 M0 Hnext (S n)) as (Hf' & _).
    now apply Rounding.mag_leb_abs.
  - now apply StepResponse.next_chain_zero.
Qed.

Lemma held_input_is_blocked_witness :
  bypass (Dcblocker 0.5 0.25 false) = false /\
  is_finite 2 = true /\
  is_finite (Flushed.output (fun _ => 2) 0 (Dcblocker 0.5 0.25 false)) = true /\
  (forall n, (abs (Flushed.output (fun _ => 2) (S n) (Dcblocker 0.5 0.25 false)) <=?
              abs (Flushed.output (fun _ => 2) n (Dcblocker 0.5 0.25 false))) = true) /\
  (exists N, forall n, (N <= n)%nat ->
             is_zero (Flushed.output (fun _ => 2) n (Dcblocker 0.5 0.25 false)) = true).
Proof.
  split; [reflexivity|]. split; [reflexivity|]. split; [reflexivity|].
  apply (held_input_is_blocked 2 (Dcblocker 0.5 0.25 false)); reflexivity.
Defined.
